(** * Hero motion controller: a shallow embedding of [src/scripts/homeMotion.ts]

    The controller drives a star field, a ring menu and a sequence of title
    cards from the scroll position.  JavaScript numbers are modelled as real
    numbers: every [number] of the source is an [R], [Math.floor] and
    [Math.round] land in [Z], and the constants [Math.PI], [Math.cos] and
    [Math.sin] are the ones of the standard library of reals.  Rounding of
    IEEE doubles, [NaN] and the infinities are outside this model: where the
    source divides, a statement that depends on the quotient assumes a
    divisor other than 0.

    Effects are made explicit: closure variables of [initHeroSequence] that a
    function reads become arguments, the ones it writes become results,
    [Math.random] reads a numbered supply of samples, and canvas calls are
    collected in a trace. *)

From Stdlib Require Import Reals Lra Lia ZArith List String Ascii Bool.
Import ListNotations.

Open Scope R_scope.

(* ================================================================== *)
(** ** Numeric helpers (lines 147-159) *)

(** [const clamp = (value, min, max) => Math.min(max, Math.max(min, value))] *)
Definition clamp (value min max : R) : R := Rmin max (Rmax min value).

(** [const lerp = (start, end, t) => start + (end - start) * t] *)
Definition lerp (start end_ t : R) : R := start + (end_ - start) * t.

(** [Math.floor] on a real number. *)
Definition Math_floor (x : R) : Z := Zfloor x.

(** [Math.round]: the nearest integer, halves rounded up. *)
Definition Math_round (x : R) : Z := Zfloor (x + / 2).

Definition smoothstep (edge0 edge1 value : R) : R :=
  let x := clamp ((value - edge0) / Rmax (edge1 - edge0) 0.0001) 0 1 in
  x * x * (3 - 2 * x).

Definition ColorRGB : Type := (R * R * R)%type.

Definition lerpColor (a b : ColorRGB) (t : R) : ColorRGB :=
  let '(a0, a1, a2) := a in
  let '(b0, b1, b2) := b in
  (IZR (Math_round (lerp a0 b0 t)),
   IZR (Math_round (lerp a1 b1 t)),
   IZR (Math_round (lerp a2 b2 t))).

(* ================================================================== *)
(** ** Configuration (lines 8-100) *)

Record RingConfig : Type := mkRingConfig {
  radiusFactor : R;
  ellipseRatio : R;
  ellipseRatioMobile : R;
  speedMultiplier : R;
  tiltOffset : R;
  strokeAlpha : R
}.

Record AnimationConfig : Type := mkAnimationConfig {
  revealDuration : R;
  revealY : R;
  magneticScale : R
}.

Record StarsConfig : Type := mkStarsConfig {
  desktopCount : R;
  mobileCount : R;
  depth : R;
  baseSpeed : R;
  warpBoost : R
}.

Record OrbitConfig : Type := mkOrbitConfig {
  start : R;
  full : R;
  radiusDesktop : R;
  radiusMobile : R;
  rings : list RingConfig
}.

Record MotionConfig : Type := mkMotionConfig {
  sequenceHeightDesktop : R;
  sequenceHeightMobile : R;
  animation : AnimationConfig;
  stars : StarsConfig;
  orbit : OrbitConfig
}.

Definition defaultConfig : MotionConfig := {|
  sequenceHeightDesktop := 520;
  sequenceHeightMobile := 470;
  animation := {| revealDuration := 0.8; revealY := 24; magneticScale := 1.02 |};
  stars := {| desktopCount := 860; mobileCount := 500; depth := 1600;
              baseSpeed := 0.28; warpBoost := 5.1 |};
  orbit := {|
    start := 0.62;
    full := 0.78;
    radiusDesktop := 260;
    radiusMobile := 220;
    rings := [
      mkRingConfig 0.45 0.52 0.55 1.4 0 0.10;
      mkRingConfig 0.72 0.58 0.62 1.0 0.08 0.14;
      mkRingConfig 1.0 0.64 0.68 0.7 (-0.06) 0.18 ]
  |}
|}.

(* ================================================================== *)
(** ** Stage themes and the stage blend of [draw] (lines 102-136, 1674-1679,
       895-898, 1780) *)

Record StageTheme : Type := mkStageTheme {
  base : ColorRGB;
  hazeA : ColorRGB;
  hazeB : ColorRGB;
  palette : list ColorRGB
}.

Definition stageThemes : list StageTheme := [
  {| base := (2, 3, 6); hazeA := (18, 28, 52); hazeB := (8, 18, 40);
     palette := [(145, 154, 176); (172, 180, 198); (214, 221, 236); (255, 255, 255)] |};
  {| base := (2, 4, 8); hazeA := (14, 30, 58); hazeB := (10, 24, 44);
     palette := [(151, 161, 184); (180, 190, 210); (218, 226, 240); (255, 255, 255)] |};
  {| base := (3, 5, 10); hazeA := (12, 34, 64); hazeB := (10, 23, 48);
     palette := [(158, 166, 188); (188, 197, 218); (224, 230, 245); (255, 255, 255)] |}
].

(** [stageThemes.length - 1] *)
Definition lastStage : Z := Z.of_nat (List.length stageThemes) - 1.

Record StageBlend : Type := mkStageBlend {
  slideProgress : R;
  stageLower : Z;
  stageUpper : Z;
  stageMix : R
}.

(** Lines 1674-1679 of [draw]; [orbitStart] is [config.orbit.start]. *)
Definition stageBlend (orbitStart scrollProgress : R) : StageBlend :=
  let slideWindow := Rmax (orbitStart - 0.02) 0.0001 in
  let slideProgress := clamp (scrollProgress / slideWindow) 0 1 in
  let stageValue := slideProgress * Rmax (IZR lastStage) 1 in
  let stageLower := Math_floor stageValue in
  let stageUpper := Z.min lastStage (stageLower + 1) in
  let stageMix := stageValue - IZR stageLower in
  mkStageBlend slideProgress stageLower stageUpper stageMix.

(** Reading [stageThemes[i]]: an index that is negative or past the end gives
    [undefined], here [None]. *)
Definition themeAt (i : Z) : option StageTheme :=
  if (i <? 0)%Z then None else nth_error stageThemes (Z.to_nat i).

(** The three colours [drawAtmosphere] blends before it paints its
    gradients (lines 896-898). *)
Record Atmosphere : Type := mkAtmosphere {
  atmBase : ColorRGB;
  atmHazeA : ColorRGB;
  atmHazeB : ColorRGB
}.

Definition drawAtmosphere (themeA themeB : StageTheme) (mix : R) : Atmosphere :=
  {| atmBase := lerpColor (base themeA) (base themeB) mix;
     atmHazeA := lerpColor (hazeA themeA) (hazeA themeB) mix;
     atmHazeB := lerpColor (hazeB themeA) (hazeB themeB) mix |}.

(** The theme reads of [draw] (lines 1780-1784): [drawAtmosphere] gets
    [stageThemes[stageLower]] and [stageThemes[stageUpper]], the star field
    gets [stageThemes[stageUpper].palette].  Reading a field of [undefined]
    throws; that is [None]. *)
Definition drawStage (orbitStart scrollProgress : R)
  : option (Atmosphere * list ColorRGB) :=
  let b := stageBlend orbitStart scrollProgress in
  match themeAt (stageLower b), themeAt (stageUpper b) with
  | Some themeA, Some themeB =>
      Some (drawAtmosphere themeA themeB (stageMix b), palette themeB)
  | _, _ => None
  end.

(* ================================================================== *)
(** ** Scroll energy (lines 1653, 1932-1939) *)

(** The decay line of [draw]:
    [scrollEnergy = Math.max(0, scrollEnergy * 0.94 - 0.002)]. *)
Definition drawEnergy (scrollEnergy : R) : R :=
  Rmax 0 (scrollEnergy * 0.94 - 0.002).

(** The increment [onUpdate] adds: [clamp(Math.abs(velocity) / 3000, 0, 1)]. *)
Definition energyIncrement (velocity : R) : R :=
  clamp (Rabs velocity / 3000) 0 1.

(** [onUpdate]: the energy is raised and clamped; with reduced motion the
    handler also draws a frame at once. *)
Definition onUpdate (reduceMotion : bool) (scrollEnergy velocity : R) : R :=
  let e := clamp (scrollEnergy + energyIncrement velocity) 0 2 in
  if reduceMotion then drawEnergy e else e.

(** What can happen to [scrollEnergy]: a ScrollTrigger update that reports a
    velocity, or an animation frame. *)
Inductive EnergyEvent : Type :=
  | ScrollUpdate (velocity : R)
  | Frame.

Definition energyStep (reduceMotion : bool) (scrollEnergy : R) (ev : EnergyEvent) : R :=
  match ev with
  | ScrollUpdate velocity => onUpdate reduceMotion scrollEnergy velocity
  | Frame => drawEnergy scrollEnergy
  end.

(** Any interleaving of updates and frames, from [let scrollEnergy = 0]. *)
Definition runEnergy (reduceMotion : bool) (evs : list EnergyEvent) : R :=
  fold_left (energyStep reduceMotion) evs 0.

(* ================================================================== *)
(** ** Orbit clock (lines 339-341, 680-689, 1973-1982) *)

Record OrbitClock : Type := mkOrbitClock {
  orbitPaused : bool;
  pauseTimeOffset : R;
  pauseStartTime : R
}.

Definition initialClock : OrbitClock := mkOrbitClock false 0 0.

Definition getOrbitTime (c : OrbitClock) (nowSeconds : R) : R :=
  if orbitPaused c
  then nowSeconds - pauseTimeOffset c - (nowSeconds - pauseStartTime c)
  else nowSeconds - pauseTimeOffset c.

(** The other closure variables [computeBaseSpin] reads. *)
Record SpinInputs : Type := mkSpinInputs {
  spinReduceMotion : bool;
  spinScrollProgress : R;
  touchSpinOffset : R
}.

(** The time-driven term, [baseRate]. *)
Definition baseRate (c : OrbitClock) (i : SpinInputs) (nowSeconds speedMul : R) : R :=
  let t := getOrbitTime c nowSeconds in
  if spinReduceMotion i then 0 else t * 0.17 * speedMul.

Definition computeBaseSpin (c : OrbitClock) (i : SpinInputs) (nowSeconds speedMul : R) : R :=
  baseRate c i nowSeconds speedMul
  + spinScrollProgress i * PI * 0.55 * speedMul
  + touchSpinOffset i * speedMul.

(** [clockSeconds] is the reading [performance.now() * 0.001] the handler
    takes. *)
Definition pauseOrbit (c : OrbitClock) (clockSeconds : R) : OrbitClock :=
  if orbitPaused c then c
  else {| orbitPaused := true;
          pauseTimeOffset := pauseTimeOffset c;
          pauseStartTime := clockSeconds |}.

Definition resumeOrbit (c : OrbitClock) (clockSeconds : R) : OrbitClock :=
  if negb (orbitPaused c) then c
  else {| orbitPaused := false;
          pauseTimeOffset := pauseTimeOffset c + (clockSeconds - pauseStartTime c);
          pauseStartTime := pauseStartTime c |}.

(* ================================================================== *)
(** ** Run-time values and [parseConfig] (lines 169-201)

    [JSON.parse] is typed [PartialMotionConfig] by an unchecked cast, so
    [parseConfig] works on whatever value the attribute holds.  An object is
    the list of its own properties, each key listed once. *)

#[warnings="-register-all"] Inductive value : Type :=
  | VUndefined
  | VNull
  | VBool (b : bool)
  | VNum (n : R)
  | VStr (s : string)
  | VArr (items : list value)
  | VObj (fields : list (string * value)).

Fixpoint lookupField (fields : list (string * value)) (key : string) : value :=
  match fields with
  | [] => VUndefined
  | (k, v) :: rest => if String.eqb k key then v else lookupField rest key
  end.

(** [v == null] *)
Definition nullish (v : value) : bool :=
  match v with
  | VUndefined | VNull => true
  | _ => false
  end.

(** [v.key]: throws ([None]) on [null] and [undefined]; on an object it
    finds the property or gives [undefined]; on numbers, strings, booleans
    and arrays it gives [undefined], none of the keys [parseConfig] reads
    being a property of their prototypes. *)
Definition getProp (v : value) (key : string) : option value :=
  match v with
  | VUndefined | VNull => None
  | VObj fields => Some (lookupField fields key)
  | _ => Some VUndefined
  end.

(** [v?.key] *)
Definition optProp (v : value) (key : string) : value :=
  match getProp v key with
  | Some r => r
  | None => VUndefined
  end.

(** [v ?? d] *)
Definition coalesce (v d : value) : value := if nullish v then d else v.

(** [parsed.group?.key ?? d]; only the read of [parsed.group] can throw. *)
Definition nested (parsed : value) (group key : string) (d : value) : option value :=
  match getProp parsed group with
  | Some g => Some (coalesce (optProp g key) d)
  | None => None
  end.

(** [parsed.key ?? d] *)
Definition direct (parsed : value) (key : string) (d : value) : option value :=
  match getProp parsed key with
  | Some v => Some (coalesce v d)
  | None => None
  end.

Definition ringValue (r : RingConfig) : value :=
  VObj [ ("radiusFactor", VNum (radiusFactor r));
         ("ellipseRatio", VNum (ellipseRatio r));
         ("ellipseRatioMobile", VNum (ellipseRatioMobile r));
         ("speedMultiplier", VNum (speedMultiplier r));
         ("tiltOffset", VNum (tiltOffset r));
         ("strokeAlpha", VNum (strokeAlpha r)) ]%string.

(** A typed configuration as the object it is at run time. *)
Definition configValue (c : MotionConfig) : value :=
  VObj [ ("sequenceHeightDesktop", VNum (sequenceHeightDesktop c));
         ("sequenceHeightMobile", VNum (sequenceHeightMobile c));
         ("animation", VObj [
            ("revealDuration", VNum (revealDuration (animation c)));
            ("revealY", VNum (revealY (animation c)));
            ("magneticScale", VNum (magneticScale (animation c))) ]);
         ("stars", VObj [
            ("desktopCount", VNum (desktopCount (stars c)));
            ("mobileCount", VNum (mobileCount (stars c)));
            ("depth", VNum (depth (stars c)));
            ("baseSpeed", VNum (baseSpeed (stars c)));
            ("warpBoost", VNum (warpBoost (stars c))) ]);
         ("orbit", VObj [
            ("start", VNum (start (orbit c)));
            ("full", VNum (full (orbit c)));
            ("radiusDesktop", VNum (radiusDesktop (orbit c)));
            ("radiusMobile", VNum (radiusMobile (orbit c)));
            ("rings", VArr (map ringValue (rings (orbit c)))) ]) ]%string.

(** The default of one field: [defaultConfig.key] and
    [defaultConfig.group.key]. *)
Definition dflt (key : string) : value := optProp (configValue defaultConfig) key.
Definition dflt2 (group key : string) : value := optProp (dflt group) key.

Definition bind {A B : Type} (m : option A) (f : A -> option B) : option B :=
  match m with
  | Some a => f a
  | None => None
  end.

Notation "x <- m ;; k" := (bind m (fun x => k))
  (at level 61, m at next level, right associativity).

(** The object literal inside [try]; [None] when building it throws.  The
    properties are evaluated in source order. *)
Definition buildConfig (parsed : value) : option value :=
  (shd <- direct parsed "sequenceHeightDesktop" (dflt "sequenceHeightDesktop") ;;
   shm <- direct parsed "sequenceHeightMobile" (dflt "sequenceHeightMobile") ;;
   a1 <- nested parsed "animation" "revealDuration" (dflt2 "animation" "revealDuration") ;;
   a2 <- nested parsed "animation" "revealY" (dflt2 "animation" "revealY") ;;
   a3 <- nested parsed "animation" "magneticScale" (dflt2 "animation" "magneticScale") ;;
   s1 <- nested parsed "stars" "desktopCount" (dflt2 "stars" "desktopCount") ;;
   s2 <- nested parsed "stars" "mobileCount" (dflt2 "stars" "mobileCount") ;;
   s3 <- nested parsed "stars" "depth" (dflt2 "stars" "depth") ;;
   s4 <- nested parsed "stars" "baseSpeed" (dflt2 "stars" "baseSpeed") ;;
   s5 <- nested parsed "stars" "warpBoost" (dflt2 "stars" "warpBoost") ;;
   o1 <- nested parsed "orbit" "start" (dflt2 "orbit" "start") ;;
   o2 <- nested parsed "orbit" "full" (dflt2 "orbit" "full") ;;
   o3 <- nested parsed "orbit" "radiusDesktop" (dflt2 "orbit" "radiusDesktop") ;;
   o4 <- nested parsed "orbit" "radiusMobile" (dflt2 "orbit" "radiusMobile") ;;
   o5 <- nested parsed "orbit" "rings" (dflt2 "orbit" "rings") ;;
   Some (VObj [
     ("sequenceHeightDesktop", shd);
     ("sequenceHeightMobile", shm);
     ("animation", VObj [ ("revealDuration", a1); ("revealY", a2);
                          ("magneticScale", a3) ]);
     ("stars", VObj [ ("desktopCount", s1); ("mobileCount", s2); ("depth", s3);
                      ("baseSpeed", s4); ("warpBoost", s5) ]);
     ("orbit", VObj [ ("start", o1); ("full", o2); ("radiusDesktop", o3);
                      ("radiusMobile", o4); ("rings", o5) ]) ]))%string.

(** The wrapper element, as far as [parseConfig] looks at it. *)
Record HTMLElement : Type := mkHTMLElement {
  attributes : list (string * string)
}.

(** [wrapper.getAttribute(name)]: [null] ([None]) when absent. *)
Fixpoint findAttribute (attrs : list (string * string)) (name : string) : option string :=
  match attrs with
  | [] => None
  | (k, v) :: rest => if String.eqb k name then Some v else findAttribute rest name
  end.

Definition getAttribute (el : HTMLElement) (name : string) : option string :=
  findAttribute (attributes el) name.

Section ParseConfig.

(** [JSON.parse]: the value a text denotes, [None] when it throws a
    [SyntaxError]. *)
Variable JSON_parse : string -> option value.

Definition parseConfig (wrapper : HTMLElement) : value :=
  match getAttribute wrapper "data-motion-config" with
  | None => configValue defaultConfig
  | Some raw =>
      if String.eqb raw EmptyString then configValue defaultConfig
      else
        match JSON_parse raw with
        | None => configValue defaultConfig
        | Some parsed =>
            match buildConfig parsed with
            | Some c => c
            | None => configValue defaultConfig
            end
        end
  end.

End ParseConfig.

(** The fifteen leaf fields of a [MotionConfig], as paths. *)
Definition configFields : list (list string) :=
  [ ["sequenceHeightDesktop"]; ["sequenceHeightMobile"];
    ["animation"; "revealDuration"]; ["animation"; "revealY"];
    ["animation"; "magneticScale"];
    ["stars"; "desktopCount"]; ["stars"; "mobileCount"]; ["stars"; "depth"];
    ["stars"; "baseSpeed"]; ["stars"; "warpBoost"];
    ["orbit"; "start"]; ["orbit"; "full"]; ["orbit"; "radiusDesktop"];
    ["orbit"; "radiusMobile"]; ["orbit"; "rings"] ]%string.

(** The value at a path, [undefined] as soon as a step is missing. *)
Fixpoint fieldAt (v : value) (path : list string) : value :=
  match path with
  | [] => v
  | k :: rest => fieldAt (optProp v k) rest
  end.

(* ================================================================== *)
(** ** Stars (lines 54-65, 203-228, 872-878, 1432-1536) *)

Definition Rltb (a b : R) : bool := if Rlt_dec a b then true else false.
Definition Rleb (a b : R) : bool := if Rle_dec a b then true else false.

Module Star.
Record t : Type := mk {
  x : R;
  y : R;
  z : R;
  size : R;
  tint : R;
  prevX : R;
  prevY : R;
  initialized : bool;
  isVLogo : bool;
  rotation : R
}.
End Star.

Abbreviation Star := Star.t.

Definition V_LOGO_CHANCE : R := 0.13.

(** [Math.random]: the [k]-th call of a run returns [rnd k].  Functions that
    call it take the supply [rnd] and the number [k] of calls made so far,
    and return the new count. *)
Definition Random : Type := nat -> R.

(** One element of [createStars]: seven samples, in the order of the object
    literal. *)
Definition newStar (depth spread : R) (rnd : Random) (k : nat) : Star :=
  {| Star.x := (rnd k * 2 - 1) * spread;
     Star.y := (rnd (k + 1)%nat * 2 - 1) * spread * 0.68;
     Star.z := rnd (k + 2)%nat * depth + 1;
     Star.size := rnd (k + 3)%nat * 1.2 + 0.45;
     Star.tint := rnd (k + 4)%nat;
     Star.prevX := 0;
     Star.prevY := 0;
     Star.initialized := false;
     Star.isVLogo := Rltb (rnd (k + 5)%nat) V_LOGO_CHANCE;
     Star.rotation := rnd (k + 6)%nat * PI * 2 |}.

(** [Array.from({ length: count }, () => ...)] *)
Fixpoint createStars (count : nat) (depth spread : R) (rnd : Random) (k : nat)
  : list Star * nat :=
  match count with
  | O => ([], k)
  | S n =>
      let s := newStar depth spread rnd k in
      let '(rest, k') := createStars n depth spread rnd (k + 7) in
      (s :: rest, k')
  end.

(** [resetStar]: six samples; [prevX] and [prevY] are left as they are. *)
Definition resetStar (star : Star) (depth spread : R) (rnd : Random) (k : nat)
  : Star * nat :=
  ({| Star.x := (rnd k * 2 - 1) * spread;
      Star.y := (rnd (k + 1)%nat * 2 - 1) * spread * 0.68;
      Star.z := depth;
      Star.size := rnd (k + 2)%nat * 1.2 + 0.45;
      Star.tint := rnd (k + 3)%nat;
      Star.prevX := Star.prevX star;
      Star.prevY := Star.prevY star;
      Star.initialized := false;
      Star.isVLogo := Rltb (rnd (k + 4)%nat) V_LOGO_CHANCE;
      Star.rotation := rnd (k + 5)%nat * PI * 2 |},
   (k + 6)%nat).

(** The closure variables the star functions read. *)
Record Scene : Type := mkScene {
  width : R;
  height : R;
  isMobile : bool;
  lowPowerDevice : bool;
  reduceMotion : bool;
  vStampReady : bool;
  spread : R;
  mouseX : R;
  mouseY : R;
  scrollEnergy : R;
  pointerEnergy : R;
  config : MotionConfig
}.

(** [finalCount] of [rebuildStars]. *)
Definition finalCount (sc : Scene) : Z :=
  let configuredCount :=
    if isMobile sc then mobileCount (stars (config sc))
    else desktopCount (stars (config sc)) in
  let powerMultiplier := if lowPowerDevice sc then 0.62 else 1 in
  Z.max 220 (Math_round (configuredCount * powerMultiplier)).

(** [rebuildStars] writes [spread] and [stars]; it returns both, with the
    count of samples drawn. *)
Definition rebuildStars (sc : Scene) (rnd : Random) (k : nat)
  : R * list Star * nat :=
  let spread' := Rmax (width sc) (height sc) * 1.55 in
  let '(pool, k') :=
    createStars (Z.to_nat (finalCount sc)) (depth (stars (config sc))) spread' rnd k in
  (spread', pool, k').

(** The arguments of [drawStarField]; the palette only feeds colour strings
    and is left out. *)
Record FieldArgs : Type := mkFieldArgs {
  delta : R;
  orbitReveal : R;
  warpStrength : R;
  sequenceBoost : R;
  stageSpeedNormalized : R;
  orbitDampen : R
}.

Definition speedStageMaxBoost : R := 3.2.

(** What a frame does besides updating the pool: the calls of [resetStar]
    and the shapes painted on the canvas.  Colours are not recorded. *)
Inductive Effect : Type :=
  | ResetStar
  | StrokeLine (fromX fromY toX toY lineWidth alpha : R)
  | DrawStamp (left top side alpha : R)
  | FillCircle (cx cy radius alpha : R)
  | FillVignette
  | FillHalo.

Definition speed (sc : Scene) (a : FieldArgs) : R :=
  let dynamicSpeed :=
    (scrollEnergy sc * 0.22 + pointerEnergy sc * 0.08 + sequenceBoost a * 1.12
     + stageSpeedNormalized a * speedStageMaxBoost
     + warpStrength a * warpBoost (stars (config sc))) * orbitDampen a in
  baseSpeed (stars (config sc)) + dynamicSpeed.

(** [star.z -= speed * delta * (8 + star.size * 4)] *)
Definition advance (sc : Scene) (a : FieldArgs) (star : Star) : Star :=
  {| Star.x := Star.x star;
     Star.y := Star.y star;
     Star.z := Star.z star - speed sc a * delta a * (8 + Star.size star * 4);
     Star.size := Star.size star;
     Star.tint := Star.tint star;
     Star.prevX := Star.prevX star;
     Star.prevY := Star.prevY star;
     Star.initialized := Star.initialized star;
     Star.isVLogo := Star.isVLogo star;
     Star.rotation := Star.rotation star |}.

(** [clamp(1 - star.z / config.stars.depth, 0, 1)].  The quotient is that
    of the source for a configured depth other than 0; at depth 0 the
    source divides by zero and gets no number. *)
Definition depthMix (sc : Scene) (star : Star) : R :=
  clamp (1 - Star.z star / depth (stars (config sc))) 0 1.

(** The projected position [(sx, sy)] (lines 1441-1443, 1461-1465).  The
    loop projects a star at a [z] above 1 or, just recycled, at the
    configured depth, so [focal / star.z] is the quotient of the source as
    long as that depth is not 0. *)
Definition project (sc : Scene) (star : Star) : R * R :=
  let centerX := width sc * 0.5 in
  let centerY := height sc * 0.5 in
  let focal := Rmax (width sc) (height sc) * 0.94 in
  let projection := focal / Star.z star in
  let parallax := 1 + depthMix sc star * 1.8 in
  (centerX + (Star.x star + mouseX sc * 28 * parallax) * projection,
   centerY + (Star.y star + mouseY sc * 24 * parallax) * projection).

(** [sx < -120 || sx > width + 120 || sy < -120 || sy > height + 120] *)
Definition offScreen (sc : Scene) (p : R * R) : bool :=
  Rltb (fst p) (-120) || Rltb (width sc + 120) (fst p)
  || Rltb (snd p) (-120) || Rltb (height sc + 120) (snd p).

(** Lines 1479-1511: painting a star that stays, then remembering where it
    was painted. *)
Definition paintStar (sc : Scene) (a : FieldArgs) (star : Star) (p : R * R)
  : Star * list Effect :=
  let '(sx, sy) := p in
  let dm := depthMix sc star in
  let alpha := clamp (0.12 + dm * 0.86 + warpStrength a * 0.08) 0 1 in
  let radius := clamp (Star.size star * (0.45 + dm * 1.9)) 0.35 3.2 in
  let streak :=
    if Rltb 0.07 (warpStrength a) && Star.initialized star && negb (reduceMotion sc)
    then [StrokeLine (Star.prevX star) (Star.prevY star) sx sy
            (clamp (radius * 0.72) 0.35 1.8)
            (alpha * clamp (warpStrength a * 1.05) 0 0.92)]
    else [] in
  let body :=
    if Star.isVLogo star && vStampReady sc
    then
      let vSize := radius * 7 in
      if Rltb 1.2 vSize
      then [DrawStamp (sx - vSize * 0.5) (sy - vSize * 0.5) vSize (alpha * 0.85)]
      else []
    else [FillCircle sx sy radius alpha] in
  ({| Star.x := Star.x star;
      Star.y := Star.y star;
      Star.z := Star.z star;
      Star.size := Star.size star;
      Star.tint := Star.tint star;
      Star.prevX := sx;
      Star.prevY := sy;
      Star.initialized := true;
      Star.isVLogo := Star.isVLogo star;
      Star.rotation := Star.rotation star |},
   streak ++ body).

(** One turn of the [for (const star of stars)] loop. *)
Definition starStep (sc : Scene) (a : FieldArgs) (rnd : Random) (star : Star) (k : nat)
  : Star * nat * list Effect :=
  let s1 := advance sc a star in
  let '(s2, k2, e2) :=
    if Rleb (Star.z s1) 1
    then let '(r, k') := resetStar s1 (depth (stars (config sc))) (spread sc) rnd k in
         (r, k', [ResetStar])
    else (s1, k, []) in
  let p := project sc s2 in
  if offScreen sc p
  then let '(r, k') := resetStar s2 (depth (stars (config sc))) (spread sc) rnd k2 in
       (r, k', e2 ++ [ResetStar])
  else let '(s3, e3) := paintStar sc a s2 p in
       (s3, k2, e2 ++ e3).

Fixpoint starLoop (sc : Scene) (a : FieldArgs) (rnd : Random) (pool : list Star) (k : nat)
  : list Star * nat * list Effect :=
  match pool with
  | [] => ([], k, [])
  | star :: rest =>
      let '(star', k1, e1) := starStep sc a rnd star k in
      let '(rest', k2, e2) := starLoop sc a rnd rest k1 in
      (star' :: rest', k2, e1 ++ e2)
  end.

Definition drawStarField (sc : Scene) (a : FieldArgs) (rnd : Random)
  (pool : list Star) (k : nat) : list Star * nat * list Effect :=
  let '(pool', k', e) := starLoop sc a rnd pool k in
  (pool', k',
   e ++ [FillVignette] ++ (if Rltb 0.06 (orbitReveal a) then [FillHalo] else [])).

(* ================================================================== *)
(** ** Title cards (lines 759-866) *)

(** 290 degrees on the compass, as a math angle. *)
Definition LINE_RAD : R := (90 - 290) * (PI / 180).
Definition LINE_DX : R := cos LINE_RAD.
Definition LINE_DY : R := - sin LINE_RAD.

Record LineDist : Type := mkLineDist {
  entry : R;
  exit : R
}.

Definition getLineDist (width : R) : LineDist :=
  {| entry := Rmax (width * 0.42) 200;
     exit := Rmax (width * 0.32) 220 |}.

Definition entryTx (width : R) : R := - LINE_DX * entry (getLineDist width).
Definition entryTy (width : R) : R := - LINE_DY * entry (getLineDist width).
Definition exitTx (width : R) : R := LINE_DX * exit (getLineDist width).
Definition exitTy (width : R) : R := LINE_DY * exit (getLineDist width).

Definition flyInEnd : R := 0.15.
Definition holdEnd : R := 0.75.

(** The four variables the active branch computes before it writes the
    style. *)
Record Pose : Type := mkPose {
  opacity : R;
  tx : R;
  ty : R;
  scale : R
}.

Definition holdPose : Pose := mkPose 1 0 0 1.

Definition flyInPose (width t : R) : Pose :=
  let at_ := t / flyInEnd in
  let eased := at_ * (2 - at_) in
  {| opacity := clamp (eased * 1.4) 0 1;
     tx := lerp (entryTx width) 0 eased;
     ty := lerp (entryTy width) 0 eased;
     scale := lerp 0.25 1.0 eased |}.

Definition flyOutPose (width t : R) : Pose :=
  let ft := (t - holdEnd) / (1.0 - holdEnd) in
  let eased := ft * ft * (3 - 2 * ft) in
  {| opacity := clamp (1 - ft * 2.5) 0 1;
     tx := exitTx width * eased;
     ty := exitTy width * eased;
     scale := lerp 1.0 3.5 eased |}.

(** The [if (isHero) ... else ...] of the active slide; [count] is
    [slides.length]. *)
Definition activePose (width : R) (count index : nat) (t : R) : Pose :=
  if Nat.eqb index 0
  then
    if Rltb t holdEnd then holdPose else flyOutPose width t
  else
    let isLastSlide := Z.eqb (Z.of_nat index) (Z.of_nat count - 1) in
    if Rltb t flyInEnd then flyInPose width t
    else if Rltb t holdEnd || isLastSlide then holdPose
    else flyOutPose width t.

(** What is written to one slide: the class toggle and the numbers printed
    into [style.transform] and [style.opacity].  The printing itself
    ([toFixed]) is not modelled. *)
Record SlideStyle : Type := mkSlideStyle {
  isActive : bool;
  translateX : R;
  translateY : R;
  scaleArg : R;
  opacityArg : R
}.

(** Lines 849-853: the compensation added to the translation of the active
    slide. *)
Definition scaleCompX (width scale : R) : R := - Rmax 0 (scale - 1) * width * 0.18.
Definition scaleCompY (scale : R) : R := - Rmax 0 (scale - 1) * 8.

Definition activeStyle (width : R) (p : Pose) : SlideStyle :=
  {| isActive := true;
     translateX := tx p + scaleCompX width (scale p);
     translateY := ty p + scaleCompY (scale p);
     scaleArg := scale p;
     opacityArg := opacity p |}.

(** [activeIndex] and [t] of a call (lines 770-773). *)
Definition scaledProgress (count : nat) (progress : R) : R :=
  clamp progress 0 0.999 * INR count.

Definition activeIndex (count : nat) (progress : R) : Z :=
  Math_floor (scaledProgress count progress).

Definition intraSlide (count : nat) (progress : R) : R :=
  scaledProgress count progress - IZR (activeIndex count progress).

(** The body of [slides.forEach]. *)
Definition slideStyle (width : R) (count : nat) (progress : R) (index : nat) : SlideStyle :=
  let active := activeIndex count progress in
  if Z.eqb (Z.of_nat index) active
  then activeStyle width (activePose width count index (intraSlide count progress))
  else if Z.ltb (Z.of_nat index) active
  then mkSlideStyle false (exitTx width) (exitTy width) 3.5 0
  else mkSlideStyle false (entryTx width) (entryTy width) 0.25 0.

Definition updateSlidesFlyThrough (width : R) (count : nat) (progress : R)
  : list SlideStyle :=
  map (slideStyle width count progress) (seq 0 count).

(** A translation lies on the compass line when it is a multiple of
    [(LINE_DX, LINE_DY)]. *)
Definition onLine (x y : R) : Prop :=
  exists k : R, x = k * LINE_DX /\ y = k * LINE_DY.

(* ================================================================== *)
(** ** Ring assignment (lines 657-677) *)

(** White space that [parseInt] skips: TAB, LF, VT, FF, CR, SP, U+00A0,
    U+1680, U+2000 to U+200A, U+2028, U+2029, U+202F, U+205F, U+3000 and
    U+FEFF.  A [string] holds the UTF-8 bytes of the attribute, so a
    character of this list takes one, two or three bytes.  A byte 160 on
    its own, which is U+00A0 when a text is written one byte per character
    and never starts a character of UTF-8, is skipped as well. *)
Definition isWhiteSpace (c : ascii) : bool :=
  let n := nat_of_ascii c in
  ((9 <=? n) && (n <=? 13) || (n =? 32) || (n =? 160))%nat.

(** U+00A0 is the bytes 194, 160. *)
Definition isWhiteSpace2 (c0 c1 : ascii) : bool :=
  ((nat_of_ascii c0 =? 194) && (nat_of_ascii c1 =? 160))%nat.

(** U+1680 is 225, 154, 128; U+2000 to U+200A are 226, 128, 128 to 138;
    U+2028, U+2029 and U+202F are 226, 128 and 168, 169, 175; U+205F is
    226, 129, 159; U+3000 is 227, 128, 128; U+FEFF is 239, 187, 191. *)
Definition isWhiteSpace3 (c0 c1 c2 : ascii) : bool :=
  let n0 := nat_of_ascii c0 in
  let n1 := nat_of_ascii c1 in
  let n2 := nat_of_ascii c2 in
  ((n0 =? 225) && (n1 =? 154) && (n2 =? 128)
   || (n0 =? 226) && (n1 =? 128)
      && ((128 <=? n2) && (n2 <=? 138) || (n2 =? 168) || (n2 =? 169) || (n2 =? 175))
   || (n0 =? 226) && (n1 =? 129) && (n2 =? 159)
   || (n0 =? 227) && (n1 =? 128) && (n2 =? 128)
   || (n0 =? 239) && (n1 =? 187) && (n2 =? 191))%nat.

Fixpoint trimStart (s : string) : string :=
  match s with
  | String c0 rest0 =>
      if isWhiteSpace c0 then trimStart rest0
      else
        match rest0 with
        | String c1 rest1 =>
            if isWhiteSpace2 c0 c1 then trimStart rest1
            else
              match rest1 with
              | String c2 rest2 =>
                  if isWhiteSpace3 c0 c1 c2 then trimStart rest2 else s
              | EmptyString => s
              end
        | EmptyString => s
        end
  | EmptyString => s
  end.

Definition digitValue (c : ascii) : option Z :=
  let n := nat_of_ascii c in
  if ((48 <=? n) && (n <=? 57))%nat then Some (Z.of_nat n - 48)%Z else None.

(** The longest prefix of decimal digits, read as a number; [acc] is [None]
    until a digit has been seen. *)
Fixpoint readDigits (s : string) (acc : option Z) : option Z :=
  match s with
  | String c rest =>
      match digitValue c with
      | Some d =>
          readDigits rest
            (Some (match acc with Some n => n * 10 + d | None => d end)%Z)
      | None => acc
      end
  | EmptyString => acc
  end.

(** [parseInt(s, 10)]; [None] is [NaN]. *)
Definition parseInt10 (s : string) : option Z :=
  match trimStart s with
  | String "-"%char rest => option_map Z.opp (readDigits rest None)
  | String "+"%char rest => readDigits rest None
  | t => readDigits t None
  end.

(** [ringAttr ? parseInt(ringAttr, 10) - 1 : 1], for [node.dataset.ring]
    ([None] when the attribute is absent); the result [None] is [NaN]. *)
Definition ringOf (ringAttr : option string) : option Z :=
  match ringAttr with
  | None => Some 1%Z
  | Some s =>
      if String.eqb s EmptyString then Some 1%Z
      else option_map (fun n => n - 1)%Z (parseInt10 s)
  end.

(** [buckets[r].push(i)]; [None] when [buckets[r]] is [undefined] and the
    call throws. *)
Fixpoint pushAt (buckets : list (list nat)) (r : nat) (i : nat) : option (list (list nat)) :=
  match buckets, r with
  | [], _ => None
  | b :: rest, O => Some ((b ++ [i]) :: rest)
  | b :: rest, S r' => option_map (cons b) (pushAt rest r' i)
  end.

Definition pushBucket (buckets : list (list nat)) (ring : option Z) (i : nat)
  : option (list (list nat)) :=
  match ring with
  | Some r => if (r <? 0)%Z then None else pushAt buckets (Z.to_nat r) i
  | None => None
  end.

(** The second [forEach]: node [i] goes to the bucket of its ring. *)
Fixpoint fillBuckets (assignments : list (option Z)) (i : nat) (buckets : list (list nat))
  : option (list (list nat)) :=
  match assignments with
  | [] => Some buckets
  | r :: rest =>
      b <- pushBucket buckets r i ;; fillBuckets rest (S i) b
  end.

(** [arr[i] = v] on an array of [n] slots, [i] below [n]. *)
Fixpoint setAt {A : Type} (arr : list A) (i : nat) (v : A) : list A :=
  match arr, i with
  | [], _ => []
  | _ :: rest, O => v :: rest
  | a :: rest, S i' => a :: setAt rest i' v
  end.

Definition ringAngle (posInRing len : nat) : R :=
  INR posInRing / INR (Nat.max len 1) * PI * 2 - PI / 2.

(** [bucket.forEach((nodeIdx, posInRing) => ...)], from position [pos] on. *)
Fixpoint spaceBucket (len : nat) (bucket : list nat) (pos : nat) (angles : list (option R))
  : list (option R) :=
  match bucket with
  | [] => angles
  | nodeIdx :: rest =>
      spaceBucket len rest (S pos) (setAt angles nodeIdx (Some (ringAngle pos len)))
  end.

Definition spaceRings (buckets : list (list nat)) (angles : list (option R))
  : list (option R) :=
  fold_left (fun acc bucket => spaceBucket (List.length bucket) bucket 0 acc) buckets angles.

(** [assignNodesToRings]: [ringCount] is [config.orbit.rings.length] and
    [nodes] lists [dataset.ring] of each orbit node.  It returns
    [nodeRingAssignments] and [orbitAngles]; a slot of [new Array(n)] that
    was never written is [None]. *)
Definition assignNodesToRings (ringCount : nat) (nodes : list (option string))
  : option (list (option Z) * list (option R)) :=
  let nodeRingAssignments := map ringOf nodes in
  ringBuckets <- fillBuckets nodeRingAssignments 0 (repeat [] ringCount) ;;
  Some (nodeRingAssignments,
        spaceRings ringBuckets (repeat None (List.length nodes))).

(** The nodes of ring [r] in document order. *)
Definition nodesOnRing (assignments : list (option Z)) (r : Z) : list nat :=
  filter (fun i => match nth_error assignments i with
                   | Some (Some q) => Z.eqb q r
                   | _ => false
                   end)
         (seq 0 (List.length assignments)).


(** Sorting the effects of the star loop: a streak is a stroked line, the
    body of a star a filled circle or a logo stamp. *)
Definition isStreak (e : Effect) : bool :=
  match e with
  | StrokeLine _ _ _ _ _ _ => true
  | _ => false
  end.

Definition isBody (e : Effect) : bool :=
  match e with
  | DrawStamp _ _ _ _ | FillCircle _ _ _ _ => true
  | _ => false
  end.

(** The body painted for a star at [(sx, sy)]: a circle centred there, or a
    square stamp centred there. *)
Definition bodyAt (sx sy : R) (e : Effect) : Prop :=
  match e with
  | FillCircle cx cy _ _ => cx = sx /\ cy = sy
  | DrawStamp l t side _ => l = sx - side * 0.5 /\ t = sy - side * 0.5
  | _ => False
  end.

(** The streak condition of line 1482. *)
Definition streakCondition (sc : Scene) (a : FieldArgs) (star : Star) : Prop :=
  warpStrength a > 0.07 /\ Star.initialized star = true /\ reduceMotion sc = false.

(** ** Sample inputs used to exercise the theorems *)

(** The attribute [data-ring] holding a no-break space (U+00A0, the bytes
    194 and 160) before the digit 3. *)
Definition paddedRing : string :=
  String (ascii_of_nat 194) (String (ascii_of_nat 160) "3"%string).

(** A 1280 x 720 desktop scene with the default configuration, the pointer
    at rest and no scroll energy. *)
Definition sampleScene : Scene :=
  mkScene 1280 720 false false false false 1600 0 0 0 0 defaultConfig.

(** A frame of normal length ([delta = 1]) with no warp and no boost. *)
Definition calmFrame : FieldArgs := mkFieldArgs 1 0 0 0 0 1.

(** The same frame at full warp. *)
Definition warpFrame : FieldArgs := mkFieldArgs 1 0 1 0 0 1.

(** A star about to pass the camera, painted before. *)
Definition nearStar : Star := Star.mk 0 0 0.5 1 0 0 0 true false 0.

(** A star far to the right of the view axis, painted before. *)
Definition farStar : Star := Star.mk 10000 0 100 1 0 0 0 true false 0.

(** A complete configuration that differs from [defaultConfig] in every
    field. *)
Definition sampleConfig : MotionConfig := {|
  sequenceHeightDesktop := 600;
  sequenceHeightMobile := 480;
  animation := {| revealDuration := 1.2; revealY := 30; magneticScale := 1.05 |};
  stars := {| desktopCount := 400; mobileCount := 240; depth := 900;
              baseSpeed := 0.5; warpBoost := 4 |};
  orbit := {|
    start := 0.5;
    full := 0.9;
    radiusDesktop := 300;
    radiusMobile := 200;
    rings := [
      mkRingConfig 0.5 0.5 0.6 1.2 0.1 0.2;
      mkRingConfig 0.9 0.6 0.7 0.8 (-0.1) 0.3 ]
  |}
|}.

(** A [Math.random] that always returns one half. *)
Definition halves : Random := fun _ => / 2.

(** The text of the object with one property [stars], itself an object with
    one property [depth] of value 900; [dq] is the double quote. *)
Definition dq : string := String (ascii_of_nat 34) EmptyString.

Definition sampleText : string :=
  ("{" ++ dq ++ "stars" ++ dq ++ ":{" ++ dq ++ "depth" ++ dq ++ ":900}}")%string.

(** A parser that knows this one text, for exercising [parseConfig]. *)
Definition sampleParse (raw : string) : option value :=
  if String.eqb raw sampleText
  then Some (VObj [("stars", VObj [("depth", VNum 900)])])%string
  else None.

Definition sampleWrapper : HTMLElement :=
  mkHTMLElement [("id", "heroSequenceWrapper"); ("data-motion-config", sampleText)]%string.

(** The entries of [assignments] equal to ring [r], numbered from [i]: what
    the bucket of ring [r] receives from them. *)
Fixpoint members (assignments : list (option Z)) (i : nat) (r : Z) : list nat :=
  match assignments with
  | [] => []
  | q :: rest =>
      match q with
      | Some q' => if Z.eqb q' r then i :: members rest (S i) r else members rest (S i) r
      | None => members rest (S i) r
      end
  end.

(** Four orbit nodes: rings 1 and 2 named, one node without the attribute,
    one more on ring 2. *)
Definition sampleNodes : list (option string) :=
  [Some "1"; Some "2"; None; Some "2"]%string.

(* ================================================================== *)
(** ** Palette sampling (lines 161-167) *)

(** [Math.trunc]: rounding toward zero. *)
Definition Math_trunc (x : R) : Z :=
  if Rle_dec 0 x then Zfloor x else (- Zfloor (- x))%Z.

(** [x % 1]: the remainder keeps the sign of [x]. *)
Definition mod1 (x : R) : R := x - IZR (Math_trunc x).

(** [palette[i]]; [None] is [undefined]. *)
Definition colorAt (palette : list ColorRGB) (i : Z) : option ColorRGB :=
  if (i <? 0)%Z then None else nth_error palette (Z.to_nat i).

(** [samplePaletteColor]; [None] when [lerpColor] reads a channel of
    [undefined] and throws. *)
Definition samplePaletteColor (palette : list ColorRGB) (value : R) : option ColorRGB :=
  let wrapped := mod1 (mod1 value + 1) in
  let last := (Z.of_nat (List.length palette) - 1)%Z in
  let scaled := wrapped * IZR last in
  let index := Math_floor scaled in
  let nextIndex := Z.min last (index + 1) in
  match colorAt palette index, colorAt palette nextIndex with
  | Some a, Some b => Some (lerpColor a b (scaled - IZR index))
  | _, _ => None
  end.

(* ================================================================== *)
(** ** Pointer tracking (lines 1651-1654, 1810-1819) *)

Record Pointer : Type := mkPointer {
  targetMouseX : R;
  targetMouseY : R;
  ptrMouseX : R;
  ptrMouseY : R;
  ptrEnergy : R
}.

(** [let mouseX = 0] and the like. *)
Definition initialPointer : Pointer := mkPointer 0 0 0 0 0.

(** [pointerMove]; [w] and [h] are the current [width] and [height]. *)
Definition pointerMove (w h : R) (p : Pointer) (clientX clientY : R) : Pointer :=
  {| targetMouseX := clamp ((clientX / w - 0.5) * 2) (-1) 1;
     targetMouseY := clamp ((clientY / h - 0.5) * 2) (-1) 1;
     ptrMouseX := ptrMouseX p;
     ptrMouseY := ptrMouseY p;
     ptrEnergy := clamp (ptrEnergy p + 0.035) 0 1 |}.

Definition pointerLeave (p : Pointer) : Pointer :=
  {| targetMouseX := 0;
     targetMouseY := 0;
     ptrMouseX := ptrMouseX p;
     ptrMouseY := ptrMouseY p;
     ptrEnergy := ptrEnergy p |}.

(** The pointer lines of [draw]: the pointer eases toward its target and
    the pointer energy decays. *)
Definition drawPointer (p : Pointer) : Pointer :=
  {| targetMouseX := targetMouseX p;
     targetMouseY := targetMouseY p;
     ptrMouseX := ptrMouseX p + (targetMouseX p - ptrMouseX p) * 0.06;
     ptrMouseY := ptrMouseY p + (targetMouseY p - ptrMouseY p) * 0.06;
     ptrEnergy := Rmax 0 (ptrEnergy p * 0.92 - 0.002) |}.

Inductive PointerEvent : Type :=
  | PointerMoved (w h clientX clientY : R)
  | PointerLeft
  | PointerFrame.

Definition pointerStep (p : Pointer) (ev : PointerEvent) : Pointer :=
  match ev with
  | PointerMoved w h cx cy => pointerMove w h p cx cy
  | PointerLeft => pointerLeave p
  | PointerFrame => drawPointer p
  end.

Definition runPointer (evs : list PointerEvent) : Pointer :=
  fold_left pointerStep evs initialPointer.

(* ================================================================== *)
(** ** Drag spin and tilt (lines 324-336, 1656-1666, 1822-1888) *)

Record Drag : Type := mkDrag {
  spinOffset : R;
  spinVelocity : R;
  tiltOffsetD : R;
  tiltVelocity : R;
  isTouchDragging : bool;
  isMouseDragging : bool;
  touchStartX : R;
  touchStartY : R;
  mouseStartX : R;
  mouseStartY : R
}.

Definition initialDrag : Drag := mkDrag 0 0 0 0 false false 0 0 0 0.

(** The momentum lines of [draw]. *)
Definition drawDrag (d : Drag) : Drag :=
  let sv := spinVelocity d * 0.95 in
  let so := if Rltb 0.0001 (Rabs sv) then spinOffset d + sv else spinOffset d in
  let tv := tiltVelocity d * 0.95 in
  let to1 := if Rltb 0.0001 (Rabs tv) then tiltOffsetD d + tv else tiltOffsetD d in
  let to2 :=
    if negb (isTouchDragging d) && negb (isMouseDragging d)
    then let damped := to1 * 0.97 in
         if Rltb (Rabs damped) 0.001 then 0 else damped
    else to1 in
  {| spinOffset := so;
     spinVelocity := sv;
     tiltOffsetD := to2;
     tiltVelocity := tv;
     isTouchDragging := isTouchDragging d;
     isMouseDragging := isMouseDragging d;
     touchStartX := touchStartX d;
     touchStartY := touchStartY d;
     mouseStartX := mouseStartX d;
     mouseStartY := mouseStartY d |}.

(** [touchStart]; [armed] is [scrollProgress >= config.orbit.start]. *)
Definition touchStart (armed : bool) (d : Drag) (clientX clientY : R) : Drag :=
  if negb armed then d
  else {| spinOffset := spinOffset d;
          spinVelocity := spinVelocity d;
          tiltOffsetD := tiltOffsetD d;
          tiltVelocity := tiltVelocity d;
          isTouchDragging := false;
          isMouseDragging := isMouseDragging d;
          touchStartX := clientX;
          touchStartY := clientY;
          mouseStartX := mouseStartX d;
          mouseStartY := mouseStartY d |}.

Definition touchMove (armed : bool) (d : Drag) (clientX clientY : R) : Drag :=
  if negb armed then d
  else
    let dx := clientX - touchStartX d in
    let dy := clientY - touchStartY d in
    let dragging :=
      if negb (isTouchDragging d) && (Rltb 10 (Rabs dx) || Rltb 10 (Rabs dy))
      then true else isTouchDragging d in
    if dragging
    then
      let spinDelta := dx * 0.004 in
      let tiltDelta := dy * -0.003 in
      {| spinOffset := spinOffset d + spinDelta;
         spinVelocity := spinDelta;
         tiltOffsetD := clamp (tiltOffsetD d + tiltDelta) (-1.2) 1.2;
         tiltVelocity := tiltDelta;
         isTouchDragging := true;
         isMouseDragging := isMouseDragging d;
         touchStartX := clientX;
         touchStartY := clientY;
         mouseStartX := mouseStartX d;
         mouseStartY := mouseStartY d |}
    else d.

Definition touchEnd (d : Drag) : Drag :=
  {| spinOffset := spinOffset d;
     spinVelocity := spinVelocity d;
     tiltOffsetD := tiltOffsetD d;
     tiltVelocity := tiltVelocity d;
     isTouchDragging := false;
     isMouseDragging := isMouseDragging d;
     touchStartX := touchStartX d;
     touchStartY := touchStartY d;
     mouseStartX := mouseStartX d;
     mouseStartY := mouseStartY d |}.

(** [mouseDown]; [onNode] is whether the target sits inside an orbit node. *)
Definition mouseDown (armed onNode : bool) (d : Drag) (clientX clientY : R) : Drag :=
  if negb armed then d
  else if onNode then d
  else {| spinOffset := spinOffset d;
          spinVelocity := spinVelocity d;
          tiltOffsetD := tiltOffsetD d;
          tiltVelocity := tiltVelocity d;
          isTouchDragging := isTouchDragging d;
          isMouseDragging := true;
          touchStartX := touchStartX d;
          touchStartY := touchStartY d;
          mouseStartX := clientX;
          mouseStartY := clientY |}.

Definition mouseMoveHandler (d : Drag) (clientX clientY : R) : Drag :=
  if negb (isMouseDragging d) then d
  else
    let dx := clientX - mouseStartX d in
    let dy := clientY - mouseStartY d in
    let spinDelta := dx * 0.004 in
    let tiltDelta := dy * -0.003 in
    {| spinOffset := spinOffset d + spinDelta;
       spinVelocity := spinDelta;
       tiltOffsetD := clamp (tiltOffsetD d + tiltDelta) (-1.2) 1.2;
       tiltVelocity := tiltDelta;
       isTouchDragging := isTouchDragging d;
       isMouseDragging := true;
       touchStartX := touchStartX d;
       touchStartY := touchStartY d;
       mouseStartX := clientX;
       mouseStartY := clientY |}.

Definition mouseUp (d : Drag) : Drag :=
  if negb (isMouseDragging d) then d
  else {| spinOffset := spinOffset d;
          spinVelocity := spinVelocity d;
          tiltOffsetD := tiltOffsetD d;
          tiltVelocity := tiltVelocity d;
          isTouchDragging := isTouchDragging d;
          isMouseDragging := false;
          touchStartX := touchStartX d;
          touchStartY := touchStartY d;
          mouseStartX := mouseStartX d;
          mouseStartY := mouseStartY d |}.

(** [n] frames in a row. *)
Fixpoint framesDrag (n : nat) (d : Drag) : Drag :=
  match n with
  | O => d
  | S m => framesDrag m (drawDrag d)
  end.

(** A colour with whole-number channels, as the themes have them. *)
Definition colorOfZ (c : Z * Z * Z) : ColorRGB :=
  let '(r, g, b) := c in (IZR r, IZR g, IZR b).

(** The ranges the pointer state is meant to stay in. *)
Definition pointerInRange (p : Pointer) : Prop :=
  -1 <= targetMouseX p <= 1 /\ -1 <= targetMouseY p <= 1
  /\ -1 <= ptrMouseX p <= 1 /\ -1 <= ptrMouseY p <= 1
  /\ 0 <= ptrEnergy p <= 1.

(* ================================================================== *)
(** ** The star-speed signals of [draw] (lines 138-145, 1646-1648,
       1683-1795) *)

Definition speedStages : list R := [1; 6; 18; 42; 100].

(** [speedStages[i]]; [None] is [undefined]. *)
Definition speedAt (i : Z) : option R :=
  if (i <? 0)%Z then None else nth_error speedStages (Z.to_nat i).

(** [clamp] on whole numbers. *)
Definition clampZ (value min max : Z) : Z := Z.min max (Z.max min value).

(** [delta] of a frame drawn at [now] after one drawn at [lastTime]. *)
Definition frameDelta (now lastTime : R) : R :=
  clamp ((now - lastTime) / 16.6667) 0.35 2.4.

(** [intraSlide] and [activeSlideIndex] as [draw] computes them; [count] is
    [slides.length]. *)
Definition drawIntraSlide (count : nat) (slideProgress : R) : R :=
  mod1 (slideProgress * INR count).

Definition drawActiveSlideIndex (count : nat) (slideProgress : R) : Z :=
  Math_floor (clamp slideProgress 0 0.999 * INR count).

Definition baseIdx (count : nat) (slideProgress : R) : Z :=
  clampZ (drawActiveSlideIndex count slideProgress) 0
    (Z.of_nat (List.length speedStages) - 1).

Definition nextIdx (count : nat) (slideProgress : R) : Z :=
  Z.min (baseIdx count slideProgress + 1) (Z.of_nat (List.length speedStages) - 1).

Definition transitionPeak (holdSpeed nextHoldSpeed : R) : R :=
  holdSpeed + (nextHoldSpeed - holdSpeed) * 0.7.

Definition continuousSpeed (holdSpeed nextHoldSpeed intra : R) : R :=
  let peak := transitionPeak holdSpeed nextHoldSpeed in
  if Rltb intra flyInEnd
  then lerp peak holdSpeed (smoothstep 0 flyInEnd intra)
  else if Rltb intra holdEnd
  then holdSpeed
  else lerp holdSpeed peak (smoothstep holdEnd 0.96 intra).

Definition transitionPulse (intra : R) : R :=
  if Rltb intra flyInEnd
  then (1 - smoothstep 0 flyInEnd intra) * 0.5
  else if Rltb holdEnd intra
  then smoothstep holdEnd 1.0 intra
  else 0.

(** [warpStrength] before the orbit reset. *)
Definition introWarp (orbitStart orbitFull scrollProgress : R) : R :=
  let introWarpWindowStart := Rmax (orbitStart - 0.08) 0.4 in
  let introWarpWindowEnd := Rmax (orbitStart - 0.02) (introWarpWindowStart + 0.01) in
  smoothstep introWarpWindowStart introWarpWindowEnd scrollProgress
  * (1 - smoothstep (orbitStart - 0.02) orbitFull scrollProgress).

(** The arguments [draw] hands to [drawStarField]; [None] when a read of
    [speedStages] gives [undefined]. *)
Definition starFieldArgs (cfg : MotionConfig) (count : nat)
  (scrollProgress now lastTime : R) : option FieldArgs :=
  let orbitStart := start (orbit cfg) in
  let orbitFull := full (orbit cfg) in
  let sp := slideProgress (stageBlend orbitStart scrollProgress) in
  let orbitReveal := smoothstep orbitStart orbitFull scrollProgress in
  let intra := drawIntraSlide count sp in
  match speedAt (baseIdx count sp), speedAt (nextIdx count sp) with
  | Some holdSpeed, Some nextHoldSpeed =>
      let stageSpeed :=
        clamp ((continuousSpeed holdSpeed nextHoldSpeed intra - 1) / 99) 0 1 in
      let leverageBoundary := 3 / 4 in
      let transitionBurst :=
        smoothstep (leverageBoundary - 0.04) (leverageBoundary + 0.06) sp in
      let executionBoost := smoothstep (leverageBoundary + 0.05) 0.96 sp in
      let boostedStageSpeed := clamp (stageSpeed + executionBoost * 0.35) 0 1 in
      let sequenceBoost :=
        smoothstep 0.06 0.98 sp
        * (1 - smoothstep (orbitStart - 0.03) (orbitStart + 0.06) scrollProgress)
        * (0.10 + transitionPulse intra * 0.90) in
      let orbitSpeedReset := Rltb 0.1 orbitReveal in
      let warp :=
        if orbitSpeedReset then 0 else introWarp orbitStart orbitFull scrollProgress in
      Some {| delta := frameDelta now lastTime;
              orbitReveal := orbitReveal;
              warpStrength := warp + transitionBurst * 0.7;
              sequenceBoost := sequenceBoost;
              stageSpeedNormalized := if orbitSpeedReset then 0 else boostedStageSpeed;
              orbitDampen :=
                1 - smoothstep (orbitStart - 0.02) (orbitStart + 0.04) scrollProgress |}
  | _, _ => None
  end.

(** What [createStars] promises of a new star, for samples in [[0, 1)]. *)
Definition freshStar (depth spread : R) (s : Star) : Prop :=
  - spread <= Star.x s <= spread
  /\ - (spread * 0.68) <= Star.y s <= spread * 0.68
  /\ 1 <= Star.z s <= depth + 1
  /\ 0.45 <= Star.size s < 1.65
  /\ 0 <= Star.tint s < 1
  /\ Star.prevX s = 0 /\ Star.prevY s = 0
  /\ Star.initialized s = false
  /\ 0 <= Star.rotation s < 2 * PI.

(** What holds of every star once a frame has been drawn. *)
Definition settledStar (sc : Scene) (s : Star) : Prop :=
  (Star.z s = depth (stars (config sc)) \/ 1 < Star.z s)
  /\ (Star.initialized s = true ->
        (Star.prevX s, Star.prevY s) = project sc s
        /\ -120 <= Star.prevX s <= width sc + 120
        /\ -120 <= Star.prevY s <= height sc + 120).

(* ================================================================== *)
(** ** Spoke pulses (lines 360-377, 983-1024) *)

Record SpokePulse : Type := mkSpokePulse {
  progress : R;
  pulseSpeed : R;
  baseOpacity : R
}.

(** The inner loop of [initSpokePulses], from pulse [j] on: two samples per
    pulse. *)
Fixpoint makePulses (count todo j : nat) (rnd : Random) (k : nat)
  : list SpokePulse * nat :=
  match todo with
  | O => ([], k)
  | S todo' =>
      let p := {| progress := INR j / INR count;
                  pulseSpeed := 0.25 + rnd k * 0.12;
                  baseOpacity := 0.6 + rnd (k + 1)%nat * 0.4 |} in
      let '(rest, k') := makePulses count todo' (S j) rnd (k + 2) in
      (p :: rest, k')
  end.

(** [const count = 2 + Math.floor(Math.random() * 2)] *)
Definition pulseCount (rnd : Random) (k : nat) : nat :=
  Z.to_nat (2 + Math_floor (rnd k * 2)).

(** [initSpokePulses] for [nodes] orbit nodes. *)
Fixpoint initSpokePulses (nodes : nat) (rnd : Random) (k : nat)
  : list (list SpokePulse) * nat :=
  match nodes with
  | O => ([], k)
  | S n =>
      let count := pulseCount rnd k in
      let '(pulses, k1) := makePulses count count 0 rnd (k + 1) in
      let '(rest, k2) := initSpokePulses n rnd k1 in
      (pulses :: rest, k2)
  end.

(** Lines 1023-1024: a pulse moves along its spoke and wraps. *)
Definition advancePulse (delta : R) (p : SpokePulse) : SpokePulse :=
  let moved := progress p + pulseSpeed p * delta * 0.016 in
  {| progress := if Rleb 1 moved then moved - 1 else moved;
     pulseSpeed := pulseSpeed p;
     baseOpacity := baseOpacity p |}.

(** What [updateSpokePulses] does to the pulses: nothing without the menu
    or while [orbitReveal <= 0.3], one advance each otherwise. *)
Definition updateSpokePulses (hasMenu : bool) (orbitReveal delta : R)
  (pulses : list (list SpokePulse)) : list (list SpokePulse) :=
  if negb hasMenu || Rleb orbitReveal 0.3 then pulses
  else map (map (advancePulse delta)) pulses.

(** Frames, each with its [orbitReveal] and its [delta] as [draw] clamps
    it from the two time stamps. *)
Fixpoint runPulses (hasMenu : bool) (frames : list (R * R * R))
  (pulses : list (list SpokePulse)) : list (list SpokePulse) :=
  match frames with
  | [] => pulses
  | (reveal, now, lastTime) :: rest =>
      runPulses hasMenu rest
        (updateSpokePulses hasMenu reveal (frameDelta now lastTime) pulses)
  end.

Definition pulseInRange (p : SpokePulse) : Prop :=
  0 <= progress p < 1 /\ 0.25 <= pulseSpeed p < 0.37
  /\ 0.6 <= baseOpacity p < 1.

(* ================================================================== *)
(** ** Node positions (lines 697-714) *)

(** The closure variables [getTiltedNodePos] reads. *)
Record OrbitView : Type := mkOrbitView {
  viewMobile : bool;
  viewWidth : R;
  viewHeight : R;
  viewMouseX : R;
  viewMouseY : R;
  viewTilt : R
}.

Record NodePos : Type := mkNodePos {
  posX : R;
  posY : R;
  posDepth : R
}.

(** [depth] is [clamp((tiltedY / radius + 1) * 0.5, 0, 1)]: the quotient is
    that of the source for a radius other than 0; at radius 0 the source
    computes [0 / 0] and the depth is no number. *)
Definition getTiltedNodePos (v : OrbitView) (angle radius ratio cx cy : R) : NodePos :=
  let ox := cos angle * radius in
  let oy := sin angle * radius * 0.3 in
  let oz := sin angle * radius * ratio in
  let cosTilt := cos (viewTilt v) in
  let sinTilt := sin (viewTilt v) in
  let tiltedY := oy * cosTilt - oz * sinTilt in
  let tiltedZ := oy * sinTilt + oz * cosTilt in
  {| posX := cx + ox + viewMouseX v * (if viewMobile v then 4 else 14);
     posY := cy + tiltedZ + viewMouseY v * (if viewMobile v then 3 else 10);
     posDepth := clamp ((tiltedY / radius + 1) * 0.5) 0 1 |}.

(** A desktop view with the pointer at rest and the default tilt. *)
Definition sampleView : OrbitView := mkOrbitView false 1280 720 0 0 0.

(* ================================================================== *)
(** ** [hexToRGB] (lines 68-72) *)

Definition hexDigitValue (c : ascii) : option Z :=
  let n := nat_of_ascii c in
  if ((48 <=? n) && (n <=? 57))%nat then Some (Z.of_nat n - 48)%Z
  else if ((97 <=? n) && (n <=? 102))%nat then Some (Z.of_nat n - 87)%Z
  else if ((65 <=? n) && (n <=? 70))%nat then Some (Z.of_nat n - 55)%Z
  else None.

Fixpoint readHexDigits (s : string) (acc : option Z) : option Z :=
  match s with
  | String c rest =>
      match hexDigitValue c with
      | Some d =>
          readHexDigits rest
            (Some (match acc with Some n => n * 16 + d | None => d end)%Z)
      | None => acc
      end
  | EmptyString => acc
  end.

(** An optional [0x] or [0X] in front of the digits is skipped. *)
Definition stripHexPrefix (s : string) : string :=
  match s with
  | String c0 (String c1 rest) =>
      if Ascii.eqb c0 "0" && (Ascii.eqb c1 "x" || Ascii.eqb c1 "X") then rest else s
  | _ => s
  end.

(** [parseInt(s, 16)]; [None] is [NaN]. *)
Definition parseInt16 (s : string) : option Z :=
  match trimStart s with
  | String c rest =>
      if Ascii.eqb c "-"
      then option_map Z.opp (readHexDigits (stripHexPrefix rest) None)
      else if Ascii.eqb c "+"
      then readHexDigits (stripHexPrefix rest) None
      else readHexDigits (stripHexPrefix (String c rest)) None
  | EmptyString => None
  end.

(** [s.slice(from, to)] for indices that are not negative. *)
Definition slice (s : string) (from to : nat) : string :=
  substring from (to - from) s.

Definition hexToRGB (hex : string) : option Z * option Z * option Z :=
  (parseInt16 (slice hex 1 3), parseInt16 (slice hex 3 5), parseInt16 (slice hex 5 7)).

(** A colour written as [#] and six hexadecimal digits. *)
Definition hexColor (c1 c2 c3 c4 c5 c6 : ascii) : string :=
  String "#"%char (String c1 (String c2 (String c3 (String c4
    (String c5 (String c6 EmptyString)))))).

(* ================================================================== *)
(** ** The triangle mesh of the globe (lines 380-430) *)

Definition Vec3 : Type := (R * R * R)%type.

Definition normalize3 (v : Vec3) : Vec3 :=
  let '(v0, v1, v2) := v in
  let len := sqrt (v0 * v0 + v1 * v1 + v2 * v2) in
  (v0 / len, v1 / len, v2 / len).

Definition midpoint3 (a b : Vec3) : Vec3 :=
  let '(a0, a1, a2) := a in
  let '(b0, b1, b2) := b in
  normalize3 ((a0 + b0) * 0.5, (a1 + b1) * 0.5, (a2 + b2) * 0.5).

Definition phi : R := (1 + sqrt 5) / 2.

Definition baseVerts : list Vec3 :=
  map normalize3
    [ (-1, phi, 0); (1, phi, 0); (-1, - phi, 0); (1, - phi, 0);
      (0, -1, phi); (0, 1, phi); (0, -1, - phi); (0, 1, - phi);
      (phi, 0, -1); (phi, 0, 1); (- phi, 0, -1); (- phi, 0, 1) ].

Definition Face : Type := (nat * nat * nat)%type.

Definition baseFaces : list Face :=
  [ (0, 11, 5); (0, 5, 1); (0, 1, 7); (0, 7, 10); (0, 10, 11);
    (1, 5, 9); (5, 11, 4); (11, 10, 2); (10, 7, 6); (7, 1, 8);
    (3, 9, 4); (3, 4, 2); (3, 2, 6); (3, 6, 8); (3, 8, 9);
    (4, 9, 5); (2, 4, 11); (6, 2, 10); (8, 6, 7); (9, 8, 1) ]%nat.

(** The key of [midCache]: the two indices, smaller first (the source joins
    them into one string with an underscore). *)
Definition edgeKey (a b : nat) : nat * nat :=
  if (a <? b)%nat then (a, b) else (b, a).

Definition MidCache : Type := list ((nat * nat) * nat).

Fixpoint cacheGet (cache : MidCache) (key : nat * nat) : option nat :=
  match cache with
  | [] => None
  | (k, idx) :: rest =>
      if (Nat.eqb (fst k) (fst key) && Nat.eqb (snd k) (snd key))%bool
      then Some idx else cacheGet rest key
  end.

(** [getMid]: the index of the midpoint of an edge, made on first use;
    [None] when [verts[a]] or [verts[b]] is [undefined] and [midpoint3]
    throws. *)
Definition getMid (verts : list Vec3) (cache : MidCache) (a b : nat)
  : option (nat * list Vec3 * MidCache) :=
  let key := edgeKey a b in
  match cacheGet cache key with
  | Some idx => Some (idx, verts, cache)
  | None =>
      match nth_error verts a, nth_error verts b with
      | Some va, Some vb =>
          let idx := List.length verts in
          Some (idx, verts ++ [midpoint3 va vb], (key, idx) :: cache)
      | _, _ => None
      end
  end.

(** One turn of [for (const [a, b, c] of triFaces)]. *)
Definition splitFace (verts : list Vec3) (cache : MidCache) (newFaces : list Face)
  (f : Face) : option (list Vec3 * MidCache * list Face) :=
  let '(a, b, c) := f in
  match getMid verts cache a b with
  | Some (ab, verts1, cache1) =>
      match getMid verts1 cache1 b c with
      | Some (bc, verts2, cache2) =>
          match getMid verts2 cache2 c a with
          | Some (ca, verts3, cache3) =>
              Some (verts3, cache3,
                    newFaces ++ [(a, ab, ca); (b, bc, ab); (c, ca, bc); (ab, bc, ca)])
          | None => None
          end
      | None => None
      end
  | None => None
  end.

Fixpoint splitFaces (verts : list Vec3) (cache : MidCache) (newFaces : list Face)
  (faces : list Face) : option (list Vec3 * MidCache * list Face) :=
  match faces with
  | [] => Some (verts, cache, newFaces)
  | f :: rest =>
      match splitFace verts cache newFaces f with
      | Some (verts', cache', newFaces') => splitFaces verts' cache' newFaces' rest
      | None => None
      end
  end.

(** The [for (let s = 0; s < subdivisions; s++)] loop. *)
Fixpoint subdivide (subdivisions : nat) (verts : list Vec3) (triFaces : list Face)
  : option (list Vec3 * list Face) :=
  match subdivisions with
  | O => Some (verts, triFaces)
  | S n =>
      match splitFaces verts [] [] triFaces with
      | Some (verts', _, newFaces) => subdivide n verts' newFaces
      | None => None
      end
  end.

(** Step 1 of [generateHexGlobe]. *)
Definition icosphere (subdivisions : nat) : option (list Vec3 * list Face) :=
  subdivide subdivisions baseVerts baseFaces.

(** Every corner of a face is an index into [verts]. *)
Definition faceInBounds (n : nat) (f : Face) : Prop :=
  let '(a, b, c) := f in (a < n /\ b < n /\ c < n)%nat.

Definition cacheInBounds (n : nat) (cache : MidCache) : Prop :=
  Forall (fun e : (nat * nat) * nat => (snd e < n)%nat) cache.

(* ================================================================== *)
(** ** [resize] (lines 880-893) *)

(** [window.devicePixelRatio || 1]: zero is falsy. *)
Definition orOne (x : R) : R := if Req_dec_T x 0 then 1 else x.

Record Resized : Type := mkResized {
  resizedScene : Scene;
  resizedDpr : R;
  canvasWidth : Z;
  canvasHeight : Z;
  resizedPool : list Star;
  resizedSamples : nat
}.

(** [resize]: the viewport is measured, the canvas sized and the star pool
    rebuilt. *)
Definition resize (sc : Scene) (innerWidth innerHeight devicePixelRatio : R)
  (rnd : Random) (k : nat) : Resized :=
  let w := Rmax innerWidth 1 in
  let h := Rmax innerHeight 1 in
  let dpr := Rmin (orOne devicePixelRatio) 2 in
  let measured :=
    {| width := w; height := h; isMobile := Rltb w 900;
       lowPowerDevice := lowPowerDevice sc; reduceMotion := reduceMotion sc;
       vStampReady := vStampReady sc; spread := spread sc;
       mouseX := mouseX sc; mouseY := mouseY sc;
       scrollEnergy := scrollEnergy sc; pointerEnergy := pointerEnergy sc;
       config := config sc |} in
  let '(spread', pool, k') := rebuildStars measured rnd k in
  {| resizedScene :=
       {| width := w; height := h; isMobile := Rltb w 900;
          lowPowerDevice := lowPowerDevice sc; reduceMotion := reduceMotion sc;
          vStampReady := vStampReady sc; spread := spread';
          mouseX := mouseX sc; mouseY := mouseY sc;
          scrollEnergy := scrollEnergy sc; pointerEnergy := pointerEnergy sc;
          config := config sc |};
     resizedDpr := dpr;
     canvasWidth := Math_floor (w * dpr);
     canvasHeight := Math_floor (h * dpr);
     resizedPool := pool;
     resizedSamples := k' |}.

(* ================================================================== *)
(** ** The breathing globe and the pointer on it (lines 1117-1199,
       1338-1365) *)

(** [rotY] and [tiltX] of [drawHexGlobe]. *)
Definition globeRotY (reduce : bool) (orbitT scrollProgress spin : R) : R :=
  - ((if reduce then scrollProgress * PI * 2 else orbitT * 0.17)
     + scrollProgress * PI * 0.55 + spin).

Definition globeTiltX (tilt : R) : R := 0.3 + tilt.

(** [globeBreathTarget] at [nowSeconds]. *)
Definition breathTarget (nowSeconds : R) : R :=
  let breathA := sin (nowSeconds * 0.8) * 0.5 + 0.5 in
  let breathB := sin (nowSeconds * 1.9) * 0.5 + 0.5 in
  let breathMix := breathA * 0.75 + breathB * 0.25 in
  0.80 + breathMix * 0.25.

(** The update of [globeBreathCurrent] in one call of [drawHexGlobe];
    [ready] is whether the planet canvas and its context exist. *)
Definition breathStep (ready : bool) (current orbitReveal nowSeconds : R) : R :=
  if negb ready || Rleb orbitReveal 0.02 then current
  else current + (breathTarget nowSeconds - current) * 0.08.

(** Calls of [drawHexGlobe], each with its [orbitReveal] and time, from
    [let globeBreathCurrent = 1.0]. *)
Definition runBreath (ready : bool) (frames : list (R * R)) : R :=
  fold_left (fun current f => breathStep ready current (fst f) (snd f)) frames 1.0.

(** How a point of the unit sphere is turned before it is drawn: the
    horizontal screen direction [fx], the depth [fy] and the vertical
    screen direction [fz] (lines 1358-1362). *)
Definition projectCorner (rotY tiltX : R) (c : Vec3) : R * R * R :=
  let '(cx, cy, cz) := c in
  let rx := cx * cos rotY + cy * sin rotY in
  let ry := - cx * sin rotY + cy * cos rotY in
  (rx, ry * cos tiltX - cz * sin tiltX, ry * sin tiltX + cz * cos tiltX).

(** The direction stored in [globeMouseNx], [globeMouseNy], [globeMouseNz]
    for a pointer at screen direction [(fx, fz)] (lines 1179-1193); [None]
    when the pointer is off the globe and nothing is stored. *)
Definition unprojectPointer (rotY tiltX fx fz : R) : option Vec3 :=
  let fSq := fx * fx + fz * fz in
  if Rltb fSq 1.0
  then
    let fy := sqrt (Rmax 0 (1 - fSq)) in
    let ry := fz * sin tiltX + fy * cos tiltX in
    let wcz := fz * cos tiltX - fy * sin tiltX in
    Some (fx * cos rotY + ry * sin rotY, - fx * sin rotY + ry * cos rotY, wcz)
  else None.

(* ================================================================== *)
(** ** Particles of the energy core (lines 504-577, 1244-1282) *)

Record CoreParticle : Type := mkCoreParticle {
  cpX : R;
  cpY : R;
  cpZ : R;
  cpVx : R;
  cpVy : R;
  cpVz : R;
  cpSize : R;
  cpBrightness : R;
  cpHue : Z;
  cpLife : R;
  cpMaxLife : R;
  cpLayer : Z
}.

(** The position, look and sample count of a particle of [layer], with
    samples taken from [k] on. *)
Definition placeParticle (layer : Z) (rnd : Random) (k : nat)
  : R * R * R * (R * R * Z) * nat :=
  if (layer =? 0)%Z then
    let a := rnd k * PI * 2 in
    let spread := 0.05 + rnd (k + 1)%nat * 0.2 in
    (cos a * spread, (rnd (k + 2)%nat - 0.5) * 0.3, sin a * spread,
     (0.8 + rnd (k + 3)%nat * 1.5, 0.7 + rnd (k + 4)%nat * 0.3,
      if Rltb (rnd (k + 5)%nat) 0.3 then 2%Z else 0%Z),
     (k + 6)%nat)
  else if (layer =? 1)%Z then
    let a := rnd k * PI * 2 in
    let spread := 0.2 + rnd (k + 1)%nat * 0.35 in
    (cos a * spread, (rnd (k + 2)%nat - 0.5) * 0.5, sin a * spread,
     (0.5 + rnd (k + 3)%nat * 1.2, 0.5 + rnd (k + 4)%nat * 0.4,
      if Rltb (rnd (k + 5)%nat) 0.5 then 1%Z else 0%Z),
     (k + 6)%nat)
  else
    let a := rnd k * PI * 2 in
    let elev := (rnd (k + 1)%nat - 0.5) * PI in
    let spread := 0.4 + rnd (k + 2)%nat * 0.45 in
    (cos a * cos elev * spread, sin elev * spread, sin a * cos elev * spread,
     (0.3 + rnd (k + 3)%nat * 0.8, 0.3 + rnd (k + 4)%nat * 0.3, 0%Z),
     (k + 5)%nat).

Definition initCoreParticle (p : CoreParticle) (respawn : bool) (rnd : Random) (k : nat)
  : CoreParticle * nat :=
  let '(layer, k1) :=
    if respawn then (cpLayer p, k) else (Math_floor (rnd k * 3), S k) in
  let '(life, k2) := if respawn then (0, k1) else (rnd k1, S k1) in
  let maxLife := 0.6 + rnd k2 * 0.8 in
  let '(x, y, z, (size, brightness, hue), k4) := placeParticle layer rnd (S k2) in
  let speed :=
    if (layer =? 0)%Z then 0.015 else if (layer =? 1)%Z then 0.008 else 0.003 in
  ({| cpX := x; cpY := y; cpZ := z;
      cpVx := - z * speed + (rnd k4 - 0.5) * 0.002;
      cpVy := (rnd (k4 + 1)%nat - 0.5) * 0.003 + 0.001;
      cpVz := x * speed + (rnd (k4 + 2)%nat - 0.5) * 0.002;
      cpSize := size; cpBrightness := brightness; cpHue := hue;
      cpLife := life; cpMaxLife := maxLife; cpLayer := layer |},
   (k4 + 3)%nat).

(** The object literal [initEnergyCoreParticles] starts every particle
    from. *)
Definition blankParticle : CoreParticle :=
  mkCoreParticle 0 0 0 0 0 0 1 1 0 0 1 0.

Fixpoint initEnergyCoreParticles (count : nat) (rnd : Random) (k : nat)
  : list CoreParticle * nat :=
  match count with
  | O => ([], k)
  | S n =>
      let '(p, k1) := initCoreParticle blankParticle false rnd k in
      let '(rest, k2) := initEnergyCoreParticles n rnd k1 in
      (p :: rest, k2)
  end.

(** What one frame does to a particle (lines 1253-1282); [mx] and [my] are
    [mouseX] and [mouseY]. *)
Definition updateCoreParticle (reduce : bool) (mx my : R) (p : CoreParticle)
  (rnd : Random) (k : nat) : CoreParticle * nat :=
  let delta16 := if reduce then 0.5 else 1 in
  let life := cpLife p + delta16 * 0.006 / cpMaxLife p in
  if Rleb 1 life
  then initCoreParticle
         (mkCoreParticle (cpX p) (cpY p) (cpZ p) (cpVx p) (cpVy p) (cpVz p)
            (cpSize p) (cpBrightness p) (cpHue p) life (cpMaxLife p) (cpLayer p))
         true rnd k
  else
    let swirlSpeed :=
      if (cpLayer p =? 0)%Z then 0.03
      else if (cpLayer p =? 1)%Z then 0.015 else 0.005 in
    let cosS := cos (swirlSpeed * delta16) in
    let sinS := sin (swirlSpeed * delta16) in
    let x1 := cpX p * cosS - cpZ p * sinS in
    let z1 := cpX p * sinS + cpZ p * cosS in
    let pushDist := sqrt (x1 * x1 + z1 * z1) + 0.01 in
    let x2 := x1 + (cpVx p * delta16 + mx * 0.15 * 0.003 / pushDist) in
    let y2 := cpY p + (cpVy p * delta16 + my * 0.15 * 0.003 / pushDist) in
    let z2 := z1 + cpVz p * delta16 in
    let dist := sqrt (x2 * x2 + y2 * y2 + z2 * z2) in
    let maxDist :=
      if (cpLayer p =? 0)%Z then 0.3
      else if (cpLayer p =? 1)%Z then 0.55 else 0.85 in
    let pull := (dist - maxDist) * 0.025 in
    let '(x3, y3, z3) :=
      if Rltb maxDist dist
      then (x2 - x2 / dist * pull, y2 - y2 / dist * pull, z2 - z2 / dist * pull)
      else (x2, y2, z2) in
    (mkCoreParticle x3 y3 z3 (cpVx p) (cpVy p) (cpVz p)
       (cpSize p) (cpBrightness p) (cpHue p) life (cpMaxLife p) (cpLayer p),
     k).

Fixpoint updateCoreParticles (reduce : bool) (mx my : R) (ps : list CoreParticle)
  (rnd : Random) (k : nat) : list CoreParticle * nat :=
  match ps with
  | [] => ([], k)
  | p :: rest =>
      let '(p', k1) := updateCoreParticle reduce mx my p rnd k in
      let '(rest', k2) := updateCoreParticles reduce mx my rest rnd k1 in
      (p' :: rest', k2)
  end.

(** [n] frames of particle updates. *)
Fixpoint runCoreParticles (n : nat) (reduce : bool) (mx my : R)
  (ps : list CoreParticle) (rnd : Random) (k : nat) : list CoreParticle * nat :=
  match n with
  | O => (ps, k)
  | S m =>
      let '(ps', k1) := updateCoreParticles reduce mx my ps rnd k in
      runCoreParticles m reduce mx my ps' rnd k1
  end.

(** What the drawing code relies on: [layer] and [hue] index the three
    layers and the three [hueColors], the life is in [[0, 1)] and the
    divisor [maxLife] is in [[0.6, 1.4)]. *)
Definition liveParticle (p : CoreParticle) : Prop :=
  (0 <= cpLayer p <= 2)%Z /\ (0 <= cpHue p <= 2)%Z
  /\ 0 <= cpLife p < 1 /\ 0.6 <= cpMaxLife p < 1.4.

Definition insideUnitSphere (p : CoreParticle) : Prop :=
  cpX p * cpX p + cpY p * cpY p + cpZ p * cpZ p < 1.
(* ################################################################## *)
(** * Properties *)

(** ** Bounds of the numeric helpers *)

Lemma clamp_bounds (v lo hi : R) : lo <= hi -> lo <= clamp v lo hi <= hi.
Proof.
  intros Hle. unfold clamp, Rmin, Rmax.
  destruct (Rle_dec lo v); destruct (Rle_dec hi _); lra.
Qed.

Lemma clamp_inside (v lo hi : R) : lo <= v <= hi -> clamp v lo hi = v.
Proof.
  intros Hv. unfold clamp, Rmin, Rmax.
  destruct (Rle_dec lo v); destruct (Rle_dec hi _); lra.
Qed.

Lemma clamp_below (v lo hi : R) : lo <= hi -> v <= lo -> clamp v lo hi = lo.
Proof.
  intros Hle Hv. unfold clamp, Rmin, Rmax.
  destruct (Rle_dec lo v); destruct (Rle_dec hi _); lra.
Qed.

Lemma clamp_above (v lo hi : R) : lo <= hi -> hi <= v -> clamp v lo hi = hi.
Proof.
  intros Hle Hv. unfold clamp, Rmin, Rmax.
  destruct (Rle_dec lo v); destruct (Rle_dec hi _); lra.
Qed.

Lemma Rltb_true (a b : R) : Rltb a b = true <-> a < b.
Proof. unfold Rltb. destruct (Rlt_dec a b); split; intros; try easy. Qed.

Lemma Rltb_false (a b : R) : Rltb a b = false <-> b <= a.
Proof.
  unfold Rltb. destruct (Rlt_dec a b); split; intros; try easy; lra.
Qed.

Lemma Rleb_true (a b : R) : Rleb a b = true <-> a <= b.
Proof. unfold Rleb. destruct (Rle_dec a b); split; intros; try easy. Qed.

Lemma Rleb_false (a b : R) : Rleb a b = false <-> b < a.
Proof.
  unfold Rleb. destruct (Rle_dec a b); split; intros; try easy; lra.
Qed.

Lemma Math_floor_eq (z : Z) (x : R) : IZR z <= x < IZR z + 1 -> Math_floor x = z.
Proof. apply Zfloor_eq. Qed.

Lemma Math_floor_range (x : R) (lo hi : Z) :
  IZR lo <= x -> x < IZR hi + 1 -> (lo <= Math_floor x <= hi)%Z.
Proof.
  intros Hlo Hhi. unfold Math_floor.
  pose proof (Zfloor_bound x) as [Hb1 Hb2].
  split.
  - now apply Zfloor_lub.
  - assert (IZR (Zfloor x) < IZR (hi + 1)) as Hlt by (rewrite plus_IZR; lra).
    apply lt_IZR in Hlt. lia.
Qed.

(* ================================================================== *)
(** ** Scroll energy *)

Lemma energyIncrement_range (v : R) : 0 <= energyIncrement v <= 1.
Proof. unfold energyIncrement. apply clamp_bounds. lra. Qed.

Lemma drawEnergy_range (e : R) : 0 <= e <= 2 -> 0 <= drawEnergy e <= 2.
Proof.
  intros He. unfold drawEnergy, Rmax.
  destruct (Rle_dec 0 _); lra.
Qed.

Lemma onUpdate_range (rm : bool) (e v : R) : 0 <= onUpdate rm e v <= 2.
Proof.
  unfold onUpdate.
  assert (0 <= clamp (e + energyIncrement v) 0 2 <= 2) as Hc
    by (apply clamp_bounds; lra).
  destruct rm; [now apply drawEnergy_range | exact Hc].
Qed.

Lemma energyStep_range (rm : bool) (e : R) (ev : EnergyEvent) :
  0 <= e <= 2 -> 0 <= energyStep rm e ev <= 2.
Proof.
  intros He. destruct ev as [v|]; simpl.
  - apply onUpdate_range.
  - now apply drawEnergy_range.
Qed.

Lemma fold_energy_range (rm : bool) (evs : list EnergyEvent) :
  forall e, 0 <= e <= 2 -> 0 <= fold_left (energyStep rm) evs e <= 2.
Proof.
  induction evs as [|ev evs IH]; intros e He; simpl.
  - exact He.
  - apply IH. now apply energyStep_range.
Qed.

(** C7. [scrollEnergy] stays in [[0, 2]]: it starts at 0, every scroll
    update adds an increment between 0 and 1 and clamps the sum to [[0, 2]],
    every frame replaces it by [max(0, e * 0.94 - 0.002)], and after any
    sequence of updates and frames, with or without reduced motion, the
    value is still between 0 and 2. *)
Theorem scrollEnergy_stays_in_range :
  forall (rm : bool) (evs : list EnergyEvent),
    (forall v, 0 <= energyIncrement v <= 1)
    /\ (forall e v, onUpdate false e v = clamp (e + energyIncrement v) 0 2)
    /\ (forall e, drawEnergy e = Rmax 0 (e * 0.94 - 0.002))
    /\ 0 <= runEnergy rm evs <= 2.
Proof.
  intros rm evs. repeat split; try reflexivity.
  - apply energyIncrement_range.
  - apply energyIncrement_range.
  - apply (fold_energy_range rm evs 0). lra.
  - apply (fold_energy_range rm evs 0). lra.
Qed.

(* ================================================================== *)
(** ** Orbit clock *)

Lemma getOrbitTime_paused (c : OrbitClock) (now : R) :
  orbitPaused c = true ->
  getOrbitTime c now = pauseStartTime c - pauseTimeOffset c.
Proof. intros Hp. unfold getOrbitTime. rewrite Hp. lra. Qed.

Lemma getOrbitTime_running (c : OrbitClock) (now : R) :
  orbitPaused c = false ->
  getOrbitTime c now = now - pauseTimeOffset c.
Proof. intros Hp. unfold getOrbitTime. now rewrite Hp. Qed.

(** C5. While the orbit is paused, [getOrbitTime] is
    [pauseStartTime - pauseTimeOffset] whatever [now] is, so the time-driven
    term of [computeBaseSpin] is the same at any two instants; and when a
    running clock is paused at [t0] and resumed at [t1], the orbit time at
    the resume equals the orbit time at the pause, which is also the value
    shown all through the pause. *)
Theorem orbit_time_frozen_while_paused :
  (forall c now, orbitPaused c = true ->
     getOrbitTime c now = pauseStartTime c - pauseTimeOffset c)
  /\ (forall c i now1 now2 speedMul, orbitPaused c = true ->
        baseRate c i now1 speedMul = baseRate c i now2 speedMul)
  /\ (forall c t0 t1 now, orbitPaused c = false ->
        let paused := pauseOrbit c t0 in
        let resumed := resumeOrbit paused t1 in
        orbitPaused paused = true
        /\ getOrbitTime paused now = getOrbitTime c t0
        /\ orbitPaused resumed = false
        /\ getOrbitTime resumed t1 = getOrbitTime c t0).
Proof.
  split; [|split].
  - intros c now Hp. now apply getOrbitTime_paused.
  - intros c i now1 now2 speedMul Hp. unfold baseRate.
    now rewrite !getOrbitTime_paused.
  - intros c t0 t1 now Hrun. unfold pauseOrbit, resumeOrbit.
    rewrite Hrun. cbn. unfold getOrbitTime. rewrite Hrun. cbn.
    repeat split; lra.
Qed.

(** A clock that has already been paused once, paused again at 12 s and
    resumed at 20 s: the orbit time is 9 s at both ends. *)
Lemma orbit_time_frozen_witness :
  getOrbitTime (pauseOrbit (mkOrbitClock false 3 1) 12) 15
  = pauseStartTime (pauseOrbit (mkOrbitClock false 3 1) 12)
    - pauseTimeOffset (pauseOrbit (mkOrbitClock false 3 1) 12)
  /\ getOrbitTime (resumeOrbit (pauseOrbit (mkOrbitClock false 3 1) 12) 20) 20
     = getOrbitTime (mkOrbitClock false 3 1) 12.
Proof.
  destruct orbit_time_frozen_while_paused as [Hfrozen [_ Hresume]].
  split.
  - apply Hfrozen. reflexivity.
  - apply (Hresume (mkOrbitClock false 3 1) 12 20 15). reflexivity.
Defined.

(* ================================================================== *)
(** ** Stage blend *)

Lemma lastStage_is_2 : lastStage = 2%Z.
Proof. reflexivity. Qed.

Lemma slideProgress_range (orbitStart scrollProgress : R) :
  0 <= slideProgress (stageBlend orbitStart scrollProgress) <= 1.
Proof.
  unfold stageBlend. cbn [slideProgress]. apply clamp_bounds. lra.
Qed.

Lemma stageValue_is_double (orbitStart scrollProgress : R) :
  let b := stageBlend orbitStart scrollProgress in
  stageLower b = Math_floor (slideProgress b * 2)
  /\ stageMix b = slideProgress b * 2 - IZR (stageLower b).
Proof.
  unfold stageBlend. cbn [slideProgress stageLower stageMix].
  rewrite lastStage_is_2.
  replace (Rmax 2 1) with 2 by (unfold Rmax; destruct (Rle_dec 2 1); lra).
  split; reflexivity.
Qed.

Lemma themeAt_defined (i : Z) :
  (0 <= i <= 2)%Z -> exists theme, themeAt i = Some theme.
Proof.
  intros Hi.
  assert (i = 0 \/ i = 1 \/ i = 2)%Z as [-> | [-> | ->]] by lia;
    cbn; eexists; reflexivity.
Qed.

(** C6. Whatever the scroll progress (and the configured orbit start),
    [stageLower] is 0, 1 or 2, [stageUpper] is [min(2, stageLower + 1)],
    [stageMix] lies between 0 and 1, both theme reads of [draw] find a theme
    of [stageThemes], and the frame blends exactly those two. *)
Theorem stage_blend_uses_valid_stages :
  forall orbitStart scrollProgress : R,
    let b := stageBlend orbitStart scrollProgress in
    List.length stageThemes = 3%nat
    /\ stageLower b = Math_floor (slideProgress b * IZR (Z.of_nat (List.length stageThemes) - 1))
    /\ (stageLower b = 0 \/ stageLower b = 1 \/ stageLower b = 2)%Z
    /\ stageUpper b = Z.min 2 (stageLower b + 1)
    /\ 0 <= stageMix b <= 1
    /\ exists themeA themeB,
         themeAt (stageLower b) = Some themeA
         /\ themeAt (stageUpper b) = Some themeB
         /\ drawStage orbitStart scrollProgress
            = Some (drawAtmosphere themeA themeB (stageMix b), palette themeB).
Proof.
  intros orbitStart scrollProgress b.
  pose proof (slideProgress_range orbitStart scrollProgress) as Hsp.
  pose proof (stageValue_is_double orbitStart scrollProgress) as [Hlo Hmix].
  fold b in Hsp, Hlo, Hmix.
  assert (0 <= stageLower b <= 2)%Z as Hrange.
  { rewrite Hlo. apply Math_floor_range.
    - change (IZR 0) with 0. lra.
    - change (IZR 2) with 2. lra. }
  assert (stageUpper b = Z.min 2 (stageLower b + 1)) as Hup by reflexivity.
  split; [reflexivity|].
  split; [exact Hlo|].
  split; [lia|].
  split; [exact Hup|].
  split.
  - rewrite Hmix, Hlo. unfold Math_floor.
    pose proof (Zfloor_bound (slideProgress b * 2)). lra.
  - destruct (themeAt_defined (stageLower b) Hrange) as [themeA HA].
    destruct (themeAt_defined (stageUpper b)) as [themeB HB]; [lia|].
    exists themeA, themeB. repeat split; try assumption.
    unfold drawStage. fold b. now rewrite HA, HB.
Qed.

(* ================================================================== *)
(** ** Size of the star pool *)

Lemma createStars_length (count : nat) (depth spread : R) (rnd : Random) :
  forall k, List.length (fst (createStars count depth spread rnd k)) = count.
Proof.
  induction count as [|n IH]; intros k; simpl.
  - reflexivity.
  - specialize (IH (k + 7)%nat).
    destruct (createStars n depth spread rnd (k + 7)) as [rest k'].
    simpl in *. now rewrite IH.
Qed.

Lemma Math_round_zero : Math_round 0 = 0%Z.
Proof. unfold Math_round. apply Zfloor_eq. simpl. lra. Qed.

(** C10. For every scene (configuration, viewport size, device class)
    [rebuildStars] builds a pool of exactly
    [max(220, round(configuredCount * powerMultiplier))] stars, which is at
    least 220; with both configured counts 0 the pool has 220 stars. *)
Theorem rebuildStars_at_least_220 :
  forall (sc : Scene) (rnd : Random) (k : nat),
    let pool := snd (fst (rebuildStars sc rnd k)) in
    let configuredCount :=
      if isMobile sc then mobileCount (stars (config sc))
      else desktopCount (stars (config sc)) in
    let powerMultiplier := if lowPowerDevice sc then 0.62 else 1 in
    Z.of_nat (List.length pool)
      = Z.max 220 (Math_round (configuredCount * powerMultiplier))
    /\ (220 <= List.length pool)%nat
    /\ (configuredCount = 0 -> List.length pool = 220%nat).
Proof.
  intros sc rnd k pool configuredCount powerMultiplier.
  assert (List.length pool = Z.to_nat (finalCount sc)) as Hlen.
  { unfold pool, rebuildStars.
    pose proof (createStars_length (Z.to_nat (finalCount sc))
                  (depth (stars (config sc)))
                  (Rmax (width sc) (height sc) * 1.55) rnd k) as H.
    destruct (createStars _ _ _ rnd k) as [p k']. exact H. }
  assert (finalCount sc = Z.max 220 (Math_round (configuredCount * powerMultiplier)))
    as Hfc by reflexivity.
  split; [|split].
  - rewrite Hlen, Hfc. lia.
  - rewrite Hlen, Hfc. lia.
  - intros H0. rewrite Hlen, Hfc, H0, Rmult_0_l, Math_round_zero. reflexivity.
Qed.

(** A desktop scene on a low-power device whose configuration asks for no
    stars at all still gets 220. *)
Lemma rebuildStars_zero_count_witness :
  List.length
    (snd (fst (rebuildStars
       (mkScene 1280 720 false true false false 1600 0 0 0 0
          (mkMotionConfig 520 470 (animation defaultConfig)
             (mkStarsConfig 0 0 1600 0.28 5.1) (orbit defaultConfig)))
       (fun _ => / 2) 0)))
  = 220%nat.
Proof.
  apply rebuildStars_at_least_220. reflexivity.
Defined.

(* ================================================================== *)
(** ** Title cards: the phases of the active slide *)

Lemma scaledProgress_range (count : nat) (progress : R) :
  0 <= scaledProgress count progress <= 0.999 * INR count.
Proof.
  unfold scaledProgress.
  pose proof (clamp_bounds progress 0 0.999) as Hc.
  pose proof (pos_INR count) as Hn.
  assert (0 <= clamp progress 0 0.999 <= 0.999) as [H1 H2] by (apply Hc; lra).
  split; [apply Rmult_le_pos; assumption|].
  apply Rmult_le_compat_r; assumption.
Qed.

Lemma intraSlide_range (count : nat) (progress : R) :
  0 <= intraSlide count progress < 1.
Proof.
  unfold intraSlide, activeIndex, Math_floor.
  pose proof (Zfloor_bound (scaledProgress count progress)). lra.
Qed.

Lemma activeIndex_range (count : nat) (progress : R) :
  (0 < count)%nat ->
  (0 <= activeIndex count progress <= Z.of_nat count - 1)%Z.
Proof.
  intros Hpos. unfold activeIndex.
  pose proof (scaledProgress_range count progress) as [H1 H2].
  assert (0 < INR count) as Hn by (apply lt_0_INR; exact Hpos).
  apply Math_floor_range.
  - exact H1.
  - rewrite minus_IZR, <- INR_IZR_INZ. lra.
Qed.

Lemma flyIn_eased_range (t : R) :
  0 <= t < 0.15 -> 0 <= t / 0.15 * (2 - t / 0.15) < 1.
Proof.
  intros [H0 H1].
  assert (0 <= t / 0.15 < 1) as [Ha Hb] by (split; lra).
  split; nra.
Qed.

Lemma flyOut_eased_range (ft : R) :
  0 <= ft < 1 -> 0 <= ft * ft * (3 - 2 * ft) < 1.
Proof.
  intros [H0 H1]. split.
  - apply Rmult_le_pos; nra.
  - assert (0 < (1 - ft) * (1 - ft) * (1 + 2 * ft)) by
      (apply Rmult_lt_0_compat; nra).
    nra.
Qed.

Lemma isLastSlide_spec (count index : nat) :
  (index < count)%nat ->
  Z.eqb (Z.of_nat index) (Z.of_nat count - 1) = true <-> index = (count - 1)%nat.
Proof. intros Hlt. rewrite Z.eqb_eq. lia. Qed.

(** The four variables computed for the active slide, phase by phase: a
    slide other than the first flies in while [t < 0.15], holds while
    [0.15 <= t < 0.75], and for every [t >= 0.15] when it is the last slide,
    and otherwise flies out; the first slide holds while [t < 0.75] and then
    flies out. *)
Lemma activePose_phases :
  forall (width : R) (count index : nat) (progress : R),
    (index < count)%nat ->
    Z.of_nat index = activeIndex count progress ->
    let t := intraSlide count progress in
    let p := activePose width count index t in
    let isLast := index = (count - 1)%nat in
    let flyIn :=
      let eased := t / 0.15 * (2 - t / 0.15) in
      0 <= eased < 1
      /\ scale p = lerp 0.25 1 eased
      /\ tx p = lerp (entryTx width) 0 eased
      /\ ty p = lerp (entryTy width) 0 eased
      /\ opacity p = clamp (eased * 1.4) 0 1 in
    let hold := tx p = 0 /\ ty p = 0 /\ scale p = 1 /\ opacity p = 1 in
    let flyOut :=
      let ft := (t - 0.75) / 0.25 in
      let eased := ft * ft * (3 - 2 * ft) in
      0 <= ft < 1 /\ 0 <= eased < 1
      /\ tx p = exitTx width * eased
      /\ ty p = exitTy width * eased
      /\ scale p = lerp 1 3.5 eased
      /\ opacity p = clamp (1 - ft * 2.5) 0 1
      /\ (0.4 <= ft -> opacity p = 0) in
    0 <= t < 1
    /\ slideStyle width count progress index = activeStyle width p
    /\ (index <> 0%nat ->
          (t < 0.15 -> flyIn)
          /\ (0.15 <= t -> t < 0.75 \/ isLast -> hold)
          /\ (0.75 <= t -> ~ isLast -> flyOut))
    /\ (index = 0%nat -> (t < 0.75 -> hold) /\ (0.75 <= t -> flyOut)).
Proof.
  intros width count index progress Hlt Hact t p isLast flyIn hold flyOut.
  pose proof (intraSlide_range count progress) as Ht. fold t in Ht.
  assert (forall q, q = flyOutPose width t -> 0.75 <= t ->
            let ft := (t - 0.75) / 0.25 in
            let eased := ft * ft * (3 - 2 * ft) in
            0 <= ft < 1 /\ 0 <= eased < 1
            /\ tx q = exitTx width * eased
            /\ ty q = exitTy width * eased
            /\ scale q = lerp 1 3.5 eased
            /\ opacity q = clamp (1 - ft * 2.5) 0 1
            /\ (0.4 <= ft -> opacity q = 0)) as Hout.
  { intros q -> Hge ft eased.
    assert (0 <= ft < 1) as Hft by (unfold ft; lra).
    assert ((t - holdEnd) / (1.0 - holdEnd) = ft) as Heq
      by (unfold ft, holdEnd; lra).
    unfold flyOutPose. cbn [tx ty scale opacity]. rewrite Heq. fold eased.
    split; [exact Hft|].
    split; [apply flyOut_eased_range; exact Hft|].
    repeat split; try reflexivity.
    - unfold lerp. lra.
    - intros H4. apply clamp_below; lra. }
  subst flyIn hold flyOut. cbv zeta.
  split; [exact Ht|].
  split.
  { unfold slideStyle. rewrite Hact, Z.eqb_refl. reflexivity. }
  split.
  - intros Hne. unfold p, activePose.
    destruct (Nat.eqb_spec index 0) as [E|_]; [contradiction|].
    split; [|split].
    + intros Hin.
      assert (Rltb t flyInEnd = true) as -> by (apply Rltb_true; unfold flyInEnd; lra).
      unfold flyInPose, flyInEnd. cbn [tx ty scale opacity].
      split; [apply flyIn_eased_range; lra|].
      repeat split; try reflexivity; unfold lerp; lra.
    + intros Hge Hor.
      assert (Rltb t flyInEnd = false) as -> by (apply Rltb_false; unfold flyInEnd; lra).
      assert (Rltb t holdEnd || Z.eqb (Z.of_nat index) (Z.of_nat count - 1) = true) as ->.
      { apply orb_true_iff. destruct Hor as [Hh | Hl].
        - left. apply Rltb_true. unfold holdEnd. lra.
        - right. now apply isLastSlide_spec. }
      unfold holdPose. cbn [tx ty scale opacity]. repeat split.
    + intros Hge Hnl.
      assert (Rltb t flyInEnd = false) as -> by (apply Rltb_false; unfold flyInEnd; lra).
      assert (Rltb t holdEnd = false) as -> by (apply Rltb_false; unfold holdEnd; lra).
      assert (Z.eqb (Z.of_nat index) (Z.of_nat count - 1) = false) as ->.
      { apply not_true_is_false. intros E. apply Hnl.
        now apply isLastSlide_spec. }
      cbn [orb]. apply Hout; [reflexivity | exact Hge].
  - intros He. unfold p, activePose. rewrite He. cbn [Nat.eqb].
    split.
    + intros Hh.
      assert (Rltb t holdEnd = true) as -> by (apply Rltb_true; unfold holdEnd; lra).
      unfold holdPose. cbn [tx ty scale opacity]. repeat split.
    + intros Hge.
      assert (Rltb t holdEnd = false) as -> by (apply Rltb_false; unfold holdEnd; lra).
      apply Hout; [reflexivity | exact Hge].
Qed.

Lemma clamp_example : clamp 0.46875 0 0.999 = 0.46875.
Proof. apply clamp_inside. lra. Qed.

Lemma scaledProgress_example : scaledProgress 4 0.46875 = 1.875.
Proof. unfold scaledProgress. rewrite clamp_example. simpl INR. lra. Qed.

Lemma activeIndex_example : activeIndex 4 0.46875 = 1%Z.
Proof.
  unfold activeIndex. rewrite scaledProgress_example.
  apply Math_floor_eq. lra.
Qed.

Lemma intraSlide_example : intraSlide 4 0.46875 = 0.875.
Proof.
  unfold intraSlide. rewrite activeIndex_example, scaledProgress_example. lra.
Qed.

(* ================================================================== *)
(** ** Title cards: the compass line *)

Lemma LINE_DX_value : LINE_DX = - cos (PI / 9).
Proof.
  unfold LINE_DX, LINE_RAD.
  replace ((90 - 290) * (PI / 180)) with (- (PI / 9 + PI)) by lra.
  rewrite cos_neg. apply neg_cos.
Qed.

Lemma LINE_DY_value : LINE_DY = - sin (PI / 9).
Proof.
  unfold LINE_DY, LINE_RAD.
  replace ((90 - 290) * (PI / 180)) with (- (PI / 9 + PI)) by lra.
  rewrite sin_neg, neg_sin. lra.
Qed.

Lemma sin_PI12_lower : / 4 <= sin (PI / 12).
Proof.
  pose proof PI_RGT_0 as Hpi.
  pose proof sin_PI6 as H6.
  replace (PI / 6) with (2 * (PI / 12)) in H6 by lra.
  rewrite sin_2a in H6.
  pose proof (COS_bound (PI / 12)) as [_ Hc].
  assert (0 <= sin (PI / 12)) as Hs by (apply sin_ge_0; lra).
  nra.
Qed.

Lemma sin_PI9_lower : / 4 < sin (PI / 9).
Proof.
  pose proof PI_RGT_0 as Hpi.
  apply Rle_lt_trans with (sin (PI / 12)); [apply sin_PI12_lower|].
  apply sin_increasing_1; lra.
Qed.

Lemma cos_PI9_positive : 0 < cos (PI / 9).
Proof.
  pose proof PI_RGT_0 as Hpi. apply cos_gt_0; lra.
Qed.

Lemma onLine_cross (x y : R) : onLine x y -> x * LINE_DY = y * LINE_DX.
Proof. intros [k [-> ->]]. ring. Qed.

Lemma onLine_scaled (k : R) : onLine (k * LINE_DX) (k * LINE_DY).
Proof. exists k. split; reflexivity. Qed.

Lemma onLine_origin : onLine 0 0.
Proof. exists 0. split; ring. Qed.

Lemma entry_onLine (width : R) : onLine (entryTx width) (entryTy width).
Proof.
  exists (- entry (getLineDist width)). unfold entryTx, entryTy. split; ring.
Qed.

Lemma exit_onLine (width : R) : onLine (exitTx width) (exitTy width).
Proof.
  exists (exit (getLineDist width)). unfold exitTx, exitTy. split; ring.
Qed.

Lemma flyInPose_onLine (width t : R) :
  onLine (tx (flyInPose width t)) (ty (flyInPose width t)).
Proof.
  unfold flyInPose. cbn [tx ty]. unfold lerp, entryTx, entryTy.
  set (e := t / flyInEnd * (2 - t / flyInEnd)).
  exists (- entry (getLineDist width) * (1 - e)). split; ring.
Qed.

Lemma flyOutPose_onLine (width t : R) :
  onLine (tx (flyOutPose width t)) (ty (flyOutPose width t)).
Proof.
  unfold flyOutPose. cbn [tx ty]. unfold exitTx, exitTy.
  set (ft := (t - holdEnd) / (1.0 - holdEnd)).
  exists (exit (getLineDist width) * (ft * ft * (3 - 2 * ft))). split; ring.
Qed.

Lemma activePose_onLine (width : R) (count index : nat) (t : R) :
  onLine (tx (activePose width count index t)) (ty (activePose width count index t)).
Proof.
  unfold activePose.
  destruct (Nat.eqb index 0); repeat
    match goal with
    | |- context [if ?b then _ else _] => destruct b
    end;
    first [apply onLine_origin | apply flyInPose_onLine | apply flyOutPose_onLine].
Qed.

Lemma activePose_scale_le_1 (width : R) (count index : nat) (t : R) :
  0 <= t ->
  t < 0.75 \/ (index <> 0%nat /\ Z.of_nat index = (Z.of_nat count - 1)%Z) ->
  scale (activePose width count index t) <= 1.
Proof.
  intros Ht Hphase. unfold activePose.
  assert (forall u, 0 <= u < 0.15 -> scale (flyInPose width u) <= 1) as Hin.
  { intros u Hu. unfold flyInPose, flyInEnd. cbn [scale]. unfold lerp.
    pose proof (flyIn_eased_range u Hu). lra. }
  destruct (Nat.eqb_spec index 0) as [E|NE].
  - destruct Hphase as [Hh | [Hne _]]; [|contradiction].
    assert (Rltb t holdEnd = true) as -> by (apply Rltb_true; unfold holdEnd; lra).
    cbn. lra.
  - destruct (Rltb t flyInEnd) eqn:Efi.
    + apply Hin. apply Rltb_true in Efi. unfold flyInEnd in Efi. lra.
    + assert (Rltb t holdEnd || Z.eqb (Z.of_nat index) (Z.of_nat count - 1) = true) as ->.
      { apply orb_true_iff. destruct Hphase as [Hh | [_ Hl]].
        - left. apply Rltb_true. unfold holdEnd. lra.
        - right. now apply Z.eqb_eq. }
      cbn. lra.
Qed.

Lemma scaleComp_zero (width s : R) :
  s <= 1 -> scaleCompX width s = 0 /\ scaleCompY s = 0.
Proof.
  intros Hs. unfold scaleCompX, scaleCompY, Rmax.
  destruct (Rle_dec 0 (s - 1)); split; try lra;
    replace (s - 1) with 0 by lra; lra.
Qed.

Lemma activePose_example :
  activePose 1000 4 1 0.875 = flyOutPose 1000 0.875.
Proof.
  unfold activePose. cbn [Nat.eqb].
  assert (Rltb 0.875 flyInEnd = false) as ->
    by (apply Rltb_false; unfold flyInEnd; lra).
  assert (Rltb 0.875 holdEnd = false) as ->
    by (apply Rltb_false; unfold holdEnd; lra).
  reflexivity.
Qed.

Lemma flyOutPose_example :
  tx (flyOutPose 1000 0.875) = 160 * LINE_DX
  /\ ty (flyOutPose 1000 0.875) = 160 * LINE_DY
  /\ scale (flyOutPose 1000 0.875) = 2.25.
Proof.
  unfold flyOutPose. cbn [tx ty scale].
  unfold exitTx, exitTy, getLineDist, holdEnd, lerp. cbn [exit].
  replace (Rmax (1000 * 0.32) 220) with 320
    by (unfold Rmax; destruct (Rle_dec (1000 * 0.32) 220); lra).
  replace ((0.875 - 0.75) / (1.0 - 0.75)) with 0.5 by lra.
  unfold LINE_DX, LINE_DY. repeat split; lra.
Qed.

Lemma slideStyle_example :
  translateX (slideStyle 1000 4 0.46875 1) = 160 * LINE_DX - 225
  /\ translateY (slideStyle 1000 4 0.46875 1) = 160 * LINE_DY - 10.
Proof.
  unfold slideStyle. rewrite activeIndex_example. cbn [Z.of_nat Pos.of_succ_nat Z.eqb Pos.eqb].
  rewrite intraSlide_example, activePose_example.
  destruct flyOutPose_example as [Hx [Hy Hs]].
  unfold activeStyle. cbn [translateX translateY]. rewrite Hx, Hy, Hs.
  unfold scaleCompX, scaleCompY.
  replace (Rmax 0 (2.25 - 1)) with 1.25
    by (unfold Rmax; destruct (Rle_dec 0 (2.25 - 1)); lra).
  split; lra.
Qed.

(** C2, as stated, fails: with a 1000 px wide viewport and four slides, at
    progress 0.46875 slide 1 is flying out ([t = 0.875], scale 2.25) and the
    translation written to it, [(160 LINE_DX - 225, 160 LINE_DY - 10)], is
    no multiple of [(LINE_DX, LINE_DY)]. *)
Lemma flyout_translation_off_line :
  exists st,
    nth_error (updateSlidesFlyThrough 1000 4 0.46875) 1 = Some st
    /\ ~ onLine (translateX st) (translateY st).
Proof.
  exists (slideStyle 1000 4 0.46875 1). split; [reflexivity|].
  intros Hon. apply onLine_cross in Hon.
  destruct slideStyle_example as [Hx Hy]. rewrite Hx, Hy in Hon.
  rewrite LINE_DX_value, LINE_DY_value in Hon.
  pose proof sin_PI9_lower as Hs.
  pose proof (COS_bound (PI / 9)) as [_ Hc].
  lra.
Qed.

(** C2, amended.  The parked entry and exit offsets are multiples of
    [(LINE_DX, LINE_DY)], and so is the pair [(tx, ty)] computed for the
    active slide in every phase.  The translation written to the active
    slide is [(tx, ty)] plus the scale compensation
    [(-max(0, scale - 1) * width * 0.18, -max(0, scale - 1) * 8)]; while the
    slide flies in or holds the compensation is zero and the written
    translation is on the line. *)
Theorem translations_on_line_before_compensation :
  forall (width : R) (count index : nat) (progress : R),
    (index < count)%nat ->
    let st := slideStyle width count progress index in
    let t := intraSlide count progress in
    let p := activePose width count index t in
    (Z.of_nat index <> activeIndex count progress ->
       onLine (translateX st) (translateY st))
    /\ (Z.of_nat index = activeIndex count progress ->
          onLine (tx p) (ty p)
          /\ translateX st = tx p + scaleCompX width (scale p)
          /\ translateY st = ty p + scaleCompY (scale p)
          /\ (t < 0.75 \/ (index <> 0%nat /\ index = (count - 1)%nat) ->
                onLine (translateX st) (translateY st))).
Proof.
  intros width count index progress Hlt st t p.
  split.
  - intros Hne. unfold st, slideStyle.
    destruct (Z.eqb_spec (Z.of_nat index) (activeIndex count progress)) as [E|_];
      [contradiction|].
    destruct (Z.ltb (Z.of_nat index) (activeIndex count progress));
      cbn [translateX translateY]; [apply exit_onLine | apply entry_onLine].
  - intros Hact.
    assert (st = activeStyle width p) as Hst.
    { unfold st, slideStyle. rewrite Hact, Z.eqb_refl. reflexivity. }
    split; [apply activePose_onLine|].
    split; [rewrite Hst; reflexivity|].
    split; [rewrite Hst; reflexivity|].
    intros Hphase. rewrite Hst. unfold activeStyle. cbn [translateX translateY].
    assert (scale p <= 1) as Hs.
    { apply activePose_scale_le_1.
      - apply intraSlide_range.
      - destruct Hphase as [Hh | [Hne Hl]]; [left; exact Hh | right].
        split; [exact Hne | lia]. }
    destruct (scaleComp_zero width (scale p) Hs) as [-> ->].
    rewrite !Rplus_0_r. apply activePose_onLine.
Qed.

(** Slide 3 of four parked at the entry end while slide 1 is active. *)
Lemma translations_on_line_witness :
  (3 < 4)%nat
  /\ onLine (translateX (slideStyle 1000 4 0.46875 3))
            (translateY (slideStyle 1000 4 0.46875 3)).
Proof.
  assert (3 < 4)%nat as H by lia.
  split; [exact H|].
  destruct (translations_on_line_before_compensation 1000 4 3 0.46875 H)
    as [Hparked _].
  apply Hparked. rewrite activeIndex_example. lia.
Defined.

(* ================================================================== *)
(** ** Title cards: the style written to the active slide *)

Lemma scaleComp_above (width s : R) :
  1 <= s ->
  scaleCompX width s = - (s - 1) * width * 0.18 /\ scaleCompY s = - (s - 1) * 8.
Proof.
  intros Hs. unfold scaleCompX, scaleCompY.
  assert (Rmax 0 (s - 1) = s - 1) as -> by (apply Rmax_right; lra).
  split; reflexivity.
Qed.

(** The style of slide [index] is the [index]-th style the call writes. *)
Lemma updateSlidesFlyThrough_nth (width : R) (count index : nat) (progress : R) :
  (index < count)%nat ->
  nth_error (updateSlidesFlyThrough width count progress) index
  = Some (slideStyle width count progress index).
Proof.
  intros Hlt. unfold updateSlidesFlyThrough.
  apply map_nth_error.
  assert (forall len s j, (j < len)%nat ->
            nth_error (seq s len) j = Some (s + j)%nat) as Hseq.
  { induction len as [|len IH]; intros s [|j] Hj; simpl; try lia.
    - f_equal. lia.
    - rewrite IH by lia. f_equal. lia. }
  now rewrite Hseq.
Qed.

Lemma exitTx_example : exitTx 1000 = 320 * LINE_DX /\ exitTy 1000 = 320 * LINE_DY.
Proof.
  unfold exitTx, exitTy, getLineDist. cbn [exit].
  replace (Rmax (1000 * 0.32) 220) with 320
    by (unfold Rmax; destruct (Rle_dec (1000 * 0.32) 220); lra).
  split; ring.
Qed.

(** C1, as stated, fails in its last phase: with a 1000 px wide viewport
    and four slides, at progress 0.46875 slide 1 is active, not the last
    one, and flying out ([t = 0.875]); the translation written to it,
    [(160 LINE_DX - 225, 160 LINE_DY - 10)], is at no point of the way from
    (0,0) to the exit offset [(320 LINE_DX, 320 LINE_DY)]: its horizontal
    part is already further left than the exit offset. *)
Lemma flyout_translation_leaves_exit_path :
  exists st,
    nth_error (updateSlidesFlyThrough 1000 4 0.46875) 1 = Some st
    /\ Z.of_nat 1 = activeIndex 4 0.46875
    /\ 0.75 <= intraSlide 4 0.46875
    /\ translateX st < exitTx 1000
    /\ ~ (exists s, 0 <= s <= 1
                    /\ translateX st = s * exitTx 1000
                    /\ translateY st = s * exitTy 1000).
Proof.
  exists (slideStyle 1000 4 0.46875 1).
  destruct slideStyle_example as [Hx Hy].
  destruct exitTx_example as [Ex Ey].
  pose proof (COS_bound (PI / 9)) as [_ Hc].
  pose proof cos_PI9_positive as Hpos.
  split; [reflexivity|].
  split; [rewrite activeIndex_example; reflexivity|].
  split; [rewrite intraSlide_example; lra|].
  split.
  - rewrite Hx, Ex, LINE_DX_value. lra.
  - intros [s [[Hs0 Hs1] [Hsx _]]].
    rewrite Hx, Ex, LINE_DX_value in Hsx.
    assert (s * cos (PI / 9) <= cos (PI / 9)) by nra.
    lra.
Qed.

(** C1, amended.  In a call of [updateSlidesFlyThrough] the intra-slide
    progress [t] of the active slide lies in [[0, 1)], and the style written
    to that slide, the one at its index in the list of written styles, is
    the following.  A slide other than the first flies in
    while [t < 0.15]: the written scale is the interpolation from 0.25 to 1,
    the written translation the interpolation from the entry offset to
    (0,0) and the written opacity [clamp(1.4 eased)], at an eased parameter
    in [[0, 1)].  It holds, written translation (0,0), scale 1 and opacity
    1, while [0.15 <= t < 0.75], and for every [t >= 0.15] when it is the
    last slide.  Otherwise it flies out: the written scale is the
    interpolation from 1 to 3.5 at an eased parameter in [[0, 1)], the
    written opacity is [clamp(1 - 2.5 ft)], which is 0 from [ft = 0.4] on,
    and the written translation is the exit offset times the eased
    parameter plus the scale compensation
    [(-(scale - 1) * width * 0.18, -(scale - 1) * 8)].  The first slide
    holds while [t < 0.75] and then flies out. *)
Theorem active_slide_written_in_three_phases :
  forall (width : R) (count index : nat) (progress : R),
    (index < count)%nat ->
    Z.of_nat index = activeIndex count progress ->
    let t := intraSlide count progress in
    let st := slideStyle width count progress index in
    let isLast := index = (count - 1)%nat in
    let flyIn :=
      let eased := t / 0.15 * (2 - t / 0.15) in
      0 <= eased < 1
      /\ scaleArg st = lerp 0.25 1 eased
      /\ translateX st = lerp (entryTx width) 0 eased
      /\ translateY st = lerp (entryTy width) 0 eased
      /\ opacityArg st = clamp (eased * 1.4) 0 1 in
    let hold :=
      translateX st = 0 /\ translateY st = 0
      /\ scaleArg st = 1 /\ opacityArg st = 1 in
    let flyOut :=
      let ft := (t - 0.75) / 0.25 in
      let eased := ft * ft * (3 - 2 * ft) in
      0 <= ft < 1 /\ 0 <= eased < 1
      /\ scaleArg st = lerp 1 3.5 eased
      /\ translateX st = exitTx width * eased - (scaleArg st - 1) * width * 0.18
      /\ translateY st = exitTy width * eased - (scaleArg st - 1) * 8
      /\ opacityArg st = clamp (1 - ft * 2.5) 0 1
      /\ (0.4 <= ft -> opacityArg st = 0) in
    0 <= t < 1
    /\ nth_error (updateSlidesFlyThrough width count progress) index = Some st
    /\ isActive st = true
    /\ (index <> 0%nat ->
          (t < 0.15 -> flyIn)
          /\ (0.15 <= t -> t < 0.75 \/ isLast -> hold)
          /\ (0.75 <= t -> ~ isLast -> flyOut))
    /\ (index = 0%nat -> (t < 0.75 -> hold) /\ (0.75 <= t -> flyOut)).
Proof.
  intros width count index progress Hlt Hact t st isLast flyIn hold flyOut.
  destruct (activePose_phases width count index progress Hlt Hact)
    as [Ht [Hst [Hother Hfirst]]].
  fold t in Ht, Hst, Hother, Hfirst. fold st in Hst.
  set (p := activePose width count index t) in *.
  assert (isActive st = true
          /\ scaleArg st = scale p /\ opacityArg st = opacity p
          /\ translateX st = tx p + scaleCompX width (scale p)
          /\ translateY st = ty p + scaleCompY (scale p))
    as [Ha [Hsc [Hop [Hx Hy]]]]
    by (rewrite Hst; unfold activeStyle; cbn; repeat split).
  assert (tx p = 0 /\ ty p = 0 /\ scale p = 1 /\ opacity p = 1 ->
          translateX st = 0 /\ translateY st = 0
          /\ scaleArg st = 1 /\ opacityArg st = 1) as Hhold.
  { intros [Hx0 [Hy0 [Hs1 Ho1]]].
    destruct (scaleComp_zero width (scale p)) as [Cx Cy]; [lra|].
    rewrite Hx, Hy, Hsc, Hop, Cx, Cy. repeat split; lra. }
  assert (forall ft eased,
            0 <= ft < 1 /\ 0 <= eased < 1
            /\ tx p = exitTx width * eased
            /\ ty p = exitTy width * eased
            /\ scale p = lerp 1 3.5 eased
            /\ opacity p = clamp (1 - ft * 2.5) 0 1
            /\ (0.4 <= ft -> opacity p = 0) ->
            0 <= ft < 1 /\ 0 <= eased < 1
            /\ scaleArg st = lerp 1 3.5 eased
            /\ translateX st = exitTx width * eased - (scaleArg st - 1) * width * 0.18
            /\ translateY st = exitTy width * eased - (scaleArg st - 1) * 8
            /\ opacityArg st = clamp (1 - ft * 2.5) 0 1
            /\ (0.4 <= ft -> opacityArg st = 0)) as Hout.
  { intros ft eased [Hft [He [Px [Py [Ps [Po Pz]]]]]].
    destruct (scaleComp_above width (scale p)) as [Cx Cy];
      [rewrite Ps; unfold lerp; lra|].
    rewrite Hx, Hy, Hsc, Hop, Cx, Cy, Px, Py.
    repeat split; try tauto; try lra. }
  assert (forall eased,
            0 <= eased < 1
            /\ scale p = lerp 0.25 1 eased
            /\ tx p = lerp (entryTx width) 0 eased
            /\ ty p = lerp (entryTy width) 0 eased
            /\ opacity p = clamp (eased * 1.4) 0 1 ->
            0 <= eased < 1
            /\ scaleArg st = lerp 0.25 1 eased
            /\ translateX st = lerp (entryTx width) 0 eased
            /\ translateY st = lerp (entryTy width) 0 eased
            /\ opacityArg st = clamp (eased * 1.4) 0 1) as Hin.
  { intros eased [He [Ps [Px [Py Po]]]].
    destruct (scaleComp_zero width (scale p)) as [Cx Cy];
      [rewrite Ps; unfold lerp; lra|].
    rewrite Hx, Hy, Hsc, Hop, Cx, Cy, Px, Py, Ps, Po.
    repeat split; try tauto; lra. }
  subst flyIn hold flyOut. cbv zeta in *.
  split; [exact Ht|].
  split; [now apply updateSlidesFlyThrough_nth|].
  split; [exact Ha|].
  split.
  - intros Hne. destruct (Hother Hne) as [H1 [H2 H3]].
    split; [|split].
    + intros Hlow. apply Hin, H1, Hlow.
    + intros Hge Hor. apply Hhold, H2; assumption.
    + intros Hge Hnl. apply Hout, H3; assumption.
  - intros He. destruct (Hfirst He) as [H1 H2].
    split.
    + intros Hh. apply Hhold, H1, Hh.
    + intros Hge. apply Hout, H2, Hge.
Qed.

(** Four slides, progress 0.46875: slide 1 is active at [t = 0.875], flying
    out at scale 2.25. *)
Lemma active_slide_written_witness :
  (1 < 4)%nat
  /\ Z.of_nat 1 = activeIndex 4 0.46875
  /\ isActive (slideStyle 1000 4 0.46875 1) = true
  /\ scaleArg (slideStyle 1000 4 0.46875 1) = 2.25.
Proof.
  assert (1 < 4)%nat as H1 by lia.
  assert (Z.of_nat 1 = activeIndex 4 0.46875) as H2
    by (rewrite activeIndex_example; reflexivity).
  destruct (active_slide_written_in_three_phases 1000 4 1 0.46875 H1 H2)
    as [_ [_ [Ha [Hother _]]]].
  destruct Hother as [_ [_ Hout]]; [discriminate|].
  destruct Hout as [_ [_ [Hs _]]].
  - rewrite intraSlide_example. lra.
  - cbv. lia.
  - repeat split; try assumption.
    rewrite Hs, intraSlide_example. unfold lerp. lra.
Defined.

(* ================================================================== *)
(** ** Star field: recycling *)

Section StarField.

Variable sc : Scene.
Variable a : FieldArgs.
Variable rnd : Random.

Let depth0 : R := depth (stars (config sc)).

Lemma resetStar_z (s : Star) (d sp : R) (k : nat) :
  Star.z (fst (resetStar s d sp rnd k)) = d.
Proof. reflexivity. Qed.

Lemma resetStar_initialized (s : Star) (d sp : R) (k : nat) :
  Star.initialized (fst (resetStar s d sp rnd k)) = false.
Proof. reflexivity. Qed.

Lemma resetStar_within_spread (s : Star) (d sp : R) (k : nat) :
  0 <= sp -> (forall n, 0 <= rnd n < 1) ->
  let r := fst (resetStar s d sp rnd k) in
  - sp <= Star.x r <= sp /\ - (sp * 0.68) <= Star.y r <= sp * 0.68.
Proof.
  intros Hsp Hrnd. cbn [resetStar fst Star.x Star.y].
  pose proof (Hrnd k) as [H1 H2].
  pose proof (Hrnd (k + 1)%nat) as [H3 H4].
  repeat split; nra.
Qed.

Lemma paintStar_keeps (s : Star) (p : R * R) :
  let s' := fst (paintStar sc a s p) in
  Star.x s' = Star.x s /\ Star.y s' = Star.y s /\ Star.z s' = Star.z s
  /\ Star.size s' = Star.size s /\ Star.tint s' = Star.tint s
  /\ Star.isVLogo s' = Star.isVLogo s /\ Star.rotation s' = Star.rotation s
  /\ Star.prevX s' = fst p /\ Star.prevY s' = snd p
  /\ Star.initialized s' = true.
Proof. destruct p as [sx sy]. cbn. repeat split. Qed.

Lemma paintStar_no_reset (s : Star) (p : R * R) :
  ~ In ResetStar (snd (paintStar sc a s p)).
Proof.
  destruct p as [sx sy]. unfold paintStar. cbn [snd].
  intros Hin. apply in_app_or in Hin. destruct Hin as [Hin | Hin].
  - destruct (_ && _ && _); cbn in Hin; [destruct Hin as [E|[]]; discriminate E | contradiction].
  - destruct (_ && _); [destruct (Rltb _ _)|]; cbn in Hin;
      try contradiction; destruct Hin as [E|[]]; discriminate E.
Qed.

(** The result of one turn of the loop, by cases. *)
Lemma starStep_cases (star : Star) (k : nat) :
  let moved := advance sc a star in
  let near := fst (resetStar moved depth0 (spread sc) rnd k) in
  starStep sc a rnd star k =
    if Rleb (Star.z moved) 1
    then
      if offScreen sc (project sc near)
      then (fst (resetStar near depth0 (spread sc) rnd (k + 6)), (k + 6 + 6)%nat,
            [ResetStar; ResetStar])
      else (fst (paintStar sc a near (project sc near)), (k + 6)%nat,
            ResetStar :: snd (paintStar sc a near (project sc near)))
    else
      if offScreen sc (project sc moved)
      then (fst (resetStar moved depth0 (spread sc) rnd k), (k + 6)%nat, [ResetStar])
      else (fst (paintStar sc a moved (project sc moved)), k,
            snd (paintStar sc a moved (project sc moved))).
Proof.
  intros moved near. subst near. unfold starStep, resetStar.
  fold moved. fold depth0. cbn [fst snd].
  destruct (Rleb (Star.z moved) 1); cbv beta iota zeta;
    match goal with
    | |- context [offScreen sc ?p] => destruct (offScreen sc p)
    end; cbn [app]; try reflexivity;
    match goal with
    | |- context [paintStar sc a ?s ?p] =>
        destruct (paintStar sc a s p) as [s3 e3]
    end; reflexivity.
Qed.

Lemma streak_guard (s : Star) :
  Rltb 0.07 (warpStrength a) && Star.initialized s && negb (reduceMotion sc) = true
  <-> streakCondition sc a s.
Proof.
  unfold streakCondition.
  rewrite !andb_true_iff, Rltb_true, negb_true_iff. intuition lra.
Qed.

Lemma radius_at_least (v : R) : 1.2 < clamp v 0.35 3.2 * 7.
Proof. pose proof (clamp_bounds v 0.35 3.2). lra. Qed.

(** What [paintStar] puts on the canvas: the streak, if its condition
    holds, then exactly one body centred on the projected position. *)
Lemma paintStar_effects (s : Star) (p : R * R) :
  exists lw al body,
    isBody body = true /\ bodyAt (fst p) (snd p) body
    /\ snd (paintStar sc a s p)
       = (if Rltb 0.07 (warpStrength a) && Star.initialized s && negb (reduceMotion sc)
          then [StrokeLine (Star.prevX s) (Star.prevY s) (fst p) (snd p) lw al]
          else []) ++ [body].
Proof.
  destruct p as [sx sy]. unfold paintStar. cbn [fst snd].
  set (radius := clamp (Star.size s * (0.45 + depthMix sc s * 1.9)) 0.35 3.2).
  set (alpha := clamp (0.12 + depthMix sc s * 0.86 + warpStrength a * 0.08) 0 1).
  exists (clamp (radius * 0.72) 0.35 1.8),
         (alpha * clamp (warpStrength a * 1.05) 0 0.92).
  destruct (Star.isVLogo s && vStampReady sc).
  - assert (Rltb 1.2 (radius * 7) = true) as ->
      by (apply Rltb_true; apply radius_at_least).
    eexists. split; [|split]; [| |reflexivity]; cbn; auto.
  - eexists. split; [|split]; [| |reflexivity]; cbn; auto.
Qed.

Lemma starLoop_length (pool : list Star) :
  forall k, List.length (fst (fst (starLoop sc a rnd pool k))) = List.length pool.
Proof.
  induction pool as [|star rest IH]; intros k; simpl.
  - reflexivity.
  - destruct (starStep sc a rnd star k) as [[star' k1] e1].
    specialize (IH k1).
    destruct (starLoop sc a rnd rest k1) as [[rest' k2] e2].
    simpl in *. now rewrite IH.
Qed.

Lemma drawStarField_length (pool : list Star) (k : nat) :
  List.length (fst (fst (drawStarField sc a rnd pool k))) = List.length pool.
Proof.
  unfold drawStarField.
  pose proof (starLoop_length pool k) as H.
  destruct (starLoop sc a rnd pool k) as [[pool' k'] e]. exact H.
Qed.

Lemma offScreen_out (p : R * R) :
  offScreen sc p = true
  <-> fst p < -120 \/ fst p > width sc + 120
      \/ snd p < -120 \/ snd p > height sc + 120.
Proof.
  unfold offScreen. rewrite !orb_true_iff, !Rltb_true.
  unfold Rgt. tauto.
Qed.

Lemma offScreen_in (p : R * R) :
  offScreen sc p = false
  <-> ~ (fst p < -120 \/ fst p > width sc + 120
         \/ snd p < -120 \/ snd p > height sc + 120).
Proof.
  rewrite <- offScreen_out. destruct (offScreen sc p); split; congruence.
Qed.

(** What [paintStar] puts on the canvas, with the kind of body spelled
    out: a stamp centred on the position for a logo star once the stamp
    image is ready, a circle centred there otherwise. *)
Lemma paintStar_painted (s : Star) (p : R * R) :
  exists lw al body,
    (Star.isVLogo s = true /\ vStampReady sc = true ->
       exists side ba,
         body = DrawStamp (fst p - side * 0.5) (snd p - side * 0.5) side ba)
    /\ (~ (Star.isVLogo s = true /\ vStampReady sc = true) ->
          exists r ba, body = FillCircle (fst p) (snd p) r ba)
    /\ snd (paintStar sc a s p)
       = (if Rltb 0.07 (warpStrength a) && Star.initialized s && negb (reduceMotion sc)
          then [StrokeLine (Star.prevX s) (Star.prevY s) (fst p) (snd p) lw al]
          else []) ++ [body].
Proof.
  destruct p as [sx sy]. unfold paintStar. cbn [fst snd].
  set (radius := clamp (Star.size s * (0.45 + depthMix sc s * 1.9)) 0.35 3.2).
  set (alpha := clamp (0.12 + depthMix sc s * 0.86 + warpStrength a * 0.08) 0 1).
  exists (clamp (radius * 0.72) 0.35 1.8),
         (alpha * clamp (warpStrength a * 1.05) 0 0.92).
  destruct (Star.isVLogo s && vStampReady sc) eqn:Elogo.
  - assert (Rltb 1.2 (radius * 7) = true) as ->
      by (apply Rltb_true; apply radius_at_least).
    eexists. split; [|split]; [| |reflexivity].
    + intros _. eexists. eexists. reflexivity.
    + intros Hn. exfalso. apply Hn. now apply andb_true_iff.
  - eexists. split; [|split]; [| |reflexivity].
    + intros Hy. apply andb_true_iff in Hy. congruence.
    + intros _. eexists. eexists. reflexivity.
Qed.

(** The frame is the turns of the stars, one after the other, and then the
    vignette and the halo. *)
Lemma drawStarField_nil (k : nat) :
  drawStarField sc a rnd [] k
  = ([], k, FillVignette :: (if Rltb 0.06 (orbitReveal a) then [FillHalo] else [])).
Proof. reflexivity. Qed.

Lemma drawStarField_cons (star : Star) (rest : list Star) (k : nat) :
  drawStarField sc a rnd (star :: rest) k
  = (fst (fst (starStep sc a rnd star k))
       :: fst (fst (drawStarField sc a rnd rest (snd (fst (starStep sc a rnd star k))))),
     snd (fst (drawStarField sc a rnd rest (snd (fst (starStep sc a rnd star k))))),
     snd (starStep sc a rnd star k)
       ++ snd (drawStarField sc a rnd rest (snd (fst (starStep sc a rnd star k))))).
Proof.
  unfold drawStarField. cbn [starLoop].
  destruct (starStep sc a rnd star k) as [[star' k1] e1]. cbn [fst snd].
  destruct (starLoop sc a rnd rest k1) as [[rest' k2] e2]. cbn [fst snd].
  rewrite <- app_assoc. reflexivity.
Qed.

End StarField.

Lemma nearStar_moved : Star.z (advance sampleScene calmFrame nearStar) <= 1.
Proof.
  unfold advance, speed, speedStageMaxBoost, sampleScene, calmFrame, nearStar,
    defaultConfig.
  cbn [Star.z Star.size scrollEnergy pointerEnergy sequenceBoost
       stageSpeedNormalized warpStrength warpBoost stars config orbitDampen
       baseSpeed delta].
  lra.
Qed.

(** Recycled with [Math.random] at one half, a star sits on the view axis
    and is projected to the middle of the 1280 x 720 scene. *)
Lemma project_recycled_example (s : Star) (k : nat) :
  project sampleScene (fst (resetStar s 1600 1600 halves k)) = (640, 360).
Proof.
  unfold project, resetStar, halves, sampleScene.
  cbn [fst Star.x Star.y Star.z width height mouseX mouseY].
  set (parallax := 1 + _ * 1.8).
  set (projection := _ / 1600).
  f_equal.
  - replace ((/ 2 * 2 - 1) * 1600 + 0 * 28 * parallax) with 0 by lra.
    lra.
  - replace ((/ 2 * 2 - 1) * 1600 * 0.68 + 0 * 24 * parallax) with 0 by lra.
    lra.
Qed.

Lemma nearStar_turn :
  starStep sampleScene calmFrame halves nearStar 0
  = (fst (paintStar sampleScene calmFrame
            (fst (resetStar (advance sampleScene calmFrame nearStar) 1600 1600 halves 0))
            (640, 360)),
     6%nat,
     ResetStar
       :: snd (paintStar sampleScene calmFrame
                 (fst (resetStar (advance sampleScene calmFrame nearStar) 1600 1600 halves 0))
                 (640, 360))).
Proof.
  rewrite starStep_cases.
  assert (Rleb (Star.z (advance sampleScene calmFrame nearStar)) 1 = true) as ->
    by (apply Rleb_true; apply nearStar_moved).
  change (depth (stars (config sampleScene))) with 1600.
  change (spread sampleScene) with 1600.
  rewrite project_recycled_example.
  assert (offScreen sampleScene (640, 360) = false) as ->.
  { apply offScreen_in. cbn [fst snd width height sampleScene]. lra. }
  reflexivity.
Qed.

(** C3, as stated, fails in one case: a star recycled because its [z] fell
    to 1 or less is projected again from its new place and, when that is on
    screen, painted in the same frame, which sets [initialized] again.  In a
    calm frame of the 1280 x 720 scene the star at depth 0.5 moves to
    [z = 0.5 - 0.28 * 12], is handed to [resetStar] and ends the frame at
    the configured depth 1600 with [initialized] set. *)
Lemma recycled_star_ends_initialized :
  exists star',
    fst (fst (drawStarField sampleScene calmFrame halves [nearStar] 0)) = [star']
    /\ Star.z (advance sampleScene calmFrame nearStar) <= 1
    /\ In ResetStar (snd (drawStarField sampleScene calmFrame halves [nearStar] 0))
    /\ Star.z star' = 1600
    /\ Star.initialized star' = true.
Proof.
  rewrite drawStarField_cons, drawStarField_nil, nearStar_turn. cbn [fst snd].
  eexists. split; [reflexivity|].
  split; [apply nearStar_moved|].
  split; [left; reflexivity|].
  split; reflexivity.
Qed.

(** C3, amended.  For a configured depth other than 0, [Math.random] in
    [[0, 1)] and a spread that is not negative: [drawStarField] gives every
    star of the pool one turn, in order, so the pool keeps its length.  In
    its turn a star is handed to [resetStar] exactly when, after the depth
    advance, its [z] is at most 1 or its projected position is more than
    120 px outside the viewport.  [resetStar] sets [z] to the depth it is
    given, samples [x] and [y] within the spread and clears [initialized];
    a recycled star ends the frame at the configured depth and within the
    spread.  A star recycled for leaving the screen ends the frame as
    [resetStar] left it.  A star recycled for its depth is projected again
    from its new place: off screen it is recycled once more, on screen it is
    painted in the same frame, which sets [initialized] again; so
    [initialized] is cleared at the end of the frame exactly for the stars
    whose last projection was off screen.  A star that is not recycled
    keeps [x], [y], [size], [tint], [isVLogo] and [rotation]. *)
Theorem drawStarField_recycles_each_star :
  forall (sc : Scene) (a : FieldArgs) (rnd : Random),
    depth (stars (config sc)) <> 0 ->
    0 <= spread sc ->
    (forall n, 0 <= rnd n < 1) ->
    let d := depth (stars (config sc)) in
    let out := fun p : R * R =>
      fst p < -120 \/ fst p > width sc + 120
      \/ snd p < -120 \/ snd p > height sc + 120 in
    (forall k,
       fst (drawStarField sc a rnd [] k) = ([], k)
       /\ ~ In ResetStar (snd (drawStarField sc a rnd [] k)))
    /\ (forall star rest k,
          let turn := starStep sc a rnd star k in
          let others := drawStarField sc a rnd rest (snd (fst turn)) in
          drawStarField sc a rnd (star :: rest) k
          = (fst (fst turn) :: fst (fst others), snd (fst others),
             snd turn ++ snd others))
    /\ (forall pool k,
          List.length (fst (fst (drawStarField sc a rnd pool k))) = List.length pool)
    /\ (forall star k,
          let moved := advance sc a star in
          let near := fst (resetStar moved d (spread sc) rnd k) in
          let star' := fst (fst (starStep sc a rnd star k)) in
          let effects := snd (starStep sc a rnd star k) in
          let recycled := Star.z moved <= 1 \/ out (project sc moved) in
          (In ResetStar effects <-> recycled)
          /\ (recycled ->
                Star.z star' = d
                /\ - spread sc <= Star.x star' <= spread sc
                /\ - (spread sc * 0.68) <= Star.y star' <= spread sc * 0.68)
          /\ (1 < Star.z moved -> out (project sc moved) -> star' = near)
          /\ (Star.z moved <= 1 -> out (project sc near) ->
                star' = fst (resetStar near d (spread sc) rnd (k + 6)))
          /\ (Star.z moved <= 1 -> ~ out (project sc near) ->
                Star.x star' = Star.x near /\ Star.y star' = Star.y near
                /\ Star.size star' = Star.size near /\ Star.tint star' = Star.tint near
                /\ Star.isVLogo star' = Star.isVLogo near
                /\ Star.rotation star' = Star.rotation near
                /\ (Star.prevX star', Star.prevY star') = project sc near)
          /\ (Star.initialized star' = false
              <-> (1 < Star.z moved /\ out (project sc moved))
                  \/ (Star.z moved <= 1 /\ out (project sc near)))
          /\ (~ recycled ->
                Star.x star' = Star.x star /\ Star.y star' = Star.y star
                /\ Star.size star' = Star.size star /\ Star.tint star' = Star.tint star
                /\ Star.isVLogo star' = Star.isVLogo star
                /\ Star.rotation star' = Star.rotation star
                /\ Star.z star' = Star.z moved
                /\ (Star.prevX star', Star.prevY star') = project sc moved))
    /\ (forall (s : Star) (dd sp : R) (k : nat),
          let r := fst (resetStar s dd sp rnd k) in
          Star.z r = dd
          /\ Star.initialized r = false
          /\ Star.x r = (rnd k * 2 - 1) * sp
          /\ Star.y r = (rnd (k + 1)%nat * 2 - 1) * sp * 0.68
          /\ snd (resetStar s dd sp rnd k) = (k + 6)%nat).
Proof.
  intros sc a rnd Hd Hsp Hrnd d out.
  split; [|split; [|split; [|split]]].
  - intros k. rewrite drawStarField_nil. cbn [fst snd]. split; [reflexivity|].
    intros [E | Hin]; [discriminate E|].
    destruct (Rltb 0.06 (orbitReveal a)); cbn in Hin;
      [destruct Hin as [E | []]; discriminate E | contradiction].
  - intros star rest k. apply drawStarField_cons.
  - intros pool k. apply drawStarField_length.
  - intros star k moved near star' effects recycled.
    subst star' effects recycled.
    rewrite (starStep_cases sc a rnd star k). fold moved. fold d. fold near.
    pose proof (offScreen_out sc (project sc moved)) as Omoved.
    pose proof (offScreen_out sc (project sc near)) as Onear.
    fold (out (project sc moved)) in Omoved.
    fold (out (project sc near)) in Onear.
    pose proof (resetStar_within_spread rnd moved d (spread sc) k Hsp Hrnd)
      as [Hx Hy].
    fold near in Hx, Hy.
    pose proof (resetStar_within_spread rnd near d (spread sc) (k + 6) Hsp Hrnd)
      as [Hx2 Hy2].
    destruct (Rleb (Star.z moved) 1) eqn:Ez.
    + apply Rleb_true in Ez.
      destruct (offScreen sc (project sc near)) eqn:Eoff; cbn [fst snd].
      * assert (out (project sc near)) as Ho by (now apply Onear).
        split; [split; intros _; [left; exact Ez | left; reflexivity]|].
        split; [intros _; repeat split; try apply Hx2; apply Hy2|].
        split; [intros Hz; lra|].
        split; [intros _ _; reflexivity|].
        split; [intros _ Hn; contradiction|].
        split; [split; [intros _; right; split; assumption | reflexivity]|].
        intros Hn. exfalso. apply Hn. left. exact Ez.
      * assert (~ out (project sc near)) as Ho
          by (intros Ho; apply Onear in Ho; congruence).
        pose proof (paintStar_keeps sc a near (project sc near))
          as [Kx [Ky [Kz [Ks [Kt [Kv [Kr [Kpx [Kpy Ki]]]]]]]]].
        split; [split; intros _; [left; exact Ez | left; reflexivity]|].
        split; [intros _; rewrite Kx, Ky, Kz; repeat split;
                try apply Hx; apply Hy|].
        split; [intros Hz; lra|].
        split; [intros _ Hn; contradiction|].
        split.
        { intros _ _. rewrite Kx, Ky, Ks, Kt, Kv, Kr, Kpx, Kpy.
          repeat split; try now destruct (project sc near). }
        split.
        { rewrite Ki. split; [discriminate|].
          intros [[Hz _] | [_ Hn]]; [lra | contradiction]. }
        intros Hn. exfalso. apply Hn. left. exact Ez.
    + apply Rleb_false in Ez.
      destruct (offScreen sc (project sc moved)) eqn:Eoff; cbn [fst snd].
      * assert (out (project sc moved)) as Ho by (now apply Omoved).
        split; [split; intros _; [right; exact Ho | left; reflexivity]|].
        split; [intros _; repeat split; try apply Hx; apply Hy|].
        split; [intros _ _; reflexivity|].
        split; [intros Hz; lra|].
        split; [intros Hz; lra|].
        split; [split; [intros _; left; split; assumption | reflexivity]|].
        intros Hn. exfalso. apply Hn. right. exact Ho.
      * assert (~ out (project sc moved)) as Ho
          by (intros Ho; apply Omoved in Ho; congruence).
        pose proof (paintStar_keeps sc a moved (project sc moved))
          as [Kx [Ky [Kz [Ks [Kt [Kv [Kr [Kpx [Kpy Ki]]]]]]]]].
        split.
        { split.
          - intros Hin. exfalso. revert Hin. apply paintStar_no_reset.
          - intros [Hz | Hout]; [lra | contradiction]. }
        split; [intros [Hz | Hout]; [lra | contradiction]|].
        split; [intros _ Hout; contradiction|].
        split; [intros Hz; lra|].
        split; [intros Hz; lra|].
        split.
        { rewrite Ki. split; [discriminate|].
          intros [[_ Hout] | [Hz _]]; [contradiction | lra]. }
        intros _. rewrite Kx, Ky, Kz, Ks, Kt, Kv, Kr, Kpx, Kpy.
        repeat split; try now destruct (project sc moved).
  - intros s dd sp k r. subst r. repeat split.
Qed.

(** In a calm frame the star at depth 0.5 moves to [z = 0.5 - 0.28 * 12] and
    is recycled. *)
Lemma drawStarField_recycles_witness :
  depth (stars (config sampleScene)) <> 0
  /\ 0 <= spread sampleScene
  /\ (forall n, 0 <= halves n < 1)
  /\ In ResetStar (snd (starStep sampleScene calmFrame halves nearStar 0)).
Proof.
  assert (depth (stars (config sampleScene)) <> 0) as H0
    by (cbn [depth stars config sampleScene defaultConfig]; lra).
  assert (0 <= spread sampleScene) as H1 by (cbn [spread sampleScene]; lra).
  assert (forall n, 0 <= halves n < 1) as H2 by (intros n; unfold halves; lra).
  split; [exact H0|]. split; [exact H1|]. split; [exact H2|].
  destruct (drawStarField_recycles_each_star sampleScene calmFrame halves H0 H1 H2)
    as [_ [_ [_ [Hstar _]]]].
  apply (Hstar nearStar 0%nat). left.
  unfold advance, speed, speedStageMaxBoost, sampleScene, calmFrame, nearStar,
    defaultConfig.
  cbn [Star.z Star.size scrollEnergy pointerEnergy sequenceBoost
       stageSpeedNormalized warpStrength warpBoost stars config orbitDampen
       baseSpeed delta].
  lra.
Defined.

(* ================================================================== *)
(** ** Star field: streaks *)

Lemma farStar_moved : Star.z (advance sampleScene warpFrame farStar) = 35.44.
Proof.
  unfold advance, speed, speedStageMaxBoost, sampleScene, warpFrame, farStar,
    defaultConfig.
  cbn [Star.z Star.size scrollEnergy pointerEnergy sequenceBoost
       stageSpeedNormalized warpStrength warpBoost stars config orbitDampen
       baseSpeed delta].
  lra.
Qed.

Lemma farStar_leaves_screen :
  fst (project sampleScene (advance sampleScene warpFrame farStar)) > 1280 + 120.
Proof.
  unfold project. cbn [fst]. rewrite farStar_moved.
  cbn [Star.x advance farStar width height mouseX sampleScene].
  set (parallax := 1 + _ * 1.8).
  replace (10000 + 0 * 28 * parallax) with 10000 by lra.
  replace (Rmax 1280 720) with 1280
    by (unfold Rmax; destruct (Rle_dec 1280 720); lra).
  lra.
Qed.

Lemma farStar_turn :
  starStep sampleScene warpFrame halves farStar 0
  = (fst (resetStar (advance sampleScene warpFrame farStar) 1600 1600 halves 0),
     6%nat, [ResetStar]).
Proof.
  rewrite starStep_cases.
  assert (Rleb (Star.z (advance sampleScene warpFrame farStar)) 1 = false) as ->
    by (apply Rleb_false; rewrite farStar_moved; lra).
  assert (offScreen sampleScene
            (project sampleScene (advance sampleScene warpFrame farStar)) = true) as ->.
  { apply offScreen_out. right. left. apply farStar_leaves_screen. }
  reflexivity.
Qed.

(** C4, as stated, fails for a star that leaves the screen: at full warp,
    with reduced motion off, the initialized star at [(10000, 0, 100)] moves
    to [z = 35.44], is projected more than 120 px to the right of the
    1280 px wide viewport and is recycled; the frame strokes no streak for
    it and draws neither dot nor stamp. *)
Lemma offscreen_star_is_not_painted :
  warpStrength warpFrame > 0.07
  /\ Star.initialized farStar = true
  /\ reduceMotion sampleScene = false
  /\ snd (drawStarField sampleScene warpFrame halves [farStar] 0)
     = [ResetStar; FillVignette].
Proof.
  split; [cbn [warpStrength warpFrame]; lra|].
  split; [reflexivity|].
  split; [reflexivity|].
  rewrite drawStarField_cons, drawStarField_nil, farStar_turn. cbn [fst snd app].
  assert (Rltb 0.06 (orbitReveal warpFrame) = false) as ->
    by (apply Rltb_false; cbn [orbitReveal warpFrame]; lra).
  reflexivity.
Qed.

(** C4, amended.  For a configured depth other than 0: the shapes of a
    frame are those of the turns of the stars, in order, followed by the
    vignette and the halo.  A star whose projected position, after the depth
    advance and the recycling of a star with [z <= 1], is more than 120 px
    outside the viewport is recycled and nothing is painted for it.  Every
    other star is painted, exactly one body (a filled dot, or the V-logo
    stamp for a logo star once the stamp is ready) centred on its projected
    position, and before it a streak from its previous projected position
    to the current one exactly when [warpStrength > 0.07], the star entered
    the frame initialized and was not recycled in it, and reduced motion is
    off. *)
Theorem streak_for_painted_initialized_stars :
  forall (sc : Scene) (a : FieldArgs) (rnd : Random),
    depth (stars (config sc)) <> 0 ->
    let d := depth (stars (config sc)) in
    let out := fun p : R * R =>
      fst p < -120 \/ fst p > width sc + 120
      \/ snd p < -120 \/ snd p > height sc + 120 in
    let bodyOf := fun (s : Star) (p : R * R) (body : Effect) =>
      (Star.isVLogo s = true /\ vStampReady sc = true ->
         exists side alpha,
           body = DrawStamp (fst p - side * 0.5) (snd p - side * 0.5) side alpha)
      /\ (~ (Star.isVLogo s = true /\ vStampReady sc = true) ->
            exists radius alpha, body = FillCircle (fst p) (snd p) radius alpha) in
    (forall k,
       snd (drawStarField sc a rnd [] k)
       = FillVignette :: (if Rltb 0.06 (orbitReveal a) then [FillHalo] else []))
    /\ (forall star rest k,
          snd (drawStarField sc a rnd (star :: rest) k)
          = snd (starStep sc a rnd star k)
              ++ snd (drawStarField sc a rnd rest (snd (fst (starStep sc a rnd star k)))))
    /\ (forall star k,
          let moved := advance sc a star in
          let near := fst (resetStar moved d (spread sc) rnd k) in
          let effects := snd (starStep sc a rnd star k) in
          let streaked :=
            warpStrength a > 0.07 /\ Star.initialized star = true
            /\ reduceMotion sc = false in
          (1 < Star.z moved ->
             let p := project sc moved in
             (out p -> effects = [ResetStar])
             /\ (~ out p ->
                   exists body,
                     bodyOf moved p body
                     /\ (streaked ->
                           exists lineWidth alpha,
                             effects
                             = [StrokeLine (Star.prevX star) (Star.prevY star)
                                  (fst p) (snd p) lineWidth alpha; body])
                     /\ (~ streaked -> effects = [body])))
          /\ (Star.z moved <= 1 ->
                let p := project sc near in
                (out p -> effects = [ResetStar; ResetStar])
                /\ (~ out p ->
                      exists body,
                        bodyOf near p body /\ effects = [ResetStar; body]))).
Proof.
  intros sc a rnd Hd d out bodyOf.
  split; [|split].
  - intros k. rewrite drawStarField_nil. reflexivity.
  - intros star rest k. rewrite drawStarField_cons. reflexivity.
  - intros star k moved near effects streaked.
    subst effects.
    rewrite (starStep_cases sc a rnd star k). fold moved. fold d. fold near.
    pose proof (offScreen_out sc (project sc moved)) as Omoved.
    pose proof (offScreen_out sc (project sc near)) as Onear.
    fold (out (project sc moved)) in Omoved.
    fold (out (project sc near)) in Onear.
    split.
    + intros Hz p. subst p.
      assert (Rleb (Star.z moved) 1 = false) as -> by (now apply Rleb_false).
      destruct (offScreen sc (project sc moved)) eqn:Eoff; cbn [fst snd].
      * split; [reflexivity|].
        intros Hn. exfalso. apply Hn. now apply Omoved.
      * split; [intros Ho; apply Omoved in Ho; congruence|].
        intros _.
        destruct (paintStar_painted sc a moved (project sc moved))
          as [lw [al [body [Hstamp [Hdot Heff]]]]].
        exists body. split; [split; assumption|].
        rewrite Heff.
        change (Star.initialized moved) with (Star.initialized star).
        change (Star.prevX moved) with (Star.prevX star).
        change (Star.prevY moved) with (Star.prevY star).
        pose proof (streak_guard sc a star) as Hguard.
        unfold streakCondition in Hguard. fold streaked in Hguard.
        destruct (Rltb 0.07 (warpStrength a) && Star.initialized star
                  && negb (reduceMotion sc)).
        -- split; [intros _; exists lw, al; reflexivity|].
           intros Hn. exfalso. apply Hn. now apply Hguard.
        -- split; [|intros _; reflexivity].
           intros Hs. apply Hguard in Hs. discriminate Hs.
    + intros Hz p. subst p.
      assert (Rleb (Star.z moved) 1 = true) as -> by (now apply Rleb_true).
      destruct (offScreen sc (project sc near)) eqn:Eoff; cbn [fst snd].
      * split; [reflexivity|].
        intros Hn. exfalso. apply Hn. now apply Onear.
      * split; [intros Ho; apply Onear in Ho; congruence|].
        intros _.
        destruct (paintStar_painted sc a near (project sc near))
          as [lw [al [body [Hstamp [Hdot Heff]]]]].
        exists body. split; [split; assumption|].
        rewrite Heff.
        change (Star.initialized near) with false.
        rewrite andb_false_r. reflexivity.
Qed.

(** At full warp the initialized star at [(0, 0, 200)] stays on the view
    axis, moves to [z = 135.44] and is painted with a streak. *)
Lemma streak_witness :
  depth (stars (config sampleScene)) <> 0
  /\ exists body lineWidth alpha,
       snd (starStep sampleScene warpFrame halves (Star.mk 0 0 200 1 0 0 0 true false 0) 0)
       = [StrokeLine 0 0 640 360 lineWidth alpha; body].
Proof.
  assert (depth (stars (config sampleScene)) <> 0) as H0
    by (cbn [depth stars config sampleScene defaultConfig]; lra).
  split; [exact H0|].
  destruct (streak_for_painted_initialized_stars sampleScene warpFrame halves H0)
    as [_ [_ Hturn]].
  destruct (Hturn (Star.mk 0 0 200 1 0 0 0 true false 0) 0%nat) as [Hfar _].
  assert (Star.z (advance sampleScene warpFrame (Star.mk 0 0 200 1 0 0 0 true false 0))
          = 135.44) as Hz.
  { unfold advance, speed, speedStageMaxBoost, sampleScene, warpFrame, defaultConfig.
    cbn [Star.z Star.size scrollEnergy pointerEnergy sequenceBoost
         stageSpeedNormalized warpStrength warpBoost stars config orbitDampen
         baseSpeed delta].
    lra. }
  assert (project sampleScene
            (advance sampleScene warpFrame (Star.mk 0 0 200 1 0 0 0 true false 0))
          = (640, 360)) as Hp.
  { unfold project.
    cbn [Star.x Star.y advance width height mouseX mouseY sampleScene].
    set (parallax := 1 + _ * 1.8). set (projection := _ / _).
    f_equal.
    - replace (0 + 0 * 28 * parallax) with 0 by lra. lra.
    - replace (0 + 0 * 24 * parallax) with 0 by lra. lra. }
  destruct Hfar as [_ Hpaint]; [rewrite Hz; lra|].
  rewrite Hp in Hpaint. cbn [fst snd] in Hpaint.
  destruct Hpaint as [body [_ [Hstreak _]]].
  - cbn [width height sampleScene]. lra.
  - destruct Hstreak as [lw [al Heff]].
    + repeat split. cbn [warpStrength warpFrame]. lra.
    + exists body, lw, al. exact Heff.
Defined.

(* ================================================================== *)
(** ** [parseConfig] *)

Lemma coalesce_populated (v d : value) :
  nullish d = false -> nullish (coalesce v d) = false.
Proof.
  intros Hd. unfold coalesce. destruct (nullish v) eqn:E; assumption.
Qed.

Lemma coalesce_missing (v d : value) : nullish v = true -> coalesce v d = d.
Proof. intros Hv. unfold coalesce. now rewrite Hv. Qed.

Lemma coalesce_present (v d : value) : nullish v = false -> coalesce v d = v.
Proof. intros Hv. unfold coalesce. now rewrite Hv. Qed.

Lemma getProp_defined (v : value) (key : string) :
  nullish v = false -> getProp v key = Some (optProp v key).
Proof. intros Hv. unfold optProp. destruct v; try discriminate Hv; reflexivity. Qed.

Lemma buildConfig_throws (parsed : value) :
  nullish parsed = true -> buildConfig parsed = None.
Proof. intros Hp. destruct parsed; try discriminate Hp; reflexivity. Qed.

Lemma direct_defined (parsed : value) (key : string) (d : value) :
  nullish parsed = false ->
  direct parsed key d = Some (coalesce (fieldAt parsed [key]) d).
Proof.
  intros Hp. unfold direct. rewrite (getProp_defined parsed key Hp). reflexivity.
Qed.

Lemma nested_defined (parsed : value) (group key : string) (d : value) :
  nullish parsed = false ->
  nested parsed group key d = Some (coalesce (fieldAt parsed [group; key]) d).
Proof.
  intros Hp. unfold nested. rewrite (getProp_defined parsed group Hp). reflexivity.
Qed.

Lemma fieldAt_undefined (path : list string) :
  path <> [] -> fieldAt VUndefined path = VUndefined /\ fieldAt VNull path = VUndefined.
Proof.
  intros Hne. destruct path as [|k rest]; [contradiction|]. clear Hne.
  assert (forall l, fieldAt VUndefined l = VUndefined) as Hu.
  { induction l as [|k' l IH]; [reflexivity | exact IH]. }
  split; cbn [fieldAt]; apply Hu.
Qed.

(** What the body of [try] returns for a value that does not make it
    throw. *)
Lemma buildConfig_defined (parsed : value) :
  nullish parsed = false ->
  exists c,
    buildConfig parsed = Some c
    /\ Forall (fun path =>
                 fieldAt c path
                 = coalesce (fieldAt parsed path)
                     (fieldAt (configValue defaultConfig) path))
         configFields.
Proof.
  intros Hp. unfold buildConfig.
  rewrite !(direct_defined _ _ _ Hp), !(nested_defined _ _ _ _ Hp).
  cbn [bind]. eexists. split; [reflexivity|].
  unfold configFields. repeat constructor.
Qed.

Lemma default_populated :
  Forall (fun path => nullish (fieldAt (configValue defaultConfig) path) = false)
    configFields.
Proof. unfold configFields. repeat constructor. Qed.

(** Every field of the result of the [try] ... [catch] is the parsed field
    when that is neither [undefined] nor [null], and the default
    otherwise. *)
Lemma caught_fields (parsed : value) :
  Forall (fun path =>
            fieldAt (match buildConfig parsed with
                     | Some c => c
                     | None => configValue defaultConfig
                     end) path
            = coalesce (fieldAt parsed path)
                (fieldAt (configValue defaultConfig) path))
    configFields.
Proof.
  destruct (nullish parsed) eqn:Hp.
  - rewrite (buildConfig_throws parsed Hp).
    apply Forall_forall. intros path Hin.
    assert (path <> []) as Hne.
    { intros ->. unfold configFields in Hin. cbn in Hin.
      repeat (destruct Hin as [Hin | Hin]; [discriminate Hin|]). exact Hin. }
    destruct (fieldAt_undefined path Hne) as [Hu Hn].
    destruct parsed; try discriminate Hp; rewrite ?Hu, ?Hn; reflexivity.
  - destruct (buildConfig_defined parsed Hp) as [c [-> Hc]]. exact Hc.
Qed.

(** C9. [parseConfig] returns a configuration for every wrapper: the default
    one when the attribute is absent or empty, when [JSON.parse] throws, and
    when reading the parsed value throws; otherwise each of the fifteen
    fields is the parsed one if present and the default one if missing
    (also when the whole group [animation], [stars] or [orbit] is missing).
    In every case no field of the result is [undefined] or [null]. *)
Theorem parseConfig_total_with_defaults :
  forall (JSON_parse : string -> option value) (wrapper : HTMLElement),
    let result := parseConfig JSON_parse wrapper in
    let D := configValue defaultConfig in
    (getAttribute wrapper "data-motion-config" = None -> result = D)
    /\ (forall raw, getAttribute wrapper "data-motion-config" = Some raw ->
          JSON_parse raw = None -> result = D)
    /\ (forall raw parsed,
          getAttribute wrapper "data-motion-config" = Some raw ->
          raw <> EmptyString ->
          JSON_parse raw = Some parsed ->
          Forall (fun path =>
                    (nullish (fieldAt parsed path) = true ->
                       fieldAt result path = fieldAt D path)
                    /\ (nullish (fieldAt parsed path) = false ->
                          fieldAt result path = fieldAt parsed path))
            configFields)
    /\ Forall (fun path => nullish (fieldAt result path) = false) configFields.
Proof.
  intros JSON_parse wrapper result D.
  split; [|split; [|split]].
  - intros Habsent. unfold result, parseConfig. now rewrite Habsent.
  - intros raw Hraw Hthrow. unfold result, parseConfig. rewrite Hraw, Hthrow.
    destruct (String.eqb raw EmptyString); reflexivity.
  - intros raw parsed Hraw Hne Hparse.
    unfold result, parseConfig. rewrite Hraw, Hparse.
    apply String.eqb_neq in Hne. rewrite Hne.
    eapply Forall_impl; [|apply (caught_fields parsed)].
    intros path Heq. cbv beta in Heq. rewrite Heq. split; intros Hn.
    + now apply coalesce_missing.
    + now apply coalesce_present.
  - unfold result, parseConfig.
    destruct (getAttribute wrapper "data-motion-config") as [raw|];
      [|apply default_populated].
    destruct (String.eqb raw EmptyString); [apply default_populated|].
    destruct (JSON_parse raw) as [parsed|]; [|apply default_populated].
    pose proof (caught_fields parsed) as Hc.
    pose proof default_populated as Hd.
    rewrite Forall_forall in *. intros path Hin.
    rewrite (Hc path Hin). apply coalesce_populated. exact (Hd path Hin).
Qed.

(** A wrapper whose attribute sets only [stars.depth]: the depth is kept and
    the base speed is the default one. *)
Lemma parseConfig_witness :
  fieldAt (parseConfig sampleParse sampleWrapper) ["stars"; "depth"]%string = VNum 900
  /\ fieldAt (parseConfig sampleParse sampleWrapper) ["stars"; "baseSpeed"]%string
     = VNum 0.28.
Proof.
  destruct (parseConfig_total_with_defaults sampleParse sampleWrapper)
    as [_ [_ [Hfields _]]].
  specialize (Hfields sampleText
                (VObj [("stars", VObj [("depth", VNum 900)])])%string).
  rewrite Forall_forall in Hfields.
  assert (getAttribute sampleWrapper "data-motion-config" = Some sampleText) as H1
    by reflexivity.
  assert (sampleText <> EmptyString) as H2 by discriminate.
  assert (sampleParse sampleText
          = Some (VObj [("stars", VObj [("depth", VNum 900)])])%string) as H3
    by reflexivity.
  specialize (Hfields H1 H2 H3).
  split.
  - destruct (Hfields ["stars"; "depth"]%string) as [_ Hkept].
    + unfold configFields. cbn. tauto.
    + apply Hkept. reflexivity.
  - destruct (Hfields ["stars"; "baseSpeed"]%string) as [Hdefault _].
    + unfold configFields. cbn. tauto.
    + apply Hdefault. reflexivity.
Defined.

(* ================================================================== *)
(** ** Ring assignment *)

Section Arrays.

Context {A : Type}.

Lemma setAt_length (arr : list A) (i : nat) (v : A) :
  List.length (setAt arr i v) = List.length arr.
Proof.
  revert i. induction arr as [|x arr IH]; intros [|i]; simpl; auto.
Qed.

Lemma setAt_same (arr : list A) (i : nat) (v : A) :
  (i < List.length arr)%nat -> nth_error (setAt arr i v) i = Some v.
Proof.
  revert i. induction arr as [|x arr IH]; intros [|i] Hlt; simpl in *;
    try lia; auto.
  apply IH. lia.
Qed.

Lemma setAt_other (arr : list A) (i j : nat) (v : A) :
  i <> j -> nth_error (setAt arr i v) j = nth_error arr j.
Proof.
  revert i j. induction arr as [|x arr IH]; intros [|i] [|j] Hne; simpl;
    try reflexivity; try contradiction.
  apply IH. lia.
Qed.

End Arrays.

Section Buckets.

Lemma pushAt_some (buckets : list (list nat)) (r i : nat) :
  (r < List.length buckets)%nat ->
  exists b, pushAt buckets r i = Some b.
Proof.
  revert r. induction buckets as [|x buckets IH]; intros [|r] Hlt; simpl in *;
    try lia.
  - eexists. reflexivity.
  - destruct (IH r) as [b Hb]; [lia|]. rewrite Hb. eexists. reflexivity.
Qed.

Lemma pushAt_spec (buckets b : list (list nat)) (r i : nat) :
  pushAt buckets r i = Some b ->
  List.length b = List.length buckets
  /\ forall q, nth_error b q
               = if Nat.eqb q r
                 then option_map (fun l => l ++ [i]) (nth_error buckets q)
                 else nth_error buckets q.
Proof.
  revert b r. induction buckets as [|x buckets IH]; intros b [|r] Hpush;
    simpl in Hpush; try discriminate.
  - injection Hpush as <-. split; [reflexivity|].
    intros [|q]; reflexivity.
  - destruct (pushAt buckets r i) as [b'|] eqn:E; [|discriminate].
    injection Hpush as <-. destruct (IH b' r E) as [Hlen Hnth].
    split; [simpl; now rewrite Hlen|].
    intros [|q]; [reflexivity|]. simpl. apply Hnth.
Qed.

(** After the second [forEach], bucket [q] holds what it held before,
    followed by the nodes assigned to ring [q], in order. *)
Lemma fillBuckets_spec (assignments : list (option Z)) :
  forall (i : nat) (buckets b : list (list nat)),
    fillBuckets assignments i buckets = Some b ->
    List.length b = List.length buckets
    /\ forall q, nth_error b q
                 = option_map (fun l => l ++ members assignments i (Z.of_nat q))
                     (nth_error buckets q).
Proof.
  induction assignments as [|r rest IH]; intros i buckets b Hfill;
    simpl in Hfill.
  - injection Hfill as <-. split; [reflexivity|].
    intros q. simpl. destruct (nth_error buckets q); simpl;
      [now rewrite app_nil_r | reflexivity].
  - unfold bind in Hfill.
    destruct (pushBucket buckets r i) as [b1|] eqn:Epush; [|discriminate].
    destruct (IH (S i) b1 b Hfill) as [Hlen Hnth].
    unfold pushBucket in Epush.
    destruct r as [r|]; [|discriminate].
    destruct (Z.ltb_spec r 0) as [Hneg|Hpos]; [discriminate|].
    destruct (pushAt_spec _ _ _ _ Epush) as [Hlen1 Hnth1].
    split; [congruence|].
    intros q. rewrite Hnth, Hnth1. cbn [members].
    destruct (Nat.eqb_spec q (Z.to_nat r)) as [Eq|Ne].
    + assert (Z.eqb r (Z.of_nat q) = true) as -> by (apply Z.eqb_eq; lia).
      destruct (nth_error buckets q); simpl; [|reflexivity].
      now rewrite <- app_assoc.
    + assert (Z.eqb r (Z.of_nat q) = false) as -> by (apply Z.eqb_neq; lia).
      reflexivity.
Qed.

Lemma fillBuckets_some (assignments : list (option Z)) :
  forall (i : nat) (buckets : list (list nat)),
    (forall a, In a assignments ->
       exists r, a = Some r /\ (0 <= r < Z.of_nat (List.length buckets))%Z) ->
    exists b, fillBuckets assignments i buckets = Some b.
Proof.
  induction assignments as [|a rest IH]; intros i buckets Hvalid; simpl.
  - eexists. reflexivity.
  - destruct (Hvalid a) as [r [-> Hr]]; [now left|].
    unfold pushBucket.
    destruct (Z.ltb_spec r 0) as [Hneg|_]; [lia|].
    destruct (pushAt_some buckets (Z.to_nat r) i) as [b1 Hb1]; [lia|].
    rewrite Hb1. cbn [bind].
    destruct (pushAt_spec _ _ _ _ Hb1) as [Hlen _].
    apply IH. intros a' Hin. rewrite Hlen. apply Hvalid. now right.
Qed.

Lemma members_bounds (assignments : list (option Z)) (r : Z) :
  forall i j, In j (members assignments i r) ->
              (i <= j < i + List.length assignments)%nat
              /\ nth_error assignments (j - i) = Some (Some r).
Proof.
  induction assignments as [|q rest IH]; intros i j Hin; simpl in Hin.
  - contradiction.
  - assert (In j (members rest (S i) r) ->
            (i <= j < i + List.length (q :: rest))%nat
            /\ nth_error (q :: rest) (j - i) = Some (Some r)) as Hrest.
    { intros H. destruct (IH (S i) j H) as [Hb Hn]. simpl. split; [lia|].
      replace (j - i)%nat with (S (j - S i)) by lia. exact Hn. }
    destruct q as [q|]; [|now apply Hrest].
    destruct (Z.eqb_spec q r) as [->|Hne]; [|now apply Hrest].
    destruct Hin as [<- | Hin]; [|now apply Hrest].
    simpl. split; [lia|]. now rewrite Nat.sub_diag.
Qed.

Lemma members_complete (assignments : list (option Z)) (r : Z) :
  forall i k, nth_error assignments k = Some (Some r) ->
              In (i + k)%nat (members assignments i r).
Proof.
  induction assignments as [|q rest IH]; intros i [|k] Hk; simpl in Hk;
    try discriminate.
  - injection Hk as ->. simpl. rewrite Z.eqb_refl, Nat.add_0_r. now left.
  - specialize (IH (S i) k Hk).
    replace (i + S k)%nat with (S i + k)%nat by lia.
    simpl. destruct q as [q|]; [destruct (Z.eqb q r)|]; auto. now right.
Qed.

Lemma members_NoDup (assignments : list (option Z)) (r : Z) :
  forall i, NoDup (members assignments i r).
Proof.
  induction assignments as [|q rest IH]; intros i; simpl.
  - constructor.
  - destruct q as [q|]; [destruct (Z.eqb q r)|]; try apply IH.
    constructor; [|apply IH].
    intros Hin. apply members_bounds in Hin. lia.
Qed.

(** The recursive reading of a bucket and the one by filtering agree. *)
Lemma members_filter (pre rest : list (option Z)) (r : Z) :
  filter (fun i => match nth_error (pre ++ rest) i with
                   | Some (Some q) => Z.eqb q r
                   | _ => false
                   end)
         (seq (List.length pre) (List.length rest))
  = members rest (List.length pre) r.
Proof.
  revert pre. induction rest as [|q rest IH]; intros pre; simpl.
  - reflexivity.
  - rewrite nth_error_app2 by lia. rewrite Nat.sub_diag. simpl.
    specialize (IH (pre ++ [q])).
    rewrite <- app_assoc in IH. simpl in IH.
    rewrite length_app in IH. simpl in IH.
    rewrite Nat.add_1_r in IH.
    destruct q as [q|]; [destruct (Z.eqb q r)|]; rewrite IH; reflexivity.
Qed.

Lemma nodesOnRing_members (assignments : list (option Z)) (r : Z) :
  nodesOnRing assignments r = members assignments 0 r.
Proof. exact (members_filter [] assignments r). Qed.

End Buckets.

Section Spacing.

Lemma spaceBucket_length (len : nat) (bucket : list nat) :
  forall pos angles,
    List.length (spaceBucket len bucket pos angles) = List.length angles.
Proof.
  induction bucket as [|x rest IH]; intros pos angles; simpl.
  - reflexivity.
  - rewrite IH. apply setAt_length.
Qed.

Lemma spaceBucket_untouched (len : nat) (bucket : list nat) (j : nat) :
  ~ In j bucket ->
  forall pos angles,
    nth_error (spaceBucket len bucket pos angles) j = nth_error angles j.
Proof.
  induction bucket as [|x rest IH]; intros Hnot pos angles; simpl.
  - reflexivity.
  - rewrite IH by (intros H; apply Hnot; now right).
    apply setAt_other. intros ->. apply Hnot. now left.
Qed.

Lemma spaceBucket_written (len : nat) (bucket : list nat) (j : nat) :
  NoDup bucket ->
  forall k pos angles,
    nth_error bucket k = Some j ->
    (j < List.length angles)%nat ->
    nth_error (spaceBucket len bucket pos angles) j
    = Some (Some (ringAngle (pos + k) len)).
Proof.
  induction bucket as [|x rest IH]; intros Hnd k pos angles Hk Hlt.
  - destruct k; discriminate Hk.
  - inversion Hnd as [|? ? Hnotin Hnd']; subst. simpl.
    destruct k as [|k]; simpl in Hk.
    + injection Hk as ->.
      rewrite spaceBucket_untouched by exact Hnotin.
      rewrite Nat.add_0_r. now apply setAt_same.
    + rewrite (IH Hnd' k (S pos)); [|exact Hk | now rewrite setAt_length].
      now replace (S pos + k)%nat with (pos + S k)%nat by lia.
Qed.

Lemma spaceRings_length (buckets : list (list nat)) :
  forall angles, List.length (spaceRings buckets angles) = List.length angles.
Proof.
  unfold spaceRings.
  induction buckets as [|b rest IH]; intros angles; simpl.
  - reflexivity.
  - rewrite IH. apply spaceBucket_length.
Qed.

Lemma spaceRings_untouched (buckets : list (list nat)) (j : nat) :
  (forall b, In b buckets -> ~ In j b) ->
  forall angles, nth_error (spaceRings buckets angles) j = nth_error angles j.
Proof.
  unfold spaceRings.
  induction buckets as [|b rest IH]; intros Hnot angles; simpl.
  - reflexivity.
  - rewrite IH by (intros b' Hb'; apply Hnot; now right).
    apply spaceBucket_untouched. apply Hnot. now left.
Qed.

(** A node that sits in one bucket only gets the angle of its position
    there. *)
Lemma spaceRings_written (buckets : list (list nat)) (j : nat) :
  forall (r : nat) (b : list nat) (k : nat) (angles : list (option R)),
    nth_error buckets r = Some b ->
    NoDup b ->
    nth_error b k = Some j ->
    (j < List.length angles)%nat ->
    (forall r' b', r' <> r -> nth_error buckets r' = Some b' -> ~ In j b') ->
    nth_error (spaceRings buckets angles) j
    = Some (Some (ringAngle k (List.length b))).
Proof.
  induction buckets as [|x rest IH]; intros r b k angles Hr Hnd Hk Hlt Hother.
  - destruct r; discriminate Hr.
  - change (spaceRings (x :: rest) angles)
      with (spaceRings rest (spaceBucket (List.length x) x 0 angles)).
    destruct r as [|r]; simpl in Hr.
    + injection Hr as ->.
      rewrite spaceRings_untouched.
      * now apply (spaceBucket_written (List.length b) b j Hnd k 0%nat).
      * intros b' Hb'. apply In_nth_error in Hb'. destruct Hb' as [q Hq].
        apply (Hother (S q) b'); [lia | exact Hq].
    + apply (IH r b k); try assumption.
      * now rewrite spaceBucket_length.
      * intros r' b' Hne Hb'. apply (Hother (S r') b'); [lia | exact Hb'].
Qed.

Lemma ringAngle_injective (k1 k2 len : nat) :
  (0 < len)%nat -> ringAngle k1 len = ringAngle k2 len -> k1 = k2.
Proof.
  intros Hlen Heq. unfold ringAngle in Heq.
  replace (Nat.max len 1) with len in Heq by lia.
  pose proof PI_RGT_0 as Hpi.
  assert (0 < INR len) as Hl by (now apply lt_0_INR).
  apply INR_eq.
  assert (INR k1 / INR len = INR k2 / INR len) as Hq by nra.
  unfold Rdiv in Hq. apply Rmult_eq_reg_r in Hq; [exact Hq|].
  apply Rinv_neq_0_compat. lra.
Qed.

End Spacing.

Lemma parseInt10_example : parseInt10 " 2nd"%string = Some 2%Z.
Proof. reflexivity. Qed.

Lemma ringOf_example : ringOf (Some "3"%string) = Some 2%Z.
Proof. reflexivity. Qed.

Lemma parseInt10_skips_wide_space :
  parseInt10 paddedRing = Some 3%Z /\ ringOf (Some paddedRing) = Some 2%Z.
Proof. split; reflexivity. Qed.

(** C8, as stated, fails for a node whose ring is not configured: with
    three rings a node with [data-ring] 4 has ring index 3, for which there
    is no bucket, and with one ring a node without the attribute has ring
    index 1; in both calls [ringBuckets[idx].push] throws and no node gets
    an angle. *)
Lemma unconfigured_ring_throws :
  ringOf (Some "4"%string) = Some 3%Z
  /\ assignNodesToRings 3 [Some "4"%string] = None
  /\ ringOf None = Some 1%Z
  /\ assignNodesToRings 1 [None] = None.
Proof. repeat split. Qed.

(** C8, amended.  When every node's ring index names a configured ring,
    [assignNodesToRings] succeeds; the index it records for a node is 1
    when [data-ring] is absent and the parsed attribute minus one otherwise;
    the [k]-th of the [n] nodes of a ring gets the base angle
    [(k / n) * 2 PI - PI / 2]; and two distinct nodes of one ring get
    different base angles. *)
Theorem assignNodesToRings_even_spacing :
  forall (ringCount : nat) (nodes : list (option string)),
    (forall attr, In attr nodes ->
       exists r, ringOf attr = Some r /\ (0 <= r < Z.of_nat ringCount)%Z) ->
    ringOf None = Some 1%Z
    /\ (forall s n, s <> EmptyString -> parseInt10 s = Some n ->
          ringOf (Some s) = Some (n - 1)%Z)
    /\ exists assignments angles,
         assignNodesToRings ringCount nodes = Some (assignments, angles)
         /\ assignments = map ringOf nodes
         /\ List.length angles = List.length nodes
         /\ (forall r k i,
               nth_error (nodesOnRing assignments r) k = Some i ->
               nth_error angles i
               = Some (Some (INR k / INR (List.length (nodesOnRing assignments r))
                             * PI * 2 - PI / 2)))
         /\ (forall i j r ai aj,
               i <> j ->
               nth_error assignments i = Some (Some r) ->
               nth_error assignments j = Some (Some r) ->
               nth_error angles i = Some (Some ai) ->
               nth_error angles j = Some (Some aj) ->
               ai <> aj).
Proof.
  intros ringCount nodes Hnodes.
  split; [reflexivity|].
  split.
  { intros s n Hne Hparse. unfold ringOf.
    apply String.eqb_neq in Hne. rewrite Hne, Hparse. reflexivity. }
  set (assignments := map ringOf nodes).
  assert (forall a, In a assignments ->
            exists r, a = Some r /\ (0 <= r < Z.of_nat ringCount)%Z) as Hvalid.
  { intros a Hin. apply in_map_iff in Hin. destruct Hin as [attr [<- Hattr]].
    destruct (Hnodes attr Hattr) as [r [Hr Hrange]]. now exists r. }
  destruct (fillBuckets_some assignments 0 (repeat [] ringCount)) as [b Hb].
  { intros a0 Hin. rewrite repeat_length. now apply Hvalid. }
  destruct (fillBuckets_spec assignments 0 _ b Hb) as [_ Hbucket].
  set (angles := spaceRings b (repeat None (List.length nodes))).
  assert (List.length angles = List.length nodes) as Hlen
    by (unfold angles; now rewrite spaceRings_length, repeat_length).
  assert (forall q, (q < ringCount)%nat ->
            nth_error b q = Some (members assignments 0 (Z.of_nat q))) as Hin_range.
  { intros q Hq. rewrite Hbucket, nth_error_repeat by exact Hq. reflexivity. }
  assert (forall q b', nth_error b q = Some b' ->
            b' = members assignments 0 (Z.of_nat q)) as Hany.
  { intros q b' Hq. rewrite Hbucket in Hq.
    destruct (nth_error (repeat [] ringCount) q) as [l|] eqn:El; [|discriminate].
    apply nth_error_In, repeat_spec in El. subst l.
    injection Hq as <-. reflexivity. }
  assert (forall r k i,
            nth_error (members assignments 0 r) k = Some i ->
            nth_error angles i
            = Some (Some (ringAngle k (List.length (members assignments 0 r)))))
    as Hangle.
  { intros r k i Hk.
    pose proof (nth_error_In _ _ Hk) as Hin.
    destruct (members_bounds assignments r 0 i Hin) as [Hbound Hassign].
    rewrite Nat.sub_0_r in Hassign.
    destruct (Hvalid (Some r)) as [r0 [Er Hrange]];
      [eapply nth_error_In; exact Hassign|].
    injection Er as <-.
    pose proof (Hin_range (Z.to_nat r)) as Hq.
    rewrite Z2Nat.id in Hq by lia.
    apply (spaceRings_written b i (Z.to_nat r) (members assignments 0 r) k).
    - apply Hq. lia.
    - apply members_NoDup.
    - exact Hk.
    - rewrite repeat_length. unfold assignments in Hbound.
      rewrite length_map in Hbound. lia.
    - intros r' b' Hne Hb' Hini. apply Hany in Hb'. subst b'.
      destruct (members_bounds assignments _ 0 i Hini) as [_ Hassign'].
      rewrite Nat.sub_0_r in Hassign'. rewrite Hassign in Hassign'.
      injection Hassign' as Hr. apply Hne. lia. }
  exists assignments, angles.
  split.
  { unfold assignNodesToRings. fold assignments. rewrite Hb. reflexivity. }
  split; [reflexivity|].
  split; [exact Hlen|].
  split.
  - intros r k i Hk. rewrite nodesOnRing_members in *.
    rewrite (Hangle r k i Hk). unfold ringAngle.
    assert (k < List.length (members assignments 0 r))%nat as Hpos
      by (apply nth_error_Some; rewrite Hk; discriminate).
    replace (Nat.max (List.length (members assignments 0 r)) 1)
      with (List.length (members assignments 0 r)) by lia.
    reflexivity.
  - intros i j r ai aj Hne Hi Hj Hai Haj Heq.
    pose proof (members_complete assignments r 0 i Hi) as Mi.
    pose proof (members_complete assignments r 0 j Hj) as Mj.
    cbn [Nat.add] in Mi, Mj.
    apply In_nth_error in Mi. destruct Mi as [ki Hki].
    apply In_nth_error in Mj. destruct Mj as [kj Hkj].
    rewrite (Hangle r ki i Hki) in Hai. injection Hai as <-.
    rewrite (Hangle r kj j Hkj) in Haj. injection Haj as <-.
    apply ringAngle_injective in Heq.
    + subst kj. rewrite Hki in Hkj. injection Hkj as ->. now apply Hne.
    + assert (ki < List.length (members assignments 0 r))%nat
        by (apply nth_error_Some; rewrite Hki; discriminate).
      lia.
Qed.

(** Three rings and the four sample nodes: the call succeeds and the nodes
    land on rings 0, 1, 1 and 1. *)
Lemma assignNodesToRings_witness :
  (forall attr, In attr sampleNodes ->
     exists r, ringOf attr = Some r /\ (0 <= r < Z.of_nat 3)%Z)
  /\ exists angles,
       assignNodesToRings 3 sampleNodes
       = Some ([Some 0; Some 1; Some 1; Some 1]%Z, angles)
       /\ List.length angles = 4%nat.
Proof.
  assert (forall attr, In attr sampleNodes ->
            exists r, ringOf attr = Some r /\ (0 <= r < Z.of_nat 3)%Z) as Hvalid.
  { intros attr Hin. unfold sampleNodes in Hin. cbn [In] in Hin.
    destruct Hin as [<- | [<- | [<- | [<- | []]]]];
      eexists; (split; [reflexivity | cbn; lia]). }
  split; [exact Hvalid|].
  destruct (assignNodesToRings_even_spacing 3 sampleNodes Hvalid)
    as [_ [_ [assignments [angles [Hrun [Hmap [Hlen _]]]]]]].
  exists angles. split; [|exact Hlen].
  rewrite Hrun, Hmap. reflexivity.
Defined.

(* ################################################################## *)
(** * Further properties of the controller *)

(* ================================================================== *)
(** ** [smoothstep] *)

Lemma cubic_range (x : R) : 0 <= x <= 1 -> 0 <= x * x * (3 - 2 * x) <= 1.
Proof.
  intros [H0 H1]. split.
  - apply Rmult_le_pos; nra.
  - assert (0 <= (1 - x) * (1 - x) * (1 + 2 * x)) by
      (apply Rmult_le_pos; nra).
    nra.
Qed.

Lemma cubic_monotone (x y : R) :
  0 <= x -> x <= y -> y <= 1 -> x * x * (3 - 2 * x) <= y * y * (3 - 2 * y).
Proof.
  intros H0 Hxy H1.
  assert (0 <= (y - x) * (3 * (x + y) - 2 * (x * x + x * y + y * y))) as H.
  { apply Rmult_le_pos; [lra|]. nra. }
  nra.
Qed.

Lemma clamp_monotone (u v lo hi : R) :
  u <= v -> clamp u lo hi <= clamp v lo hi.
Proof.
  intros Huv. unfold clamp.
  assert (Rmax lo u <= Rmax lo v) as Hm
    by (unfold Rmax; destruct (Rle_dec lo u); destruct (Rle_dec lo v); lra).
  unfold Rmin.
  destruct (Rle_dec hi (Rmax lo u)); destruct (Rle_dec hi (Rmax lo v)); lra.
Qed.

Lemma smoothstep_width_pos (edge0 edge1 : R) : 0 < Rmax (edge1 - edge0) 0.0001.
Proof. unfold Rmax. destruct (Rle_dec _ _); lra. Qed.

(** X1. [smoothstep] always lies in [[0, 1]]; it is 0 for every value at or
    below [edge0], 1 for every value at or above [edge0] plus the width
    [max(edge1 - edge0, 0.0001)] (so from [edge1] on when the edges are at
    least 0.0001 apart), and it never decreases when the value grows. *)
Theorem smoothstep_shape :
  forall edge0 edge1 : R,
    (forall v, 0 <= smoothstep edge0 edge1 v <= 1)
    /\ (forall v, v <= edge0 -> smoothstep edge0 edge1 v = 0)
    /\ (forall v, edge0 + Rmax (edge1 - edge0) 0.0001 <= v ->
          smoothstep edge0 edge1 v = 1)
    /\ (0.0001 <= edge1 - edge0 ->
          forall v, edge1 <= v -> smoothstep edge0 edge1 v = 1)
    /\ (forall u v, u <= v -> smoothstep edge0 edge1 u <= smoothstep edge0 edge1 v).
Proof.
  intros edge0 edge1.
  pose proof (smoothstep_width_pos edge0 edge1) as Hw.
  set (w := Rmax (edge1 - edge0) 0.0001) in *.
  assert (forall v, edge0 + w <= v -> smoothstep edge0 edge1 v = 1) as Hone.
  { intros v Hv. unfold smoothstep. fold w.
    rewrite clamp_above; [lra | lra |].
    apply Rmult_le_reg_r with w; [exact Hw|].
    unfold Rdiv. rewrite Rmult_assoc, Rinv_l by lra. lra. }
  split; [|split; [|split; [|split]]].
  - intros v. unfold smoothstep. apply cubic_range. apply clamp_bounds. lra.
  - intros v Hv. unfold smoothstep. fold w.
    rewrite clamp_below; [lra | lra |].
    apply Rmult_le_reg_r with w; [exact Hw|].
    unfold Rdiv. rewrite Rmult_assoc, Rinv_l by lra. lra.
  - exact Hone.
  - intros Hwide v Hv. apply Hone.
    assert (w = edge1 - edge0) as ->
      by (unfold w, Rmax; destruct (Rle_dec _ _); lra).
    lra.
  - intros u v Huv. unfold smoothstep. fold w.
    assert ((u - edge0) / w <= (v - edge0) / w) as Hq.
    { unfold Rdiv. apply Rmult_le_compat_r; [|lra].
      left. now apply Rinv_0_lt_compat. }
    pose proof (clamp_bounds ((u - edge0) / w) 0 1) as Hu.
    pose proof (clamp_bounds ((v - edge0) / w) 0 1) as Hv.
    apply cubic_monotone.
    + apply Hu. lra.
    + now apply clamp_monotone.
    + apply Hv. lra.
Qed.

Lemma smoothstep_shape_witness :
  smoothstep 0.62 0.78 0.9 = 1.
Proof.
  destruct (smoothstep_shape 0.62 0.78) as [_ [_ [_ [Hwide _]]]].
  apply Hwide; lra.
Defined.

(* ================================================================== *)
(** ** Colours *)

Lemma mod1_nonneg (x : R) : 0 <= x -> 0 <= mod1 x < 1.
Proof.
  intros Hx. unfold mod1, Math_trunc.
  destruct (Rle_dec 0 x) as [_|N]; [|contradiction].
  pose proof (Zfloor_bound x). lra.
Qed.

Lemma mod1_range (x : R) : -1 < mod1 x < 1.
Proof.
  unfold mod1, Math_trunc.
  destruct (Rle_dec 0 x) as [Hx|Hx].
  - pose proof (Zfloor_bound x). lra.
  - pose proof (Zfloor_bound (- x)). rewrite opp_IZR. lra.
Qed.

Lemma wrapped_range (value : R) : 0 <= mod1 (mod1 value + 1) < 1.
Proof. apply mod1_nonneg. pose proof (mod1_range value). lra. Qed.

Lemma colorAt_defined (palette : list ColorRGB) (i : Z) :
  (0 <= i < Z.of_nat (List.length palette))%Z ->
  exists c, colorAt palette i = Some c.
Proof.
  intros Hi. unfold colorAt.
  destruct (Z.ltb_spec i 0) as [Hneg|_]; [lia|].
  destruct (nth_error palette (Z.to_nat i)) as [c|] eqn:E; [now exists c|].
  apply nth_error_None in E. lia.
Qed.

(** X2. For a palette with at least one colour [samplePaletteColor] returns
    a colour for every value, negative ones included: both indices it reads
    lie inside the palette. *)
Theorem samplePaletteColor_in_bounds :
  forall (palette : list ColorRGB) (value : R),
    palette <> [] ->
    let last := (Z.of_nat (List.length palette) - 1)%Z in
    let scaled := mod1 (mod1 value + 1) * IZR last in
    (0 <= Math_floor scaled <= last)%Z
    /\ (0 <= Z.min last (Math_floor scaled + 1) <= last)%Z
    /\ exists c, samplePaletteColor palette value = Some c.
Proof.
  intros palette value Hne last scaled.
  assert (0 <= last)%Z as Hlast.
  { unfold last. destruct palette; [contradiction | simpl List.length; lia]. }
  pose proof (wrapped_range value) as [Hw0 Hw1].
  assert (0 <= IZR last) as HlastR by (apply IZR_le; exact Hlast).
  assert (0 <= Math_floor scaled <= last)%Z as Hidx.
  { apply Math_floor_range; unfold scaled.
    - change (IZR 0) with 0. now apply Rmult_le_pos.
    - nra. }
  split; [exact Hidx|].
  split; [lia|].
  destruct (colorAt_defined palette (Math_floor scaled)) as [a Ha];
    [unfold last in *; lia|].
  destruct (colorAt_defined palette (Z.min last (Math_floor scaled + 1)))
    as [b Hb]; [unfold last in *; lia|].
  eexists. unfold samplePaletteColor. fold last. fold scaled.
  rewrite Ha, Hb. reflexivity.
Qed.

Lemma samplePaletteColor_witness :
  exists c, samplePaletteColor [(145, 154, 176); (255, 255, 255)] (-0.25) = Some c.
Proof.
  apply samplePaletteColor_in_bounds. discriminate.
Defined.

Lemma Math_round_IZR (z : Z) : Math_round (IZR z) = z.
Proof. unfold Math_round. apply Zfloor_eq. lra. Qed.

Lemma round_between (a b : Z) (v : R) :
  Rmin (IZR a) (IZR b) <= v <= Rmax (IZR a) (IZR b) ->
  Rmin (IZR a) (IZR b) <= IZR (Math_round v) <= Rmax (IZR a) (IZR b).
Proof.
  intros [Hlo Hhi].
  assert (Rmin (IZR a) (IZR b) = IZR (Z.min a b)) as Emin.
  { unfold Rmin. destruct (Rle_dec (IZR a) (IZR b)) as [H|H].
    - apply le_IZR in H. now rewrite Z.min_l.
    - rewrite Z.min_r; [reflexivity|].
      apply Znot_gt_le. intros Hgt. apply H. apply IZR_le. lia. }
  assert (Rmax (IZR a) (IZR b) = IZR (Z.max a b)) as Emax.
  { unfold Rmax. destruct (Rle_dec (IZR a) (IZR b)) as [H|H].
    - apply le_IZR in H. now rewrite Z.max_r.
    - rewrite Z.max_l; [reflexivity|].
      apply Znot_gt_le. intros Hgt. apply H. apply IZR_le. lia. }
  rewrite Emin, Emax in *.
  assert (Z.min a b <= Math_round v <= Z.max a b)%Z as [H1 H2].
  { unfold Math_round. apply Math_floor_range; lra. }
  split; apply IZR_le; assumption.
Qed.

Lemma lerp_between (a b t : R) :
  0 <= t <= 1 -> Rmin a b <= lerp a b t <= Rmax a b.
Proof.
  intros Ht. unfold lerp, Rmin, Rmax. destruct (Rle_dec a b); split; nra.
Qed.

(** X3. With whole-number channels [lerpColor] returns its first colour at
    [t = 0] and its second at [t = 1], and for [t] in [[0, 1]] every channel
    of the blend lies between the two channels it blends. *)
Theorem lerpColor_endpoints_and_range :
  forall (a b : Z * Z * Z) (t : R),
    lerpColor (colorOfZ a) (colorOfZ b) 0 = colorOfZ a
    /\ lerpColor (colorOfZ a) (colorOfZ b) 1 = colorOfZ b
    /\ (0 <= t <= 1 ->
          let '(a0, a1, a2) := a in
          let '(b0, b1, b2) := b in
          let '(r, g, bl) := lerpColor (colorOfZ a) (colorOfZ b) t in
          Rmin (IZR a0) (IZR b0) <= r <= Rmax (IZR a0) (IZR b0)
          /\ Rmin (IZR a1) (IZR b1) <= g <= Rmax (IZR a1) (IZR b1)
          /\ Rmin (IZR a2) (IZR b2) <= bl <= Rmax (IZR a2) (IZR b2)).
Proof.
  intros [[a0 a1] a2] [[b0 b1] b2] t.
  unfold colorOfZ, lerpColor.
  split; [|split].
  - unfold lerp. rewrite !Rmult_0_r, !Rplus_0_r, !Math_round_IZR. reflexivity.
  - unfold lerp.
    replace (IZR a0 + (IZR b0 - IZR a0) * 1) with (IZR b0) by lra.
    replace (IZR a1 + (IZR b1 - IZR a1) * 1) with (IZR b1) by lra.
    replace (IZR a2 + (IZR b2 - IZR a2) * 1) with (IZR b2) by lra.
    rewrite !Math_round_IZR. reflexivity.
  - intros Ht. repeat split; apply round_between; apply lerp_between; exact Ht.
Qed.

Lemma lerpColor_witness :
  lerpColor (colorOfZ (2, 3, 6)%Z) (colorOfZ (3, 5, 10)%Z) 1
  = colorOfZ (3, 5, 10)%Z.
Proof. apply (lerpColor_endpoints_and_range (2, 3, 6)%Z (3, 5, 10)%Z 0). Defined.

(* ================================================================== *)
(** ** Pointer tracking *)

Lemma pointerStep_inRange (p : Pointer) (ev : PointerEvent) :
  pointerInRange p -> pointerInRange (pointerStep p ev).
Proof.
  unfold pointerInRange. intros [Htx [Hty [Hx [Hy He]]]].
  destruct ev as [w h cx cy| |]; cbn [pointerStep].
  - unfold pointerMove. cbn [targetMouseX targetMouseY ptrMouseX ptrMouseY ptrEnergy].
    pose proof (clamp_bounds ((cx / w - 0.5) * 2) (-1) 1).
    pose proof (clamp_bounds ((cy / h - 0.5) * 2) (-1) 1).
    pose proof (clamp_bounds (ptrEnergy p + 0.035) 0 1).
    repeat split; lra.
  - unfold pointerLeave. cbn [targetMouseX targetMouseY ptrMouseX ptrMouseY ptrEnergy].
    repeat split; lra.
  - unfold drawPointer. cbn [targetMouseX targetMouseY ptrMouseX ptrMouseY ptrEnergy].
    assert (0 <= Rmax 0 (ptrEnergy p * 0.92 - 0.002) <= 1)
      by (unfold Rmax; destruct (Rle_dec _ _); lra).
    repeat split; lra.
Qed.

(** X4. Whatever pointer moves (at any viewport size, zero included),
    pointer leaves and frames happen, in any order: the pointer target and
    the eased pointer position stay in [[-1, 1]] on both axes and the
    pointer energy stays in [[0, 1]]. *)
Theorem pointer_state_stays_in_range :
  forall evs : list PointerEvent,
    let p := runPointer evs in
    -1 <= targetMouseX p <= 1 /\ -1 <= targetMouseY p <= 1
    /\ -1 <= ptrMouseX p <= 1 /\ -1 <= ptrMouseY p <= 1
    /\ 0 <= ptrEnergy p <= 1.
Proof.
  intros evs. unfold runPointer.
  assert (pointerInRange initialPointer) as Hinit.
  { unfold pointerInRange, initialPointer.
    cbn [targetMouseX targetMouseY ptrMouseX ptrMouseY ptrEnergy].
    repeat split; lra. }
  revert Hinit. generalize initialPointer.
  induction evs as [|ev evs IH]; intros p Hp; cbn [fold_left].
  - exact Hp.
  - apply IH. now apply pointerStep_inRange.
Qed.

(* ================================================================== *)
(** ** Drag momentum *)

Lemma drawDrag_velocities (d : Drag) :
  spinVelocity (drawDrag d) = spinVelocity d * 0.95
  /\ tiltVelocity (drawDrag d) = tiltVelocity d * 0.95.
Proof. split; reflexivity. Qed.

Lemma Rabs_scale (v c : R) : 0 <= c -> Rabs (v * c) = Rabs v * c.
Proof. intros Hc. rewrite Rabs_mult, (Rabs_pos_eq c Hc). reflexivity. Qed.

Lemma drawDrag_spin_step (d : Drag) (o : R) :
  Rabs (spinOffset (drawDrag d) - o) + 19 * Rabs (spinVelocity (drawDrag d))
  <= Rabs (spinOffset d - o) + 19 * Rabs (spinVelocity d).
Proof.
  unfold drawDrag. cbn [spinOffset spinVelocity].
  rewrite (Rabs_scale (spinVelocity d) 0.95) by lra.
  destruct (Rltb 0.0001 (Rabs (spinVelocity d) * 0.95)).
  - replace (spinOffset d + spinVelocity d * 0.95 - o)
      with ((spinOffset d - o) + spinVelocity d * 0.95) by lra.
    pose proof (Rabs_triang (spinOffset d - o) (spinVelocity d * 0.95)) as Ht.
    rewrite (Rabs_scale (spinVelocity d) 0.95) in Ht by lra. lra.
  - pose proof (Rabs_pos (spinVelocity d)). lra.
Qed.

Lemma drawDrag_tilt_step (d : Drag) :
  Rabs (tiltOffsetD (drawDrag d)) + 19 * Rabs (tiltVelocity (drawDrag d))
  <= Rabs (tiltOffsetD d) + 19 * Rabs (tiltVelocity d).
Proof.
  unfold drawDrag. cbn [tiltOffsetD tiltVelocity].
  rewrite (Rabs_scale (tiltVelocity d) 0.95) by lra.
  set (moved := if Rltb 0.0001 (Rabs (tiltVelocity d) * 0.95)
                then tiltOffsetD d + tiltVelocity d * 0.95 else tiltOffsetD d).
  assert (Rabs moved <= Rabs (tiltOffsetD d) + Rabs (tiltVelocity d) * 0.95) as Hm.
  { unfold moved. destruct (Rltb _ _).
    - pose proof (Rabs_triang (tiltOffsetD d) (tiltVelocity d * 0.95)) as Ht.
      rewrite (Rabs_scale (tiltVelocity d) 0.95) in Ht by lra. exact Ht.
    - pose proof (Rabs_pos (tiltVelocity d)). lra. }
  assert (Rabs (if negb (isTouchDragging d) && negb (isMouseDragging d)
                then if Rltb (Rabs (moved * 0.97)) 0.001 then 0 else moved * 0.97
                else moved) <= Rabs moved) as Hd.
  { pose proof (Rabs_pos moved) as Hp.
    destruct (negb (isTouchDragging d) && negb (isMouseDragging d)); [|lra].
    destruct (Rltb (Rabs (moved * 0.97)) 0.001).
    - assert (Rabs 0 = 0) as -> by (apply Rabs_pos_eq; lra). exact Hp.
    - rewrite (Rabs_scale moved 0.97) by lra. lra. }
  lra.
Qed.

Lemma framesDrag_bounds (n : nat) :
  forall (d : Drag) (o : R),
    Rabs (spinOffset (framesDrag n d) - o) + 19 * Rabs (spinVelocity (framesDrag n d))
    <= Rabs (spinOffset d - o) + 19 * Rabs (spinVelocity d)
    /\ Rabs (tiltOffsetD (framesDrag n d)) + 19 * Rabs (tiltVelocity (framesDrag n d))
       <= Rabs (tiltOffsetD d) + 19 * Rabs (tiltVelocity d).
Proof.
  induction n as [|n IH]; intros d o; cbn [framesDrag].
  - split; lra.
  - destruct (IH (drawDrag d) o) as [Hs Ht].
    pose proof (drawDrag_spin_step d o). pose proof (drawDrag_tilt_step d).
    split; lra.
Qed.

(** X5. Momentum after a drag is bounded: over any number of frames the
    spin offset moves by at most 19 times the magnitude of the spin velocity
    it started with, the tilt never exceeds its starting magnitude by more
    than 19 times the starting tilt velocity, and neither velocity ever
    grows. *)
Theorem drag_momentum_is_bounded :
  forall (n : nat) (d : Drag),
    Rabs (spinOffset (framesDrag n d) - spinOffset d) <= 19 * Rabs (spinVelocity d)
    /\ Rabs (tiltOffsetD (framesDrag n d))
       <= Rabs (tiltOffsetD d) + 19 * Rabs (tiltVelocity d)
    /\ Rabs (spinVelocity (framesDrag n d)) <= Rabs (spinVelocity d)
    /\ Rabs (tiltVelocity (framesDrag n d)) <= Rabs (tiltVelocity d).
Proof.
  intros n d.
  destruct (framesDrag_bounds n d (spinOffset d)) as [Hs Ht].
  replace (spinOffset d - spinOffset d) with 0 in Hs by lra.
  assert (Rabs 0 = 0) as E0 by (apply Rabs_pos_eq; lra).
  rewrite E0 in Hs.
  pose proof (Rabs_pos (spinVelocity (framesDrag n d))).
  pose proof (Rabs_pos (tiltVelocity (framesDrag n d))).
  pose proof (Rabs_pos (spinOffset (framesDrag n d) - spinOffset d)).
  pose proof (Rabs_pos (tiltOffsetD (framesDrag n d))).
  assert (forall m e, Rabs (spinVelocity (framesDrag m e)) <= Rabs (spinVelocity e)
                      /\ Rabs (tiltVelocity (framesDrag m e)) <= Rabs (tiltVelocity e))
    as Hv.
  { induction m as [|m IH]; intros e; cbn [framesDrag]; [split; lra|].
    destruct (IH (drawDrag e)) as [K1 K2].
    destruct (drawDrag_velocities e) as [E1 E2]. rewrite E1 in K1. rewrite E2 in K2.
    rewrite (Rabs_scale (spinVelocity e) 0.95) in K1 by lra.
    rewrite (Rabs_scale (tiltVelocity e) 0.95) in K2 by lra.
    pose proof (Rabs_pos (spinVelocity e)). pose proof (Rabs_pos (tiltVelocity e)).
    split; lra. }
  destruct (Hv n d) as [Hv1 Hv2].
  repeat split; lra.
Qed.

(** X6. A drag move, by touch or by mouse, leaves the tilt within
    [[-1.2, 1.2]] whenever it acts, and adds [0.004] times the horizontal
    travel to the spin; a touch that has moved 10 px or less on both axes,
    a touch before the orbit is reached, and a mouse move without the
    button held change nothing. *)
Theorem drag_moves_clamp_tilt :
  forall (d : Drag) (cx cy : R),
    (touchMove false d cx cy = d)
    /\ (isTouchDragging d = false ->
        Rabs (cx - touchStartX d) <= 10 -> Rabs (cy - touchStartY d) <= 10 ->
        touchMove true d cx cy = d)
    /\ (touchMove true d cx cy <> d ->
        -1.2 <= tiltOffsetD (touchMove true d cx cy) <= 1.2
        /\ spinOffset (touchMove true d cx cy)
           = spinOffset d + (cx - touchStartX d) * 0.004)
    /\ (isMouseDragging d = false -> mouseMoveHandler d cx cy = d)
    /\ (isMouseDragging d = true ->
        -1.2 <= tiltOffsetD (mouseMoveHandler d cx cy) <= 1.2
        /\ spinOffset (mouseMoveHandler d cx cy)
           = spinOffset d + (cx - mouseStartX d) * 0.004).
Proof.
  intros d cx cy.
  split; [reflexivity|].
  split.
  { intros Hnd Hx Hy. unfold touchMove. cbn [negb]. rewrite Hnd. cbn [negb andb].
    assert (Rltb 10 (Rabs (cx - touchStartX d)) = false) as ->
      by (apply Rltb_false; exact Hx).
    assert (Rltb 10 (Rabs (cy - touchStartY d)) = false) as ->
      by (apply Rltb_false; exact Hy).
    reflexivity. }
  split.
  { intros Hchg. unfold touchMove in *. cbn [negb] in *.
    destruct (if negb (isTouchDragging d)
                 && (Rltb 10 (Rabs (cx - touchStartX d))
                     || Rltb 10 (Rabs (cy - touchStartY d)))
              then true else isTouchDragging d); [|contradiction].
    cbn [tiltOffsetD spinOffset].
    split; [apply clamp_bounds; lra | reflexivity]. }
  split.
  { intros Hm. unfold mouseMoveHandler. now rewrite Hm. }
  intros Hm. unfold mouseMoveHandler. rewrite Hm. cbn [negb tiltOffsetD spinOffset].
  split; [apply clamp_bounds; lra | reflexivity].
Qed.

Lemma drag_moves_witness :
  -1.2 <= tiltOffsetD (mouseMoveHandler
                         (mkDrag 0 0 1.1 0 false true 0 0 100 100) 140 0) <= 1.2.
Proof.
  apply (drag_moves_clamp_tilt (mkDrag 0 0 1.1 0 false true 0 0 100 100) 140 0).
  reflexivity.
Defined.

(* ================================================================== *)
(** ** Star-speed signals of a frame *)

Lemma smoothstep_range (e0 e1 v : R) : 0 <= smoothstep e0 e1 v <= 1.
Proof.
  unfold smoothstep. apply cubic_range. apply clamp_bounds. lra.
Qed.

Lemma baseIdx_range (count : nat) (sp : R) :
  (0 <= baseIdx count sp <= 4)%Z
  /\ (baseIdx count sp <= nextIdx count sp <= 4)%Z.
Proof.
  unfold nextIdx, baseIdx, clampZ.
  change (Z.of_nat (List.length speedStages) - 1)%Z with 4%Z. lia.
Qed.

Lemma speedAt_values (i : Z) :
  (0 <= i <= 4)%Z ->
  exists v, speedAt i = Some v /\ 1 <= v <= 100
            /\ forall j w, (i <= j <= 4)%Z -> speedAt j = Some w -> v <= w.
Proof.
  intros Hi.
  assert (i = 0 \/ i = 1 \/ i = 2 \/ i = 3 \/ i = 4)%Z
    as [-> | [-> | [-> | [-> | ->]]]] by lia;
    eexists; (split; [reflexivity|]); (split; [lra|]);
    intros j w Hj Hw;
    assert (j = 0 \/ j = 1 \/ j = 2 \/ j = 3 \/ j = 4)%Z
      as [-> | [-> | [-> | [-> | ->]]]] by lia;
    try lia; cbv [speedAt speedStages Z.ltb Z.compare Z.to_nat Pos.to_nat
                  Pos.iter_op Nat.add nth_error] in Hw;
    injection Hw as <-; lra.
Qed.

Lemma continuousSpeed_between (hold next intra : R) :
  hold <= next ->
  hold <= continuousSpeed hold next intra <= transitionPeak hold next
  /\ transitionPeak hold next <= next.
Proof.
  intros Hle.
  assert (hold <= transitionPeak hold next <= next) as [Hp1 Hp2]
    by (unfold transitionPeak; split; lra).
  split; [|exact Hp2].
  unfold continuousSpeed.
  destruct (Rltb intra flyInEnd).
  - pose proof (smoothstep_range 0 flyInEnd intra) as Hs.
    unfold lerp. split; nra.
  - destruct (Rltb intra holdEnd); [lra|].
    pose proof (smoothstep_range holdEnd 0.96 intra) as Hs.
    unfold lerp. split; nra.
Qed.

(** X7. For any number of slides (none, or more than the five speed stages)
    and any slide progress, both reads of [speedStages] in [draw] hit an
    existing stage, the next stage is never slower than the current one,
    and the star speed of the frame lies between the current hold speed and
    the transition peak, which lies below the next hold speed. *)
Theorem speed_stage_reads_in_bounds :
  forall (count : nat) (sp : R),
    (0 <= baseIdx count sp <= 4)%Z
    /\ (baseIdx count sp <= nextIdx count sp <= 4)%Z
    /\ exists hold next,
         speedAt (baseIdx count sp) = Some hold
         /\ speedAt (nextIdx count sp) = Some next
         /\ 1 <= hold /\ hold <= next /\ next <= 100
         /\ forall intra,
              hold <= continuousSpeed hold next intra <= transitionPeak hold next
              /\ transitionPeak hold next <= next.
Proof.
  intros count sp.
  destruct (baseIdx_range count sp) as [Hb Hn].
  split; [exact Hb|]. split; [exact Hn|].
  destruct (speedAt_values (baseIdx count sp) Hb) as [hold [Eh [Hh Hmono]]].
  destruct (speedAt_values (nextIdx count sp)) as [next [En [Hx _]]]; [lia|].
  exists hold, next.
  assert (hold <= next) as Hle by (apply (Hmono (nextIdx count sp)); [lia | exact En]).
  split; [exact Eh|]. split; [exact En|].
  split; [lra|]. split; [exact Hle|]. split; [lra|].
  intros intra. now apply continuousSpeed_between.
Qed.

Lemma transitionPulse_range (intra : R) : 0 <= transitionPulse intra <= 1.
Proof.
  unfold transitionPulse.
  destruct (Rltb intra flyInEnd).
  - pose proof (smoothstep_range 0 flyInEnd intra). lra.
  - destruct (Rltb holdEnd intra); [apply smoothstep_range | lra].
Qed.

Lemma unit_product (x y : R) : 0 <= x <= 1 -> 0 <= y <= 1 -> 0 <= x * y <= 1.
Proof. intros Hx Hy. split; nra. Qed.

Lemma introWarp_range (orbitStart orbitFull scrollProgress : R) :
  0 <= introWarp orbitStart orbitFull scrollProgress <= 1.
Proof.
  unfold introWarp. apply unit_product.
  - apply smoothstep_range.
  - pose proof (smoothstep_range (orbitStart - 0.02) orbitFull scrollProgress). lra.
Qed.

Lemma starFieldArgs_ranges :
  forall (cfg : MotionConfig) (count : nat) (scrollProgress now lastTime : R),
    exists a,
      starFieldArgs cfg count scrollProgress now lastTime = Some a
      /\ 0.35 <= delta a <= 2.4
      /\ 0 <= orbitReveal a <= 1
      /\ 0 <= warpStrength a <= 1.7
      /\ 0 <= sequenceBoost a <= 1
      /\ 0 <= stageSpeedNormalized a <= 1
      /\ 0 <= orbitDampen a <= 1
      /\ (0.1 < orbitReveal a ->
            stageSpeedNormalized a = 0 /\ warpStrength a <= 0.7).
Proof.
  intros cfg count scrollProgress now lastTime.
  set (sp := slideProgress (stageBlend (start (orbit cfg)) scrollProgress)).
  destruct (baseIdx_range count sp) as [Hb Hn].
  destruct (speedAt_values (baseIdx count sp) Hb) as [hold [Eh _]].
  destruct (speedAt_values (nextIdx count sp)) as [next [En _]]; [lia|].
  unfold starFieldArgs. fold sp. rewrite Eh, En.
  eexists. split; [reflexivity|].
  cbn [delta orbitReveal warpStrength sequenceBoost stageSpeedNormalized orbitDampen].
  set (reveal := smoothstep (start (orbit cfg)) (full (orbit cfg)) scrollProgress).
  pose proof (smoothstep_range (start (orbit cfg)) (full (orbit cfg)) scrollProgress)
    as Hreveal. fold reveal in Hreveal.
  pose proof (smoothstep_range (3 / 4 - 0.04) (3 / 4 + 0.06) sp) as Hburst.
  pose proof (introWarp_range (start (orbit cfg)) (full (orbit cfg)) scrollProgress)
    as Hwarp.
  pose proof (smoothstep_range (start (orbit cfg) - 0.02) (start (orbit cfg) + 0.04)
                scrollProgress) as Hdampen.
  pose proof (smoothstep_range 0.06 0.98 sp) as Hs1.
  pose proof (smoothstep_range (start (orbit cfg) - 0.03) (start (orbit cfg) + 0.06)
                scrollProgress) as Hs2.
  pose proof (transitionPulse_range (drawIntraSlide count sp)) as Hpulse.
  split; [unfold frameDelta; apply clamp_bounds; lra|].
  split; [exact Hreveal|].
  split.
  { destruct (Rltb 0.1 reveal); lra. }
  split.
  { assert (0 <= smoothstep 0.06 0.98 sp
                 * (1 - smoothstep (start (orbit cfg) - 0.03)
                          (start (orbit cfg) + 0.06) scrollProgress) <= 1) as H12
      by (apply unit_product; lra).
    apply unit_product; [exact H12 | lra]. }
  split.
  { destruct (Rltb 0.1 reveal); [lra|]. apply clamp_bounds. lra. }
  split; [lra|].
  intros Hgt. apply Rltb_true in Hgt. rewrite Hgt. split; lra.
Qed.

(** X8. Every frame gets star-field arguments, and they are in range:
    [delta] in [[0.35, 2.4]], [orbitReveal], [sequenceBoost], the stage
    speed and [orbitDampen] in [[0, 1]], the warp strength in [[0, 1.7]].
    Once [orbitReveal] exceeds 0.1 the stage speed is 0 and the warp
    strength is only the transition burst, at most 0.7. *)
Theorem starFieldArgs_in_range :
  forall (cfg : MotionConfig) (count : nat) (scrollProgress now lastTime : R),
    exists a,
      starFieldArgs cfg count scrollProgress now lastTime = Some a
      /\ 0.35 <= delta a <= 2.4
      /\ 0 <= orbitReveal a <= 1
      /\ 0 <= warpStrength a <= 1.7
      /\ 0 <= sequenceBoost a <= 1
      /\ 0 <= stageSpeedNormalized a <= 1
      /\ 0 <= orbitDampen a <= 1
      /\ (0.1 < orbitReveal a ->
            stageSpeedNormalized a = 0 /\ warpStrength a <= 0.7).
Proof.
  intros cfg count scrollProgress now lastTime.
  destruct (starFieldArgs_ranges cfg count scrollProgress now lastTime)
    as [a Ha].
  exists a. exact Ha.
Qed.

(** X9. In every frame no star recedes: with a configuration whose base
    speed and warp boost are not negative, energies that are not negative
    and a star of non-negative size, the depth advance computed from the
    arguments of the frame never increases [z]. *)
Theorem stars_never_recede :
  forall (sc : Scene) (count : nat) (scrollProgress now lastTime : R) (star : Star),
    0 <= baseSpeed (stars (config sc)) ->
    0 <= warpBoost (stars (config sc)) ->
    0 <= scrollEnergy sc ->
    0 <= pointerEnergy sc ->
    0 <= Star.size star ->
    exists a,
      starFieldArgs (config sc) count scrollProgress now lastTime = Some a
      /\ Star.z (advance sc a star) <= Star.z star.
Proof.
  intros sc count scrollProgress now lastTime star Hbase Hboost Hse Hpe Hsize.
  destruct (starFieldArgs_ranges (config sc) count scrollProgress now lastTime)
    as [a [Ea [Hd [_ [Hw [Hsb [Hss [Hod _]]]]]]]].
  exists a. split; [exact Ea|].
  unfold advance. cbn [Star.z].
  assert (0 <= speed sc a) as Hspeed.
  { unfold speed, speedStageMaxBoost.
    assert (0 <= warpStrength a * warpBoost (stars (config sc)))
      by (apply Rmult_le_pos; lra).
    assert (0 <= (scrollEnergy sc * 0.22 + pointerEnergy sc * 0.08
                  + sequenceBoost a * 1.12 + stageSpeedNormalized a * 3.2
                  + warpStrength a * warpBoost (stars (config sc))) * orbitDampen a)
      by (apply Rmult_le_pos; lra).
    lra. }
  assert (0 <= speed sc a * delta a * (8 + Star.size star * 4)).
  { apply Rmult_le_pos; [apply Rmult_le_pos|]; lra. }
  lra.
Qed.

Lemma stars_never_recede_witness :
  exists a,
    starFieldArgs (config sampleScene) 4 0.3 1016 1000 = Some a
    /\ Star.z (advance sampleScene a nearStar) <= Star.z nearStar.
Proof.
  apply stars_never_recede;
    unfold sampleScene, nearStar, defaultConfig;
    cbn [config stars baseSpeed warpBoost scrollEnergy pointerEnergy Star.size];
    lra.
Defined.

(* ================================================================== *)
(** ** Title cards: the slide clock, the parked slides, the joins *)

Lemma Zfloor_INR (n : nat) : Zfloor (INR n) = Z.of_nat n.
Proof. apply Zfloor_eq. rewrite <- INR_IZR_INZ. lra. Qed.

(** X10. [draw] and [updateSlidesFlyThrough] compute the same active slide
    index, and the same intra-slide progress as long as the slide progress
    is at most 0.999.  At slide progress 1 they part: with 1 to 1000 slides
    [draw] sees intra-slide progress 0 where the title cards see
    [1 - count / 1000]. *)
Theorem draw_and_titles_share_slide_clock :
  forall (count : nat) (sp : R),
    drawActiveSlideIndex count sp = activeIndex count sp
    /\ (0 <= sp <= 0.999 -> drawIntraSlide count sp = intraSlide count sp)
    /\ ((1 <= count <= 1000)%nat ->
          drawIntraSlide count 1 = 0
          /\ intraSlide count 1 = 1 - INR count / 1000).
Proof.
  intros count sp. split; [reflexivity|]. split.
  - intros Hsp. unfold drawIntraSlide, intraSlide, activeIndex, scaledProgress.
    rewrite clamp_inside by lra.
    unfold mod1, Math_trunc, Math_floor.
    destruct (Rle_dec 0 (sp * INR count)) as [_|N]; [reflexivity|].
    exfalso. apply N. apply Rmult_le_pos; [lra | apply pos_INR].
  - intros Hcount.
    assert (1 <= INR count <= 1000) as Hc.
    { split.
      - change 1 with (INR 1). apply le_INR. lia.
      - replace 1000 with (INR 1000) by (rewrite INR_IZR_INZ; reflexivity).
        apply le_INR. lia. }
    split.
    + unfold drawIntraSlide, mod1, Math_trunc. rewrite Rmult_1_l.
      destruct (Rle_dec 0 (INR count)) as [_|N]; [|lra].
      rewrite Zfloor_INR, <- INR_IZR_INZ. lra.
    + unfold intraSlide, activeIndex, scaledProgress.
      rewrite clamp_above by lra.
      assert (Math_floor (0.999 * INR count) = (Z.of_nat count - 1)%Z) as ->.
      { apply Math_floor_eq. rewrite minus_IZR, <- INR_IZR_INZ. lra. }
      rewrite minus_IZR, <- INR_IZR_INZ. lra.
Qed.

Lemma slide_clock_witness :
  drawIntraSlide 4 1 = 0 /\ intraSlide 4 1 = 1 - INR 4 / 1000.
Proof.
  apply (draw_and_titles_share_slide_clock 4 1). lia.
Defined.

Lemma nth_error_seq_value (len : nat) :
  forall s j v, nth_error (seq s len) j = Some v -> v = (s + j)%nat /\ (j < len)%nat.
Proof.
  induction len as [|len IH]; intros s [|j] v H; simpl in H; try discriminate.
  - injection H as <-. split; lia.
  - destruct (IH (S s) j v H) as [-> Hlt]. split; lia.
Qed.

Lemma activePose_bounds (width : R) (count index : nat) (t : R) :
  0 <= t < 1 ->
  0 <= opacity (activePose width count index t) <= 1
  /\ 0.25 <= scale (activePose width count index t) <= 3.5.
Proof.
  intros Ht.
  assert (0 <= opacity holdPose <= 1 /\ 0.25 <= scale holdPose <= 3.5) as Hhold
    by (unfold holdPose; cbn [opacity scale]; split; lra).
  assert (holdEnd <= t ->
          0 <= opacity (flyOutPose width t) <= 1
          /\ 0.25 <= scale (flyOutPose width t) <= 3.5) as Hout.
  { intros Hge. unfold holdEnd in Hge. unfold flyOutPose, holdEnd.
    cbn [opacity scale].
    set (ft := (t - 0.75) / (1.0 - 0.75)).
    assert (0 <= ft < 1) as Hft by (unfold ft; lra).
    pose proof (flyOut_eased_range ft Hft).
    split; [apply clamp_bounds; lra | unfold lerp; lra]. }
  unfold activePose.
  destruct (Nat.eqb index 0).
  - destruct (Rltb t holdEnd) eqn:E; [exact Hhold|].
    apply Hout. now apply Rltb_false.
  - destruct (Rltb t flyInEnd) eqn:Ein.
    + apply Rltb_true in Ein. unfold flyInEnd in Ein.
      unfold flyInPose, flyInEnd. cbn [opacity scale].
      pose proof (flyIn_eased_range t (conj (proj1 Ht) Ein)).
      split; [apply clamp_bounds; lra | unfold lerp; lra].
    + destruct (Rltb t holdEnd) eqn:E; cbn [orb]; [exact Hhold|].
      destruct (Z.eqb _ _); [exact Hhold|].
      apply Hout. now apply Rltb_false.
Qed.

(** X11. With at least one slide, a call of [updateSlidesFlyThrough] styles
    every slide and makes exactly one of them active, the one at
    [floor(clamp(progress, 0, 0.999) * count)]: its opacity is in [[0, 1]]
    and its scale in [[0.25, 3.5]]; every slide before it is inactive,
    invisible and parked at the exit offset at scale 3.5, every slide after
    it inactive, invisible and parked at the entry offset at scale 0.25. *)
Theorem exactly_one_slide_is_active :
  forall (width : R) (count : nat) (progress : R),
    (0 < count)%nat ->
    let styles := updateSlidesFlyThrough width count progress in
    List.length styles = count
    /\ exists i,
         (i < count)%nat
         /\ Z.of_nat i = activeIndex count progress
         /\ forall j st,
              nth_error styles j = Some st ->
              (j = i -> isActive st = true
                        /\ 0 <= opacityArg st <= 1
                        /\ 0.25 <= scaleArg st <= 3.5)
              /\ ((j < i)%nat ->
                    st = mkSlideStyle false (exitTx width) (exitTy width) 3.5 0)
              /\ ((i < j)%nat ->
                    st = mkSlideStyle false (entryTx width) (entryTy width) 0.25 0).
Proof.
  intros width count progress Hpos styles.
  split; [unfold styles, updateSlidesFlyThrough; now rewrite length_map, length_seq|].
  pose proof (activeIndex_range count progress Hpos) as Hrange.
  exists (Z.to_nat (activeIndex count progress)).
  split; [lia|]. split; [lia|].
  intros j st Hj.
  unfold styles, updateSlidesFlyThrough in Hj.
  rewrite nth_error_map in Hj.
  destruct (nth_error (seq 0 count) j) as [v|] eqn:Ev; [|discriminate].
  apply nth_error_seq_value in Ev. destruct Ev as [-> Hlt].
  cbn [Nat.add option_map] in Hj. injection Hj as <-.
  unfold slideStyle.
  split; [|split].
  - intros ->. rewrite Z2Nat.id by lia. rewrite Z.eqb_refl.
    unfold activeStyle. cbn [isActive opacityArg scaleArg].
    split; [reflexivity|].
    apply activePose_bounds. apply intraSlide_range.
  - intros Hlt'.
    assert (Z.eqb (Z.of_nat j) (activeIndex count progress) = false) as ->
      by (apply Z.eqb_neq; lia).
    assert (Z.ltb (Z.of_nat j) (activeIndex count progress) = true) as ->
      by (apply Z.ltb_lt; lia).
    reflexivity.
  - intros Hgt.
    assert (Z.eqb (Z.of_nat j) (activeIndex count progress) = false) as ->
      by (apply Z.eqb_neq; lia).
    assert (Z.ltb (Z.of_nat j) (activeIndex count progress) = false) as ->
      by (apply Z.ltb_ge; lia).
    reflexivity.
Qed.

Lemma exactly_one_slide_witness :
  List.length (updateSlidesFlyThrough 1000 4 0.46875) = 4%nat.
Proof.
  apply (exactly_one_slide_is_active 1000 4 0.46875). lia.
Defined.

Lemma pose_eq (p q : Pose) :
  opacity p = opacity q -> tx p = tx q -> ty p = ty q -> scale p = scale q -> p = q.
Proof. destruct p, q. cbn. intros -> -> -> ->. reflexivity. Qed.

(** X12. The phases of a title card join without a jump, at every viewport
    width: the fly-in ends ([t = 0.15]) in the hold pose and the fly-out
    starts ([t = 0.75]) from it; the fly-in starts ([t = 0]) with exactly the
    style of a slide parked at the entry end (entry offset, scale 0.25,
    opacity 0); and the fly-out runs toward the exit offset, scale 3.5 and
    opacity 0, the values it would have at [t = 1]. *)
Theorem phases_join_without_jump :
  forall width : R,
    flyInPose width flyInEnd = holdPose
    /\ flyOutPose width holdEnd = holdPose
    /\ activeStyle width (flyInPose width 0)
       = mkSlideStyle true (entryTx width) (entryTy width) 0.25 0
    /\ flyOutPose width 1 = mkPose 0 (exitTx width) (exitTy width) 3.5.
Proof.
  intros width.
  assert (flyInEnd / flyInEnd = 1) as E1 by (unfold flyInEnd; lra).
  assert ((holdEnd - holdEnd) / (1.0 - holdEnd) = 0) as E2 by (unfold holdEnd; lra).
  assert ((1 - holdEnd) / (1.0 - holdEnd) = 1) as E3 by (unfold holdEnd; lra).
  assert (0 / flyInEnd = 0) as E4 by (unfold flyInEnd; lra).
  split; [|split; [|split]].
  - apply pose_eq; unfold flyInPose, holdPose; cbn [opacity tx ty scale];
      rewrite E1; unfold lerp; try lra.
    apply clamp_above; lra.
  - apply pose_eq; unfold flyOutPose, holdPose; cbn [opacity tx ty scale];
      rewrite E2; unfold lerp; try lra.
    apply clamp_above; lra.
  - unfold activeStyle, flyInPose. cbn [opacity tx ty scale]. rewrite E4.
    unfold lerp.
    replace (0.25 + (1.0 - 0.25) * (0 * (2 - 0))) with 0.25 by lra.
    destruct (scaleComp_zero width 0.25) as [-> ->]; [lra|].
    f_equal; try lra.
    apply clamp_below; lra.
  - apply pose_eq; unfold flyOutPose; cbn [opacity tx ty scale];
      rewrite E3; unfold lerp; try lra.
    apply clamp_below; lra.
Qed.

(* ================================================================== *)
(** ** Star field: new pools and settled pools *)

Lemma newStar_fresh (depth spread : R) (rnd : Random) (k : nat) :
  0 <= depth -> 0 <= spread -> (forall n, 0 <= rnd n < 1) ->
  freshStar depth spread (newStar depth spread rnd k).
Proof.
  intros Hd Hs Hrnd. unfold freshStar, newStar.
  cbn [Star.x Star.y Star.z Star.size Star.tint Star.prevX Star.prevY
       Star.initialized Star.rotation].
  pose proof (Hrnd k). pose proof (Hrnd (k + 1)%nat).
  pose proof (Hrnd (k + 2)%nat). pose proof (Hrnd (k + 3)%nat).
  pose proof (Hrnd (k + 4)%nat). pose proof (Hrnd (k + 6)%nat).
  pose proof PI_RGT_0.
  repeat split; try reflexivity; try lra; nra.
Qed.

Lemma createStars_fresh (count : nat) (depth spread : R) (rnd : Random) :
  0 <= depth -> 0 <= spread -> (forall n, 0 <= rnd n < 1) ->
  forall k,
    Forall (freshStar depth spread) (fst (createStars count depth spread rnd k))
    /\ snd (createStars count depth spread rnd k) = (k + 7 * count)%nat.
Proof.
  intros Hd Hs Hrnd.
  induction count as [|n IH]; intros k; cbn [createStars].
  - split; [constructor | cbn; lia].
  - destruct (IH (k + 7)%nat) as [Hall Hk].
    destruct (createStars n depth spread rnd (k + 7)) as [rest k'].
    cbn [fst snd] in *. split.
    + constructor; [now apply newStar_fresh | exact Hall].
    + lia.
Qed.

(** X13. With samples in [[0, 1)] and a depth that is not negative,
    [rebuildStars] sets the spread to 1.55 times the longer viewport side
    and every star of the new pool lies within that spread, has [z] in
    [[1, depth + 1]], a size in [[0.45, 1.65)], a tint in [[0, 1)], a
    rotation in [[0, 2 PI)], no previous position and [initialized] false;
    the pool costs seven samples per star. *)
Theorem rebuildStars_pool_is_fresh :
  forall (sc : Scene) (rnd : Random) (k : nat),
    0 <= depth (stars (config sc)) ->
    0 <= width sc -> 0 <= height sc ->
    (forall n, 0 <= rnd n < 1) ->
    let spread' := fst (fst (rebuildStars sc rnd k)) in
    let pool := snd (fst (rebuildStars sc rnd k)) in
    spread' = Rmax (width sc) (height sc) * 1.55
    /\ Forall (freshStar (depth (stars (config sc))) spread') pool
    /\ snd (rebuildStars sc rnd k) = (k + 7 * List.length pool)%nat.
Proof.
  intros sc rnd k Hd Hw Hh Hrnd spread' pool.
  assert (0 <= Rmax (width sc) (height sc) * 1.55) as Hs.
  { unfold Rmax. destruct (Rle_dec _ _); lra. }
  pose proof (createStars_fresh (Z.to_nat (finalCount sc))
                (depth (stars (config sc)))
                (Rmax (width sc) (height sc) * 1.55) rnd Hd Hs Hrnd k) as [Hall Hk].
  pose proof (createStars_length (Z.to_nat (finalCount sc))
                (depth (stars (config sc)))
                (Rmax (width sc) (height sc) * 1.55) rnd k) as Hlen.
  unfold spread', pool, rebuildStars.
  destruct (createStars _ _ _ rnd k) as [p k']. cbn [fst snd] in *.
  split; [reflexivity|]. split; [exact Hall|]. lia.
Qed.

Lemma rebuildStars_fresh_witness :
  Forall (freshStar 1600 (fst (fst (rebuildStars sampleScene halves 0))))
    (snd (fst (rebuildStars sampleScene halves 0))).
Proof.
  apply (rebuildStars_pool_is_fresh sampleScene halves 0);
    try (unfold sampleScene, defaultConfig; cbn [config stars depth width height]; lra).
  intros n. unfold halves. lra.
Defined.

Lemma starStep_no_streak (sc : Scene) (a : FieldArgs) (rnd : Random)
  (star : Star) (k : nat) :
  Star.initialized star = false ->
  forall e, In e (snd (starStep sc a rnd star k)) -> isStreak e = false.
Proof.
  intros Hinit e Hin.
  rewrite (starStep_cases sc a rnd star k) in Hin.
  set (moved := advance sc a star) in *.
  set (d := depth (stars (config sc))) in *.
  set (near := fst (resetStar moved d (spread sc) rnd k)) in *.
  assert (forall s p, Star.initialized s = false ->
            In e (snd (paintStar sc a s p)) -> isStreak e = false) as Hpaint.
  { intros s p Hs Hp.
    destruct (paintStar_effects sc a s p) as [lw [al [body [Hb [_ Heff]]]]].
    rewrite Heff, Hs, andb_false_r in Hp. cbn [andb app In] in Hp.
    destruct Hp as [<- | []]. destruct body; cbn in Hb; try discriminate; reflexivity. }
  destruct (Rleb (Star.z moved) 1);
    [destruct (offScreen sc (project sc near)) |
     destruct (offScreen sc (project sc moved))]; cbn [snd] in Hin.
  - destruct Hin as [<- | [<- | []]]; reflexivity.
  - destruct Hin as [<- | Hin]; [reflexivity|].
    apply (Hpaint near (project sc near)); [reflexivity | exact Hin].
  - destruct Hin as [<- | []]. reflexivity.
  - apply (Hpaint moved (project sc moved)); [exact Hinit | exact Hin].
Qed.

Lemma starLoop_no_streak (sc : Scene) (a : FieldArgs) (rnd : Random)
  (pool : list Star) :
  Forall (fun s => Star.initialized s = false) pool ->
  forall k e, In e (snd (starLoop sc a rnd pool k)) -> isStreak e = false.
Proof.
  induction pool as [|star rest IH]; intros Hall k e Hin; cbn [starLoop] in Hin.
  - contradiction.
  - inversion Hall as [|? ? Hstar Hrest]; subst.
    pose proof (starStep_no_streak sc a rnd star k Hstar e) as Hone.
    destruct (starStep sc a rnd star k) as [[star' k1] e1].
    specialize (IH Hrest k1 e).
    destruct (starLoop sc a rnd rest k1) as [[rest' k2] e2].
    cbn [snd] in *. apply in_app_or in Hin. destruct Hin; auto.
Qed.

(** X14. The first frame after [rebuildStars] paints no streak, however
    strong the warp: every star of a new pool is uninitialized, and
    [drawStarField] strokes no line for a pool of uninitialized stars. *)
Theorem first_frame_has_no_streak :
  forall (sc : Scene) (a : FieldArgs) (rnd : Random) (k k' : nat),
    let pool := snd (fst (rebuildStars sc rnd k)) in
    Forall (fun s => Star.initialized s = false) pool
    /\ forall e, In e (snd (drawStarField sc a rnd pool k')) -> isStreak e = false.
Proof.
  intros sc a rnd k k' pool.
  assert (forall count d sp j,
            Forall (fun s => Star.initialized s = false)
              (fst (createStars count d sp rnd j))) as Hcreate.
  { induction count as [|n IH]; intros d sp j; cbn [createStars].
    - constructor.
    - specialize (IH d sp (j + 7)%nat).
      destruct (createStars n d sp rnd (j + 7)) as [rest j'].
      cbn [fst] in *. constructor; [reflexivity | exact IH]. }
  assert (Forall (fun s => Star.initialized s = false) pool) as Hpool.
  { unfold pool, rebuildStars.
    specialize (Hcreate (Z.to_nat (finalCount sc)) (depth (stars (config sc)))
                  (Rmax (width sc) (height sc) * 1.55) k).
    destruct (createStars _ _ _ rnd k) as [p j]. exact Hcreate. }
  split; [exact Hpool|].
  intros e Hin. unfold drawStarField in Hin.
  pose proof (starLoop_no_streak sc a rnd pool Hpool k' e) as Hloop.
  destruct (starLoop sc a rnd pool k') as [[pool' j] effects].
  cbn [snd] in *. apply in_app_or in Hin. destruct Hin as [Hin | Hin]; [auto|].
  cbn [app In] in Hin. destruct Hin as [<- | Hin]; [reflexivity|].
  destruct (Rltb 0.06 (orbitReveal a)); cbn [In] in Hin;
    [destruct Hin as [<- | []]; reflexivity | contradiction].
Qed.

Lemma offScreen_false (sc : Scene) (p : R * R) :
  offScreen sc p = false ->
  -120 <= fst p <= width sc + 120 /\ -120 <= snd p <= height sc + 120.
Proof.
  unfold offScreen. intros H.
  apply orb_false_iff in H. destruct H as [H H4].
  apply orb_false_iff in H. destruct H as [H H3].
  apply orb_false_iff in H. destruct H as [H1 H2].
  apply Rltb_false in H1, H2, H3, H4. lra.
Qed.

Lemma paintStar_settled (sc : Scene) (a : FieldArgs) (s : Star) :
  (Star.z s = depth (stars (config sc)) \/ 1 < Star.z s) ->
  offScreen sc (project sc s) = false ->
  settledStar sc (fst (paintStar sc a s (project sc s))).
Proof.
  intros Hz Hoff.
  destruct (paintStar_keeps sc a s (project sc s))
    as [Kx [Ky [Kz [_ [_ [_ [_ [Kpx [Kpy _]]]]]]]]].
  set (s' := fst (paintStar sc a s (project sc s))) in *.
  assert (project sc s' = project sc s) as Hproj.
  { unfold project, depthMix. rewrite Kx, Ky, Kz. reflexivity. }
  split; [rewrite Kz; exact Hz|].
  intros _. rewrite Hproj, Kpx, Kpy.
  split; [now destruct (project sc s) | now apply offScreen_false].
Qed.

Lemma starStep_settled (sc : Scene) (a : FieldArgs) (rnd : Random)
  (star : Star) (k : nat) :
  settledStar sc (fst (fst (starStep sc a rnd star k))).
Proof.
  rewrite (starStep_cases sc a rnd star k).
  set (moved := advance sc a star).
  set (d := depth (stars (config sc))).
  set (near := fst (resetStar moved d (spread sc) rnd k)).
  destruct (Rleb (Star.z moved) 1) eqn:Ez;
    [destruct (offScreen sc (project sc near)) eqn:Eo |
     destruct (offScreen sc (project sc moved)) eqn:Eo]; cbn [fst].
  - split; [left; reflexivity | intros H; discriminate H].
  - apply paintStar_settled; [left; reflexivity | exact Eo].
  - split; [left; reflexivity | intros H; discriminate H].
  - apply paintStar_settled; [|exact Eo].
    right. now apply Rleb_false.
Qed.

Lemma starLoop_settled (sc : Scene) (a : FieldArgs) (rnd : Random)
  (pool : list Star) :
  forall k, Forall (settledStar sc) (fst (fst (starLoop sc a rnd pool k))).
Proof.
  induction pool as [|star rest IH]; intros k; cbn [starLoop].
  - constructor.
  - pose proof (starStep_settled sc a rnd star k) as Hone.
    destruct (starStep sc a rnd star k) as [[star' k1] e1].
    specialize (IH k1).
    destruct (starLoop sc a rnd rest k1) as [[rest' k2] e2].
    cbn [fst] in *. now constructor.
Qed.

(** X15. With a configured depth other than 0, after a frame every star of
    the pool is either at the configured depth or at a depth above 1, hence
    at a depth other than 0, and with a configured depth above 1 no star is
    left at or behind the camera plane; and every star left initialized was
    painted in that frame: its previous position is its own projected
    position and lies within 120 px of the viewport. *)
Theorem pool_is_settled_after_frame :
  forall (sc : Scene) (a : FieldArgs) (rnd : Random) (pool : list Star) (k : nat),
    depth (stars (config sc)) <> 0 ->
    let pool' := fst (fst (drawStarField sc a rnd pool k)) in
    Forall (settledStar sc) pool'
    /\ (forall s, In s pool' -> Star.z s <> 0)
    /\ (1 < depth (stars (config sc)) -> Forall (fun s => 1 < Star.z s) pool').
Proof.
  intros sc a rnd pool k Hdepth pool'.
  assert (Forall (settledStar sc) pool') as Hall.
  { unfold pool', drawStarField.
    pose proof (starLoop_settled sc a rnd pool k) as H.
    destruct (starLoop sc a rnd pool k) as [[p j] e]. exact H. }
  split; [exact Hall|].
  split.
  - intros s Hin. rewrite Forall_forall in Hall.
    destruct (Hall s Hin) as [[Hz | Hz] _]; [rewrite Hz; exact Hdepth | lra].
  - intros Hd. eapply Forall_impl; [|exact Hall].
    intros s [[Hz | Hz] _]; lra.
Qed.

Lemma pool_is_settled_witness :
  depth (stars (config sampleScene)) <> 0
  /\ Forall (fun s => 1 < Star.z s)
       (fst (fst (drawStarField sampleScene calmFrame halves [nearStar] 0))).
Proof.
  assert (depth (stars (config sampleScene)) <> 0) as H0
    by (cbn [depth stars config sampleScene defaultConfig]; lra).
  split; [exact H0|].
  apply (pool_is_settled_after_frame sampleScene calmFrame halves [nearStar] 0 H0).
  unfold sampleScene, defaultConfig. cbn [config stars depth]. lra.
Defined.

(* ================================================================== *)
(** ** Orbit clock: what a pause costs *)

(** X16. A hover pause delays the orbit by exactly its length: after a
    running clock is paused at [t0] and resumed at [t1], the orbit time at
    any later instant is what it would have been without the pause, minus
    [t1 - t0].  A second pause during a pause and a resume without a pause
    change nothing, so repeated [mouseenter] or [mouseleave] events cannot
    move the pause start or count an interval twice. *)
Theorem pause_delays_orbit_by_its_length :
  forall (c : OrbitClock) (t0 t1 t2 now : R),
    orbitPaused c = false ->
    getOrbitTime (resumeOrbit (pauseOrbit c t0) t1) now
    = getOrbitTime c now - (t1 - t0)
    /\ pauseOrbit (pauseOrbit c t0) t2 = pauseOrbit c t0
    /\ resumeOrbit c t2 = c
    /\ resumeOrbit (resumeOrbit (pauseOrbit c t0) t1) t2
       = resumeOrbit (pauseOrbit c t0) t1.
Proof.
  intros c t0 t1 t2 now Hrun.
  unfold pauseOrbit, resumeOrbit, getOrbitTime. rewrite Hrun.
  cbn [orbitPaused negb pauseTimeOffset pauseStartTime].
  repeat split. lra.
Qed.

Lemma pause_delay_witness :
  getOrbitTime (resumeOrbit (pauseOrbit initialClock 12) 20) 30
  = getOrbitTime initialClock 30 - (20 - 12).
Proof.
  apply (pause_delays_orbit_by_its_length initialClock 12 20 0 30). reflexivity.
Defined.

(* ================================================================== *)
(** ** Ring assignment: when it throws *)

Lemma pushAt_valid (buckets b : list (list nat)) (r i : nat) :
  pushAt buckets r i = Some b -> (r < List.length buckets)%nat.
Proof.
  revert b r. induction buckets as [|x buckets IH]; intros b [|r] H;
    simpl in H; try discriminate; simpl.
  - lia.
  - destruct (pushAt buckets r i) as [b'|] eqn:E; [|discriminate].
    specialize (IH b' r E). lia.
Qed.

Lemma fillBuckets_valid (assignments : list (option Z)) :
  forall (i : nat) (buckets b : list (list nat)),
    fillBuckets assignments i buckets = Some b ->
    forall a, In a assignments ->
      exists r, a = Some r /\ (0 <= r < Z.of_nat (List.length buckets))%Z.
Proof.
  induction assignments as [|q rest IH]; intros i buckets b Hfill a Hin.
  - contradiction.
  - cbn [fillBuckets] in Hfill. unfold bind in Hfill.
    destruct (pushBucket buckets q i) as [b1|] eqn:Epush; [|discriminate].
    unfold pushBucket in Epush.
    destruct q as [r|]; [|discriminate].
    destruct (Z.ltb_spec r 0) as [Hneg|Hpos]; [discriminate|].
    pose proof (pushAt_valid _ _ _ _ Epush) as Hr.
    destruct (pushAt_spec _ _ _ _ Epush) as [Hlen _].
    destruct Hin as [<- | Hin].
    + exists r. split; [reflexivity | lia].
    + rewrite <- Hlen. now apply (IH (S i) b1 b).
Qed.

(** X17. [assignNodesToRings] returns exactly when every node's ring index
    (the parsed [data-ring] minus one, or 1 without the attribute) is a
    whole number from 0 to one below the number of configured rings; a node
    naming any other ring, or carrying an attribute that is not a number,
    makes it throw.  In particular a node without the attribute needs at
    least two configured rings, and no nodes at all always succeed. *)
Theorem assignNodesToRings_succeeds_iff :
  forall (ringCount : nat) (nodes : list (option string)),
    ((exists result, assignNodesToRings ringCount nodes = Some result)
     <-> (forall attr, In attr nodes ->
            exists r, ringOf attr = Some r /\ (0 <= r < Z.of_nat ringCount)%Z))
    /\ (In None nodes -> (ringCount < 2)%nat ->
          assignNodesToRings ringCount nodes = None)
    /\ assignNodesToRings ringCount [] = Some ([], []).
Proof.
  intros ringCount nodes.
  assert ((exists result, assignNodesToRings ringCount nodes = Some result)
          <-> (forall attr, In attr nodes ->
                 exists r, ringOf attr = Some r
                           /\ (0 <= r < Z.of_nat ringCount)%Z)) as Hiff.
  { split.
    - intros [result Hres] attr Hin. unfold assignNodesToRings, bind in Hres.
      destruct (fillBuckets (map ringOf nodes) 0 (repeat [] ringCount))
        as [b|] eqn:Efill; [|discriminate].
      pose proof (fillBuckets_valid _ _ _ _ Efill (ringOf attr)) as Hv.
      rewrite repeat_length in Hv. apply Hv. now apply in_map.
    - intros Hvalid.
      destruct (fillBuckets_some (map ringOf nodes) 0 (repeat [] ringCount))
        as [b Hb].
      + intros a0 Hin. rewrite repeat_length.
        apply in_map_iff in Hin. destruct Hin as [attr [<- Hattr]].
        destruct (Hvalid attr Hattr) as [r [Hr Hrange]]. now exists r.
      + eexists. unfold assignNodesToRings. rewrite Hb. reflexivity. }
  split; [exact Hiff|]. split.
  - intros Hin Hfew.
    destruct (assignNodesToRings ringCount nodes) as [result|] eqn:E;
      [|reflexivity].
    exfalso.
    assert (exists result0, Some result = Some result0) as Hex by (now exists result).
    destruct (proj1 Hiff Hex None Hin) as [r [Hr Hrange]].
    cbn in Hr. injection Hr as <-. lia.
  - unfold assignNodesToRings. cbn [map fillBuckets bind List.length repeat].
    assert (forall n acc, spaceRings (repeat [] n) acc = acc) as Hempty.
    { unfold spaceRings. induction n as [|n IH]; intros acc; cbn; auto. }
    now rewrite Hempty.
Qed.

Lemma assignNodesToRings_iff_witness :
  assignNodesToRings 1 sampleNodes = None.
Proof.
  apply (assignNodesToRings_succeeds_iff 1 sampleNodes).
  - unfold sampleNodes. cbn. tauto.
  - lia.
Defined.

(* ================================================================== *)
(** ** Spoke pulses *)

Lemma pulseCount_values (rnd : Random) (k : nat) :
  0 <= rnd k < 1 -> pulseCount rnd k = 2%nat \/ pulseCount rnd k = 3%nat.
Proof.
  intros Hr. unfold pulseCount.
  assert (0 <= Math_floor (rnd k * 2) <= 1)%Z as H
    by (apply Math_floor_range; lra).
  lia.
Qed.

Lemma makePulses_spec (count : nat) (rnd : Random) :
  (forall n, 0 <= rnd n < 1) ->
  forall todo j k,
    (j + todo = count)%nat ->
    List.length (fst (makePulses count todo j rnd k)) = todo
    /\ Forall pulseInRange (fst (makePulses count todo j rnd k)).
Proof.
  intros Hrnd. induction todo as [|todo IH]; intros j k Hsum; cbn [makePulses].
  - split; [reflexivity | constructor].
  - destruct (IH (S j) (k + 2)%nat) as [Hlen Hall]; [lia|].
    destruct (makePulses count todo (S j) rnd (k + 2)) as [rest k'].
    cbn [fst] in *. split; [cbn; now rewrite Hlen|].
    constructor; [|exact Hall].
    unfold pulseInRange. cbn [progress pulseSpeed baseOpacity].
    pose proof (Hrnd k). pose proof (Hrnd (k + 1)%nat).
    assert (0 < INR count) as Hc by (apply lt_0_INR; lia).
    assert (INR j < INR count) as Hj by (apply lt_INR; lia).
    pose proof (pos_INR j) as Hj0.
    repeat split; try lra.
    + apply Rmult_le_pos; [exact Hj0|]. left. now apply Rinv_0_lt_compat.
    + apply Rmult_lt_reg_r with (INR count); [exact Hc|].
      unfold Rdiv. rewrite Rmult_assoc, Rinv_l by lra. lra.
Qed.

Lemma initSpokePulses_spec (rnd : Random) :
  (forall n, 0 <= rnd n < 1) ->
  forall nodes k,
    List.length (fst (initSpokePulses nodes rnd k)) = nodes
    /\ Forall (fun ps => (List.length ps = 2%nat \/ List.length ps = 3%nat)
                         /\ Forall pulseInRange ps)
         (fst (initSpokePulses nodes rnd k)).
Proof.
  intros Hrnd. induction nodes as [|n IH]; intros k; cbn [initSpokePulses].
  - split; [reflexivity | constructor].
  - pose proof (pulseCount_values rnd k (Hrnd k)) as Hcount.
    destruct (makePulses_spec (pulseCount rnd k) rnd Hrnd (pulseCount rnd k) 0
                (k + 1)%nat) as [Hlen Hall]; [lia|].
    destruct (makePulses (pulseCount rnd k) (pulseCount rnd k) 0 rnd (k + 1))
      as [pulses k1].
    destruct (IH k1) as [Hlen' Hall'].
    destruct (initSpokePulses n rnd k1) as [rest k2].
    cbn [fst] in *. split; [cbn; now rewrite Hlen'|].
    constructor; [|exact Hall'].
    split; [rewrite Hlen; exact Hcount | exact Hall].
Qed.

Lemma advancePulse_inRange (delta : R) (p : SpokePulse) :
  0 <= delta <= 2.4 -> pulseInRange p -> pulseInRange (advancePulse delta p).
Proof.
  intros Hd [Hp [Hs Ho]]. unfold pulseInRange, advancePulse.
  cbn [progress pulseSpeed baseOpacity].
  assert (0 <= pulseSpeed p * delta * 0.016 <= 0.015) as Hstep by nra.
  split; [|split; assumption].
  destruct (Rleb 1 (progress p + pulseSpeed p * delta * 0.016)) eqn:E.
  - apply Rleb_true in E. lra.
  - apply Rleb_false in E. lra.
Qed.

Lemma updateSpokePulses_inRange (hasMenu : bool) (reveal now lastTime : R)
  (pulses : list (list SpokePulse)) :
  let P := fun ps : list SpokePulse =>
             (List.length ps = 2%nat \/ List.length ps = 3%nat)
             /\ Forall pulseInRange ps in
  Forall P pulses ->
  Forall P (updateSpokePulses hasMenu reveal (frameDelta now lastTime) pulses)
  /\ List.length (updateSpokePulses hasMenu reveal (frameDelta now lastTime) pulses)
     = List.length pulses.
Proof.
  intros P Hall. unfold updateSpokePulses.
  destruct (negb hasMenu || Rleb reveal 0.3); [split; [exact Hall | reflexivity]|].
  split; [|apply length_map].
  apply Forall_map. eapply Forall_impl; [|exact Hall].
  intros ps [Hlen Hps]. split; [now rewrite length_map|].
  apply Forall_map. eapply Forall_impl; [|exact Hps].
  intros p Hp. apply advancePulse_inRange; [|exact Hp].
  pose proof (clamp_bounds ((now - lastTime) / 16.6667) 0.35 2.4).
  unfold frameDelta. lra.
Qed.

(** X18. With samples in [[0, 1)], [initSpokePulses] gives every orbit node
    two or three pulses, each with a progress in [[0, 1)], a speed in
    [[0.25, 0.37)] and a base opacity in [[0.6, 1)]; and after any number
    of frames, whatever their time stamps and [orbitReveal], every node
    still has its two or three pulses and every progress is still in
    [[0, 1)]: a pulse wraps before it can pass the end of its spoke. *)
Theorem spoke_pulses_stay_on_their_spokes :
  forall (nodes : nat) (rnd : Random) (k : nat) (hasMenu : bool)
         (frames : list (R * R * R)),
    (forall n, 0 <= rnd n < 1) ->
    let pulses := runPulses hasMenu frames (fst (initSpokePulses nodes rnd k)) in
    List.length pulses = nodes
    /\ Forall (fun ps => (List.length ps = 2%nat \/ List.length ps = 3%nat)
                         /\ Forall pulseInRange ps) pulses.
Proof.
  intros nodes rnd k hasMenu frames Hrnd.
  destruct (initSpokePulses_spec rnd Hrnd nodes k) as [Hlen Hall].
  revert Hlen Hall. generalize (fst (initSpokePulses nodes rnd k)).
  induction frames as [|[[reveal now] lastTime] rest IH]; intros pulses Hlen Hall;
    cbn [runPulses].
  - split; assumption.
  - destruct (updateSpokePulses_inRange hasMenu reveal now lastTime pulses Hall)
      as [Hall' Hlen'].
    apply IH; [congruence | exact Hall'].
Qed.

Lemma spoke_pulses_witness :
  List.length (runPulses true [(1, 16, 0); (1, 33, 16)]
                 (fst (initSpokePulses 6 halves 0))) = 6%nat.
Proof.
  apply (spoke_pulses_stay_on_their_spokes 6 halves 0 true).
  intros n. unfold halves. lra.
Defined.

(* ================================================================== *)
(** ** Node positions *)

(** X19. For a radius other than 0 the position [getTiltedNodePos] returns
    lies, once the centre and the pointer parallax are taken off, on the
    ellipse with horizontal semi-axis [radius] and vertical semi-axis
    [radius * (0.3 sin tilt + ratio cos tilt)], so it is never further than
    [|radius|] from the centre horizontally; its depth does not depend on
    the radius, it is [clamp((sin angle * (0.3 cos tilt - ratio sin tilt)
    + 1) / 2, 0, 1)], in [[0, 1]]. *)
Theorem node_position_on_tilted_ellipse :
  forall (v : OrbitView) (angle radius ratio cx cy : R),
    radius <> 0 ->
    let p := getTiltedNodePos v angle radius ratio cx cy in
    let dx := posX p - cx - viewMouseX v * (if viewMobile v then 4 else 14) in
    let dy := posY p - cy - viewMouseY v * (if viewMobile v then 3 else 10) in
    let semiY := radius * (0.3 * sin (viewTilt v) + ratio * cos (viewTilt v)) in
    dx * dx * (semiY * semiY) + dy * dy * (radius * radius)
    = radius * radius * (semiY * semiY)
    /\ dx * dx <= radius * radius
    /\ posDepth p
       = clamp ((sin angle * (0.3 * cos (viewTilt v) - ratio * sin (viewTilt v)) + 1)
                * 0.5) 0 1
    /\ 0 <= posDepth p <= 1.
Proof.
  intros v angle radius ratio cx cy Hradius p dx dy semiY.
  pose proof (sin2_cos2 angle) as Hsc. unfold Rsqr in Hsc.
  assert (dx = cos angle * radius) as Edx
    by (unfold dx, p, getTiltedNodePos; cbn [posX]; lra).
  assert (dy = sin angle * semiY) as Edy
    by (unfold dy, semiY, p, getTiltedNodePos; cbn [posY]; lra).
  split; [|split; [|split]].
  - rewrite Edx, Edy.
    replace (cos angle * radius * (cos angle * radius) * (semiY * semiY)
             + sin angle * semiY * (sin angle * semiY) * (radius * radius))
      with ((sin angle * sin angle + cos angle * cos angle)
            * (radius * radius * (semiY * semiY))) by ring.
    rewrite Hsc. ring.
  - rewrite Edx.
    assert (0 <= sin angle * sin angle) by nra.
    assert (0 <= radius * radius) by nra.
    replace (cos angle * radius * (cos angle * radius))
      with ((1 - sin angle * sin angle) * (radius * radius))
      by (rewrite <- Hsc; ring).
    nra.
  - unfold p, getTiltedNodePos. cbn [posDepth]. f_equal. field. exact Hradius.
  - unfold p, getTiltedNodePos. cbn [posDepth]. apply clamp_bounds. lra.
Qed.

(** On the desktop view a node at angle 0 of a ring of radius 100 sits at
    mid depth. *)
Lemma node_position_witness :
  100 <> 0
  /\ posDepth (getTiltedNodePos sampleView 0 100 0.5 640 360) = 0.5.
Proof.
  assert (100 <> 0) as H by lra.
  split; [exact H|].
  destruct (node_position_on_tilted_ellipse sampleView 0 100 0.5 640 360 H)
    as [_ [_ [Hdepth _]]].
  rewrite Hdepth, sin_0, Rmult_0_l.
  replace ((0 + 1) * 0.5) with 0.5 by lra.
  apply clamp_inside. lra.
Defined.

(* ================================================================== *)
(** ** [hexToRGB] *)

Lemma hexDigit_facts (c : ascii) (v : Z) :
  hexDigitValue c = Some v ->
  isWhiteSpace c = false
  /\ (forall c1, isWhiteSpace2 c c1 = false)
  /\ (forall c1 c2, isWhiteSpace3 c c1 c2 = false)
  /\ Ascii.eqb c "-" = false /\ Ascii.eqb c "+" = false
  /\ Ascii.eqb c "x" = false /\ Ascii.eqb c "X" = false
  /\ (0 <= v <= 15)%Z.
Proof.
  destruct c as [b0 b1 b2 b3 b4 b5 b6 b7].
  destruct b0, b1, b2, b3, b4, b5, b6, b7; intros H; vm_compute in H;
    try discriminate H; injection H as <-; vm_compute; intuition discriminate.
Qed.

Lemma parseInt16_pair (c1 c2 : ascii) (v1 v2 : Z) :
  hexDigitValue c1 = Some v1 -> hexDigitValue c2 = Some v2 ->
  parseInt16 (String c1 (String c2 EmptyString)) = Some (v1 * 16 + v2)%Z.
Proof.
  intros H1 H2.
  destruct (hexDigit_facts c1 v1 H1) as [W1 [W2 [_ [M1 [P1 _]]]]].
  destruct (hexDigit_facts c2 v2 H2) as [_ [_ [_ [_ [_ [X2 [X2' _]]]]]]].
  unfold parseInt16. cbn [trimStart]. rewrite W1, W2, M1, P1.
  unfold stripHexPrefix. rewrite X2, X2', andb_false_r.
  cbn [readHexDigits]. rewrite H1, H2. reflexivity.
Qed.

(** X20. For a colour written as [#] followed by six hexadecimal digits (in
    either case) [hexToRGB] returns three numbers, never [NaN]: each channel
    is sixteen times its first digit plus its second, hence from 0 to
    255. *)
Theorem hexToRGB_reads_six_digits :
  forall (c1 c2 c3 c4 c5 c6 : ascii) (v1 v2 v3 v4 v5 v6 : Z),
    hexDigitValue c1 = Some v1 -> hexDigitValue c2 = Some v2 ->
    hexDigitValue c3 = Some v3 -> hexDigitValue c4 = Some v4 ->
    hexDigitValue c5 = Some v5 -> hexDigitValue c6 = Some v6 ->
    hexToRGB (hexColor c1 c2 c3 c4 c5 c6)
    = (Some (v1 * 16 + v2), Some (v3 * 16 + v4), Some (v5 * 16 + v6))%Z
    /\ (0 <= v1 * 16 + v2 <= 255)%Z
    /\ (0 <= v3 * 16 + v4 <= 255)%Z
    /\ (0 <= v5 * 16 + v6 <= 255)%Z.
Proof.
  intros c1 c2 c3 c4 c5 c6 v1 v2 v3 v4 v5 v6 H1 H2 H3 H4 H5 H6.
  pose proof (hexDigit_facts c1 v1 H1) as [_ [_ [_ [_ [_ [_ [_ R1]]]]]]].
  pose proof (hexDigit_facts c2 v2 H2) as [_ [_ [_ [_ [_ [_ [_ R2]]]]]]].
  pose proof (hexDigit_facts c3 v3 H3) as [_ [_ [_ [_ [_ [_ [_ R3]]]]]]].
  pose proof (hexDigit_facts c4 v4 H4) as [_ [_ [_ [_ [_ [_ [_ R4]]]]]]].
  pose proof (hexDigit_facts c5 v5 H5) as [_ [_ [_ [_ [_ [_ [_ R5]]]]]]].
  pose proof (hexDigit_facts c6 v6 H6) as [_ [_ [_ [_ [_ [_ [_ R6]]]]]]].
  split; [|lia].
  unfold hexToRGB, hexColor, slice. cbn [Nat.sub substring].
  rewrite (parseInt16_pair c1 c2 v1 v2 H1 H2),
          (parseInt16_pair c3 c4 v3 v4 H3 H4),
          (parseInt16_pair c5 c6 v5 v6 H5 H6).
  reflexivity.
Qed.

Lemma hexToRGB_witness :
  hexToRGB "#4A7ce6" = (Some 74, Some 124, Some 230)%Z.
Proof.
  apply (hexToRGB_reads_six_digits "4" "A" "7" "c" "e" "6" 4 10 7 12 14 6);
    reflexivity.
Defined.

(* ================================================================== *)
(** ** [parseConfig]: a complete configuration *)

Lemma ringValue_populated (l : list RingConfig) :
  nullish (VArr (map ringValue l)) = false.
Proof. reflexivity. Qed.

(** X21. A complete configuration passes through [parseConfig] unchanged:
    when the attribute holds a text that [JSON.parse] reads as the object of
    a typed configuration, the result is that very object, no field replaced
    by a default. *)
Theorem parseConfig_keeps_complete_config :
  forall (JSON_parse : string -> option value) (wrapper : HTMLElement)
         (raw : string) (c : MotionConfig),
    getAttribute wrapper "data-motion-config" = Some raw ->
    raw <> EmptyString ->
    JSON_parse raw = Some (configValue c) ->
    parseConfig JSON_parse wrapper = configValue c.
Proof.
  intros JSON_parse wrapper raw c Hraw Hne Hparse.
  unfold parseConfig. rewrite Hraw, Hparse.
  apply String.eqb_neq in Hne. rewrite Hne.
  reflexivity.
Qed.

Lemma sampleConfig_differs :
  configValue sampleConfig <> configValue defaultConfig.
Proof.
  intros H. injection H. intros. lra.
Qed.

(** The configuration [sampleConfig], which shares no field with the
    defaults, comes back as it is. *)
Lemma parseConfig_complete_witness :
  parseConfig (fun _ => Some (configValue sampleConfig)) sampleWrapper
  = configValue sampleConfig
  /\ configValue sampleConfig <> configValue defaultConfig.
Proof.
  split; [|exact sampleConfig_differs].
  apply (parseConfig_keeps_complete_config _ sampleWrapper sampleText sampleConfig).
  - reflexivity.
  - discriminate.
  - reflexivity.
Defined.

(* ================================================================== *)
(** ** The triangle mesh of the globe *)

Lemma cacheGet_inBounds (n : nat) (cache : MidCache) (key : nat * nat) (idx : nat) :
  cacheInBounds n cache -> cacheGet cache key = Some idx -> (idx < n)%nat.
Proof.
  unfold cacheInBounds. induction cache as [|[k i] rest IH]; intros Hall Hget;
    cbn [cacheGet] in Hget; [discriminate|].
  inversion Hall as [|? ? Hi Hrest]; subst. cbn [snd] in Hi.
  destruct (_ && _); [injection Hget as <-; exact Hi | now apply IH].
Qed.

Lemma cacheInBounds_grow (n m : nat) (cache : MidCache) :
  (n <= m)%nat -> cacheInBounds n cache -> cacheInBounds m cache.
Proof.
  intros Hle. unfold cacheInBounds. apply Forall_impl. intros e He. lia.
Qed.

Lemma faceInBounds_grow (n m : nat) (f : Face) :
  (n <= m)%nat -> faceInBounds n f -> faceInBounds m f.
Proof. destruct f as [[a b] c]. unfold faceInBounds. lia. Qed.

Lemma getMid_spec (verts : list Vec3) (cache : MidCache) (a b : nat) :
  (a < List.length verts)%nat -> (b < List.length verts)%nat ->
  cacheInBounds (List.length verts) cache ->
  exists idx verts' cache',
    getMid verts cache a b = Some (idx, verts', cache')
    /\ (List.length verts <= List.length verts')%nat
    /\ (idx < List.length verts')%nat
    /\ cacheInBounds (List.length verts') cache'.
Proof.
  intros Ha Hb Hc. unfold getMid.
  destruct (cacheGet cache (edgeKey a b)) as [idx|] eqn:Eget.
  - exists idx, verts, cache. repeat split; auto.
    now apply (cacheGet_inBounds _ cache (edgeKey a b)).
  - destruct (nth_error verts a) as [va|] eqn:Ea;
      [|apply nth_error_None in Ea; lia].
    destruct (nth_error verts b) as [vb|] eqn:Eb;
      [|apply nth_error_None in Eb; lia].
    eexists _, _, _. split; [reflexivity|].
    rewrite length_app. cbn [List.length].
    split; [lia|]. split; [lia|].
    constructor; [cbn; lia|].
    apply (cacheInBounds_grow (List.length verts)); [lia | exact Hc].
Qed.

Lemma splitFace_spec (verts : list Vec3) (cache : MidCache) (newFaces : list Face)
  (f : Face) :
  faceInBounds (List.length verts) f ->
  cacheInBounds (List.length verts) cache ->
  Forall (faceInBounds (List.length verts)) newFaces ->
  exists verts' cache' newFaces',
    splitFace verts cache newFaces f = Some (verts', cache', newFaces')
    /\ (List.length verts <= List.length verts')%nat
    /\ cacheInBounds (List.length verts') cache'
    /\ Forall (faceInBounds (List.length verts')) newFaces'
    /\ List.length newFaces' = (List.length newFaces + 4)%nat.
Proof.
  destruct f as [[a b] c]. intros [Ha [Hb Hc]] Hcache Hnew.
  unfold splitFace.
  destruct (getMid_spec verts cache a b Ha Hb Hcache)
    as [ab [v1 [c1 [E1 [L1 [I1 C1]]]]]]. rewrite E1.
  destruct (getMid_spec v1 c1 b c) as [bc [v2 [c2 [E2 [L2 [I2 C2]]]]]];
    [lia | lia | exact C1 |]. rewrite E2.
  destruct (getMid_spec v2 c2 c a) as [ca [v3 [c3 [E3 [L3 [I3 C3]]]]]];
    [lia | lia | exact C2 |]. rewrite E3.
  eexists _, _, _. split; [reflexivity|].
  split; [lia|]. split; [exact C3|]. split.
  - apply Forall_app. split.
    + eapply Forall_impl; [|exact Hnew].
      intros f Hf. apply (faceInBounds_grow (List.length verts)); [lia | exact Hf].
    + repeat constructor; unfold faceInBounds; lia.
  - rewrite length_app. reflexivity.
Qed.

Lemma splitFaces_spec (faces : list Face) :
  forall (verts : list Vec3) (cache : MidCache) (newFaces : list Face),
    Forall (faceInBounds (List.length verts)) faces ->
    cacheInBounds (List.length verts) cache ->
    Forall (faceInBounds (List.length verts)) newFaces ->
    exists verts' cache' newFaces',
      splitFaces verts cache newFaces faces = Some (verts', cache', newFaces')
      /\ (List.length verts <= List.length verts')%nat
      /\ Forall (faceInBounds (List.length verts')) newFaces'
      /\ List.length newFaces'
         = (List.length newFaces + 4 * List.length faces)%nat.
Proof.
  induction faces as [|f rest IH]; intros verts cache newFaces Hfaces Hcache Hnew.
  - exists verts, cache, newFaces. cbn. repeat split; auto; lia.
  - inversion Hfaces as [|? ? Hf Hrest]; subst.
    destruct (splitFace_spec verts cache newFaces f Hf Hcache Hnew)
      as [v1 [c1 [n1 [E1 [L1 [C1 [N1 Len1]]]]]]].
    cbn [splitFaces]. rewrite E1.
    destruct (IH v1 c1 n1) as [v2 [c2 [n2 [E2 [L2 [N2 Len2]]]]]].
    + eapply Forall_impl; [|exact Hrest].
      intros g Hg. apply (faceInBounds_grow (List.length verts)); [lia | exact Hg].
    + exact C1.
    + exact N1.
    + exists v2, c2, n2. split; [exact E2|].
      split; [lia|]. split; [exact N2|]. cbn [List.length]. lia.
Qed.

Lemma subdivide_spec (s : nat) :
  forall (verts : list Vec3) (faces : list Face),
    Forall (faceInBounds (List.length verts)) faces ->
    exists verts' faces',
      subdivide s verts faces = Some (verts', faces')
      /\ (List.length verts <= List.length verts')%nat
      /\ Forall (faceInBounds (List.length verts')) faces'
      /\ List.length faces' = (List.length faces * 4 ^ s)%nat.
Proof.
  induction s as [|s IH]; intros verts faces Hfaces.
  - exists verts, faces. cbn. repeat split; auto; lia.
  - destruct (splitFaces_spec faces verts [] [] Hfaces)
      as [v1 [c1 [n1 [E1 [L1 [N1 Len1]]]]]]; [constructor | constructor |].
    cbn [subdivide]. rewrite E1.
    destruct (IH v1 n1 N1) as [v2 [f2 [E2 [L2 [N2 Len2]]]]].
    exists v2, f2. split; [exact E2|]. split; [lia|]. split; [exact N2|].
    rewrite Len2, Len1. cbn [List.length Nat.add Nat.pow]. lia.
Qed.

(** X22. Building the triangle mesh of the globe never reads a missing
    vertex, for any number of subdivisions: the result has [20 * 4^s]
    triangles, at least the 12 vertices of the icosahedron, and every
    corner of every triangle is an index into the vertex list (so the
    centroid and adjacency passes that follow read existing vertices). *)
Theorem icosphere_faces_index_existing_vertices :
  forall s : nat,
    exists verts faces,
      icosphere s = Some (verts, faces)
      /\ List.length faces = (20 * 4 ^ s)%nat
      /\ (12 <= List.length verts)%nat
      /\ Forall (faceInBounds (List.length verts)) faces.
Proof.
  intros s. unfold icosphere.
  destruct (subdivide_spec s baseVerts baseFaces) as [v [f [E [L [N Len]]]]].
  - unfold baseVerts, baseFaces. rewrite length_map. cbn [List.length].
    repeat constructor.
  - exists v, f. split; [exact E|].
    unfold baseFaces in Len. cbn [List.length] in Len.
    unfold baseVerts in L. rewrite length_map in L. cbn [List.length] in L.
    repeat split; auto.
Qed.

(* ================================================================== *)
(** ** [resize] *)

(** X23. Whatever the window reports, after [resize] the scene is at least
    1 px wide and high, it is mobile exactly when the window is narrower
    than 900 px, the pixel ratio is at most 2 (a ratio of 0 counts as 1),
    the spread is 1.55 times the longer side, hence at least 1.55, and the
    pool holds at least 220 stars, all new: within the spread, at depth
    [[1, depth + 1]] and uninitialized. *)
Theorem resize_leaves_a_drawable_scene :
  forall (sc : Scene) (innerWidth innerHeight devicePixelRatio : R)
         (rnd : Random) (k : nat),
    0 <= depth (stars (config sc)) ->
    (forall n, 0 <= rnd n < 1) ->
    let r := resize sc innerWidth innerHeight devicePixelRatio rnd k in
    1 <= width (resizedScene r) /\ 1 <= height (resizedScene r)
    /\ (isMobile (resizedScene r) = true <-> innerWidth < 900)
    /\ resizedDpr r <= 2
    /\ (devicePixelRatio = 0 -> resizedDpr r = 1)
    /\ spread (resizedScene r)
       = Rmax (width (resizedScene r)) (height (resizedScene r)) * 1.55
    /\ 1.55 <= spread (resizedScene r)
    /\ (220 <= List.length (resizedPool r))%nat
    /\ Forall (freshStar (depth (stars (config sc))) (spread (resizedScene r)))
         (resizedPool r).
Proof.
  intros sc innerWidth innerHeight devicePixelRatio rnd k Hd Hrnd r.
  set (w := Rmax innerWidth 1). set (h := Rmax innerHeight 1).
  assert (1 <= w) as Hw by (unfold w, Rmax; destruct (Rle_dec _ _); lra).
  assert (1 <= h) as Hh by (unfold h, Rmax; destruct (Rle_dec _ _); lra).
  set (measured :=
         {| width := w; height := h; isMobile := Rltb w 900;
            lowPowerDevice := lowPowerDevice sc; reduceMotion := reduceMotion sc;
            vStampReady := vStampReady sc; spread := spread sc;
            mouseX := mouseX sc; mouseY := mouseY sc;
            scrollEnergy := scrollEnergy sc; pointerEnergy := pointerEnergy sc;
            config := config sc |}).
  pose proof (createStars_length (Z.to_nat (finalCount measured))
                (depth (stars (config sc))) (Rmax w h * 1.55) rnd k) as Hlen.
  assert (0 <= Rmax w h * 1.55) as Hs
    by (unfold Rmax; destruct (Rle_dec w h); lra).
  pose proof (createStars_fresh (Z.to_nat (finalCount measured))
                (depth (stars (config sc))) (Rmax w h * 1.55) rnd Hd Hs Hrnd k)
    as [Hfresh _].
  assert (220 <= finalCount measured)%Z as Hcount by (unfold finalCount; lia).
  unfold r, resize. fold w. fold h. fold measured.
  unfold rebuildStars. cbn [width height config].
  destruct (createStars _ _ _ rnd k) as [pool k'].
  cbn [fst] in Hlen, Hfresh.
  cbn [resizedScene resizedDpr resizedPool width height isMobile spread].
  split; [exact Hw|]. split; [exact Hh|].
  split.
  { rewrite Rltb_true. unfold w, Rmax. destruct (Rle_dec _ _); split; lra. }
  split; [apply Rmin_r|].
  split.
  { intros ->. unfold orOne. destruct (Req_dec_T 0 0) as [_|N]; [|contradiction].
    unfold Rmin. destruct (Rle_dec 1 2); lra. }
  split; [reflexivity|].
  split.
  { change (1.55 <= Rmax w h * 1.55).
    unfold Rmax. destruct (Rle_dec w h); lra. }
  split; [lia | exact Hfresh].
Qed.

Lemma resize_witness :
  1.55 <= spread (resizedScene (resize sampleScene 390 844 3 halves 0)).
Proof.
  apply (resize_leaves_a_drawable_scene sampleScene 390 844 3 halves 0).
  - unfold sampleScene, defaultConfig. cbn [config stars depth]. lra.
  - intros n. unfold halves. lra.
Defined.

(* ================================================================== *)
(** ** The breathing globe *)

Lemma breathTarget_range (nowSeconds : R) : 0.8 <= breathTarget nowSeconds <= 1.05.
Proof.
  unfold breathTarget.
  pose proof (SIN_bound (nowSeconds * 0.8)).
  pose proof (SIN_bound (nowSeconds * 1.9)). lra.
Qed.

(** X24. The breathing scale of the globe stays between 80% and 105% over
    any sequence of frames, drawn or skipped: it starts at 1 and each drawn
    frame moves it 8% of the way toward a target in that range. *)
Theorem globe_breath_stays_in_range :
  forall (ready : bool) (frames : list (R * R)),
    0.8 <= runBreath ready frames <= 1.05.
Proof.
  intros ready frames. unfold runBreath.
  assert (0.8 <= 1.0 <= 1.05) as Hinit by lra.
  revert Hinit. generalize 1.0.
  induction frames as [|[reveal now] rest IH]; intros current Hc; cbn [fold_left].
  - exact Hc.
  - apply IH. unfold breathStep. cbn [fst snd].
    destruct (negb ready || Rleb reveal 0.02); [exact Hc|].
    pose proof (breathTarget_range now). lra.
Qed.

(* ================================================================== *)
(** ** The pointer on the globe *)

Lemma projectCorner_fx (rotY tiltX : R) (c : Vec3) :
  fst (fst (projectCorner rotY tiltX c))
  = fst (fst c) * cos rotY + snd (fst c) * sin rotY.
Proof. destruct c as [[cx cy] cz]. reflexivity. Qed.

(** X25. For a pointer on the globe ([fx^2 + fz^2 < 1]) the direction that
    [drawHexGlobe] stores is a unit vector.  Projecting it the way cell
    corners are projected gives back the pointer's screen direction and
    depth whenever [sin rotY = 0]; in general the horizontal coordinate
    comes back as [fx cos(2 rotY) + ry sin(2 rotY)], with [ry] the un-tilted
    depth, because the stored direction is turned by [rotY] once more
    instead of being turned back.  A pointer off the globe stores
    nothing. *)
Theorem pointer_unprojection_round_trip :
  forall rotY tiltX fx fz : R,
    (1 <= fx * fx + fz * fz -> unprojectPointer rotY tiltX fx fz = None)
    /\ (fx * fx + fz * fz < 1 ->
        let fy := sqrt (1 - (fx * fx + fz * fz)) in
        let ry := fz * sin tiltX + fy * cos tiltX in
        exists n,
          unprojectPointer rotY tiltX fx fz = Some n
          /\ (let '(nx, ny, nz) := n in nx * nx + ny * ny + nz * nz = 1)
          /\ (sin rotY = 0 -> projectCorner rotY tiltX n = (fx, fy, fz))
          /\ fst (fst (projectCorner rotY tiltX n))
             = fx * cos (2 * rotY) + ry * sin (2 * rotY)).
Proof.
  intros rotY tiltX fx fz. split.
  - intros Hout. unfold unprojectPointer.
    assert (Rltb (fx * fx + fz * fz) 1.0 = false) as -> by (apply Rltb_false; lra).
    reflexivity.
  - intros Hin fy ry.
    assert (Rltb (fx * fx + fz * fz) 1.0 = true) as Hlt by (apply Rltb_true; lra).
    assert (Rmax 0 (1 - (fx * fx + fz * fz)) = 1 - (fx * fx + fz * fz)) as Hmax
      by (unfold Rmax; destruct (Rle_dec _ _); lra).
    assert (fy * fy = 1 - (fx * fx + fz * fz)) as Hfy
      by (unfold fy; apply sqrt_sqrt; lra).
    pose proof (sin2_cos2 rotY) as Hr. unfold Rsqr in Hr.
    pose proof (sin2_cos2 tiltX) as Ht. unfold Rsqr in Ht.
    set (s := sin rotY) in *. set (c := cos rotY) in *.
    set (st := sin tiltX) in *. set (ct := cos tiltX) in *.
    exists (fx * c + ry * s, - fx * s + ry * c, fz * ct - fy * st).
    split.
    { unfold unprojectPointer. rewrite Hlt, Hmax. reflexivity. }
    assert (ry * ry + (fz * ct - fy * st) * (fz * ct - fy * st) = fz * fz + fy * fy)
      as Htilt.
    { unfold ry.
      replace ((fz * st + fy * ct) * (fz * st + fy * ct)
               + (fz * ct - fy * st) * (fz * ct - fy * st))
        with ((fz * fz + fy * fy) * (st * st + ct * ct)) by ring.
      rewrite Ht. ring. }
    split; [|split].
    + replace ((fx * c + ry * s) * (fx * c + ry * s)
               + (- fx * s + ry * c) * (- fx * s + ry * c)
               + (fz * ct - fy * st) * (fz * ct - fy * st))
        with ((fx * fx + ry * ry) * (s * s + c * c)
              + (fz * ct - fy * st) * (fz * ct - fy * st)) by ring.
      rewrite Hr. lra.
    + intros Hs0. unfold projectCorner. fold s c st ct.
      assert (c * c = 1) as Hc1 by (rewrite Hs0 in Hr; lra).
      rewrite Hs0.
      assert ((fx * c + ry * 0) * c + (- fx * 0 + ry * c) * 0 = fx) as E1
        by (replace ((fx * c + ry * 0) * c + (- fx * 0 + ry * c) * 0)
              with (fx * (c * c)) by ring; rewrite Hc1; ring).
      assert (- (fx * c + ry * 0) * 0 + (- fx * 0 + ry * c) * c = ry) as E2
        by (replace (- (fx * c + ry * 0) * 0 + (- fx * 0 + ry * c) * c)
              with (ry * (c * c)) by ring; rewrite Hc1; ring).
      rewrite E1, E2.
      assert (ry * ct - (fz * ct - fy * st) * st = fy) as E3
        by (unfold ry;
            replace ((fz * st + fy * ct) * ct - (fz * ct - fy * st) * st)
              with (fy * (st * st + ct * ct)) by ring; rewrite Ht; ring).
      assert (ry * st + (fz * ct - fy * st) * ct = fz) as E4
        by (unfold ry;
            replace ((fz * st + fy * ct) * st + (fz * ct - fy * st) * ct)
              with (fz * (st * st + ct * ct)) by ring; rewrite Ht; ring).
      rewrite E3, E4. reflexivity.
    + rewrite projectCorner_fx. cbn [fst snd].
      rewrite cos_2a, sin_2a. fold s c. ring.
Qed.

Lemma pointer_unprojection_witness :
  exists n, unprojectPointer 0 0.3 0.5 0 = Some n
            /\ projectCorner 0 0.3 n = (0.5, sqrt (1 - (0.5 * 0.5 + 0 * 0)), 0).
Proof.
  destruct (pointer_unprojection_round_trip 0 0.3 0.5 0) as [_ H].
  destruct H as [n [Hn [_ [Hrt _]]]]; [lra|].
  exists n. split; [exact Hn|]. apply Hrt. apply sin_0.
Defined.

(* ================================================================== *)
(** ** Particles of the energy core *)

Lemma square_bound (v b : R) : - b <= v <= b -> v * v <= b * b.
Proof. intros H. nra. Qed.

Lemma placeParticle_spec (layer : Z) (rnd : Random) (k : nat) :
  (forall n, 0 <= rnd n < 1) ->
  let '(x, y, z, (size, brightness, hue), k4) := placeParticle layer rnd k in
  x * x + y * y + z * z < 1 /\ (0 <= hue <= 2)%Z.
Proof.
  intros Hrnd. unfold placeParticle.
  pose proof (Hrnd (k + 1)%nat) as H1. pose proof (Hrnd (k + 2)%nat) as H2.
  destruct (layer =? 0)%Z; [|destruct (layer =? 1)%Z].
  - set (a := rnd k * PI * 2). set (s := 0.05 + rnd (k + 1)%nat * 0.2).
    set (y := (rnd (k + 2)%nat - 0.5) * 0.3).
    pose proof (sin2_cos2 a) as Ha. unfold Rsqr in Ha.
    assert (cos a * s * (cos a * s) + sin a * s * (sin a * s) = s * s) as Exz
      by (replace (cos a * s * (cos a * s) + sin a * s * (sin a * s))
            with ((sin a * sin a + cos a * cos a) * (s * s)) by ring;
          rewrite Ha; ring).
    assert (s * s <= 0.25 * 0.25) as Hs by (apply square_bound; unfold s; lra).
    assert (y * y <= 0.15 * 0.15) as Hy by (apply square_bound; unfold y; lra).
    split; [lra|]. destruct (Rltb _ _); lia.
  - set (a := rnd k * PI * 2). set (s := 0.2 + rnd (k + 1)%nat * 0.35).
    set (y := (rnd (k + 2)%nat - 0.5) * 0.5).
    pose proof (sin2_cos2 a) as Ha. unfold Rsqr in Ha.
    assert (cos a * s * (cos a * s) + sin a * s * (sin a * s) = s * s) as Exz
      by (replace (cos a * s * (cos a * s) + sin a * s * (sin a * s))
            with ((sin a * sin a + cos a * cos a) * (s * s)) by ring;
          rewrite Ha; ring).
    assert (s * s <= 0.55 * 0.55) as Hs by (apply square_bound; unfold s; lra).
    assert (y * y <= 0.25 * 0.25) as Hy by (apply square_bound; unfold y; lra).
    split; [lra|]. destruct (Rltb _ _); lia.
  - set (a := rnd k * PI * 2). set (e := (rnd (k + 1)%nat - 0.5) * PI).
    set (s := 0.4 + rnd (k + 2)%nat * 0.45).
    pose proof (sin2_cos2 a) as Ha. unfold Rsqr in Ha.
    pose proof (sin2_cos2 e) as He. unfold Rsqr in He.
    assert (cos a * cos e * s * (cos a * cos e * s) + sin e * s * (sin e * s)
            + sin a * cos e * s * (sin a * cos e * s) = s * s) as Exyz.
    { replace (cos a * cos e * s * (cos a * cos e * s) + sin e * s * (sin e * s)
               + sin a * cos e * s * (sin a * cos e * s))
        with (((sin a * sin a + cos a * cos a) * (cos e * cos e) + sin e * sin e)
              * (s * s)) by ring.
      rewrite Ha, Rmult_1_l, (Rplus_comm (cos e * cos e)), He. ring. }
    assert (s * s <= 0.85 * 0.85) as Hs by (apply square_bound; unfold s; lra).
    split; [lra | lia].
Qed.

Lemma initCoreParticle_spec (p : CoreParticle) (respawn : bool)
  (rnd : Random) (k : nat) :
  (forall n, 0 <= rnd n < 1) ->
  (respawn = true -> (0 <= cpLayer p <= 2)%Z) ->
  let q := fst (initCoreParticle p respawn rnd k) in
  liveParticle q /\ insideUnitSphere q
  /\ (respawn = true -> cpLayer q = cpLayer p /\ cpLife q = 0).
Proof.
  intros Hrnd Hlayer. unfold initCoreParticle.
  set (lk := if respawn then (cpLayer p, k) else (Math_floor (rnd k * 3), S k)).
  assert ((0 <= fst lk <= 2)%Z /\ (respawn = true -> fst lk = cpLayer p)) as [Hl Hkeep].
  { unfold lk. destruct respawn; cbn [fst].
    - split; [now apply Hlayer | reflexivity].
    - split; [|discriminate].
      pose proof (Hrnd k). apply Math_floor_range; lra. }
  destruct lk as [layer k1]. cbn [fst] in Hl, Hkeep.
  set (fk := if respawn then (0, k1) else (rnd k1, S k1)).
  assert (0 <= fst fk < 1 /\ (respawn = true -> fst fk = 0)) as [Hf Hzero].
  { unfold fk. destruct respawn; cbn [fst].
    - split; [lra | reflexivity].
    - split; [apply Hrnd | discriminate]. }
  destruct fk as [life k2]. cbn [fst] in Hf, Hzero.
  pose proof (placeParticle_spec layer rnd (S k2) Hrnd) as Hplace.
  destruct (placeParticle layer rnd (S k2)) as [[[[x y] z] [[size brightness] hue]] k4].
  destruct Hplace as [Hin Hhue].
  cbn [fst]. unfold liveParticle, insideUnitSphere.
  cbn [cpLayer cpHue cpLife cpMaxLife cpX cpY cpZ].
  pose proof (Hrnd k2).
  repeat split; try lia; try lra; auto.
Qed.

Lemma updateCoreParticle_live (reduce : bool) (mx my : R) (p : CoreParticle)
  (rnd : Random) (k : nat) :
  (forall n, 0 <= rnd n < 1) ->
  liveParticle p ->
  let q := fst (updateCoreParticle reduce mx my p rnd k) in
  liveParticle q /\ cpLayer q = cpLayer p.
Proof.
  intros Hrnd [Hl [Hh [Hlife Hmax]]]. unfold updateCoreParticle.
  set (delta16 := if reduce then 0.5 else 1).
  set (life := cpLife p + delta16 * 0.006 / cpMaxLife p).
  assert (0 <= life) as Hpos.
  { unfold life.
    assert (0 <= delta16 * 0.006) by (unfold delta16; destruct reduce; lra).
    assert (0 < / cpMaxLife p) by (apply Rinv_0_lt_compat; lra).
    assert (0 <= delta16 * 0.006 / cpMaxLife p)
      by (unfold Rdiv; apply Rmult_le_pos; lra).
    lra. }
  destruct (Rleb 1 life) eqn:E.
  - set (aged := mkCoreParticle (cpX p) (cpY p) (cpZ p) (cpVx p) (cpVy p) (cpVz p)
                   (cpSize p) (cpBrightness p) (cpHue p) life (cpMaxLife p)
                   (cpLayer p)).
    destruct (initCoreParticle_spec aged true rnd k Hrnd) as [Hlive [_ Hkeep]];
      [intros _; exact Hl|].
    split; [exact Hlive|]. now apply Hkeep.
  - apply Rleb_false in E.
    destruct (if Rltb _ _ then _ else _) as [[x3 y3] z3].
    cbn [fst]. unfold liveParticle. cbn [cpLayer cpHue cpLife cpMaxLife].
    repeat split; try lia; lra.
Qed.

Lemma updateCoreParticles_live (reduce : bool) (mx my : R) (rnd : Random) :
  (forall n, 0 <= rnd n < 1) ->
  forall ps k,
    Forall liveParticle ps ->
    Forall liveParticle (fst (updateCoreParticles reduce mx my ps rnd k))
    /\ map cpLayer (fst (updateCoreParticles reduce mx my ps rnd k)) = map cpLayer ps.
Proof.
  intros Hrnd. induction ps as [|p rest IH]; intros k Hall; cbn [updateCoreParticles].
  - split; [constructor | reflexivity].
  - inversion Hall as [|? ? Hp Hrest]; subst.
    destruct (updateCoreParticle_live reduce mx my p rnd k Hrnd Hp) as [Hq Hlayer].
    destruct (updateCoreParticle reduce mx my p rnd k) as [p' k1].
    destruct (IH k1 Hrest) as [Hall' Hlayers].
    destruct (updateCoreParticles reduce mx my rest rnd k1) as [rest' k2].
    cbn [fst map] in *. split; [now constructor | congruence].
Qed.

Lemma initEnergyCoreParticles_spec (rnd : Random) :
  (forall n, 0 <= rnd n < 1) ->
  forall count k,
    List.length (fst (initEnergyCoreParticles count rnd k)) = count
    /\ Forall (fun p => liveParticle p /\ insideUnitSphere p)
         (fst (initEnergyCoreParticles count rnd k)).
Proof.
  intros Hrnd. induction count as [|n IH]; intros k; cbn [initEnergyCoreParticles].
  - split; [reflexivity | constructor].
  - destruct (initCoreParticle_spec blankParticle false rnd k Hrnd)
      as [Hlive [Hin _]]; [discriminate|].
    destruct (initCoreParticle blankParticle false rnd k) as [p k1].
    destruct (IH k1) as [Hlen Hall].
    destruct (initEnergyCoreParticles n rnd k1) as [rest k2].
    cbn [fst] in *. split; [cbn; now rewrite Hlen | now constructor].
Qed.

(** X26. With samples in [[0, 1)], every particle [initEnergyCoreParticles]
    makes, and every particle respawned later, lies inside the unit sphere
    and has a layer and a hue among 0, 1, 2, a life in [[0, 1)] and a
    lifetime in [[0.6, 1.4)].  Over any number of frames the pool keeps its
    size, every particle keeps its layer, its hue still names one of the
    three colours, its life stays in [[0, 1)] and its lifetime never
    becomes a zero divisor. *)
Theorem core_particles_stay_alive :
  forall (count frames : nat) (reduce : bool) (mx my : R) (rnd : Random) (k : nat),
    (forall n, 0 <= rnd n < 1) ->
    let born := fst (initEnergyCoreParticles count rnd k) in
    let later :=
      fst (runCoreParticles frames reduce mx my born rnd
             (snd (initEnergyCoreParticles count rnd k))) in
    List.length born = count
    /\ Forall (fun p => liveParticle p /\ insideUnitSphere p) born
    /\ (forall p j, liveParticle p ->
          insideUnitSphere (fst (initCoreParticle p true rnd j)))
    /\ Forall liveParticle later
    /\ map cpLayer later = map cpLayer born.
Proof.
  intros count frames reduce mx my rnd k Hrnd born later.
  destruct (initEnergyCoreParticles_spec rnd Hrnd count k) as [Hlen Hborn].
  fold born in Hlen, Hborn.
  split; [exact Hlen|]. split; [exact Hborn|].
  split.
  { intros p j [Hl _].
    destruct (initCoreParticle_spec p true rnd j Hrnd) as [_ [Hin _]];
      [intros _; exact Hl | exact Hin]. }
  assert (Forall liveParticle born) as Hlive
    by (eapply Forall_impl; [|exact Hborn]; intros p [H _]; exact H).
  assert (forall n ps j,
            Forall liveParticle ps ->
            Forall liveParticle (fst (runCoreParticles n reduce mx my ps rnd j))
            /\ map cpLayer (fst (runCoreParticles n reduce mx my ps rnd j))
               = map cpLayer ps) as Hrun.
  { induction n as [|n IH]; intros ps j Hps; cbn [runCoreParticles].
    - split; [exact Hps | reflexivity].
    - destruct (updateCoreParticles_live reduce mx my rnd Hrnd ps j Hps)
        as [Hps' Hlayers].
      destruct (updateCoreParticles reduce mx my ps rnd j) as [ps' j1].
      cbn [fst] in *. destruct (IH ps' j1 Hps') as [H1 H2].
      split; [exact H1 | congruence]. }
  apply Hrun. exact Hlive.
Qed.

Lemma core_particles_witness :
  List.length (fst (initEnergyCoreParticles 400 halves 0)) = 400%nat.
Proof.
  apply (core_particles_stay_alive 400 3 false 0 0 halves 0).
  intros n. unfold halves. lra.
Defined.

(* ================================================================== *)
(** ** Title cards: where the compass line points *)

Lemma cos_PI9_bounds : sin (PI / 9) < cos (PI / 9) /\ 0 < cos (PI / 9).
Proof.
  pose proof PI_RGT_0 as Hpi. split.
  - rewrite <- (sin_shift (PI / 9)).
    apply sin_increasing_1; lra.
  - apply cos_gt_0; lra.
Qed.

(** X27. The compass line points left and slightly up: [LINE_DX] and
    [LINE_DY] are negative, [LINE_DY] is the smaller in magnitude, and
    together they are a unit direction.  So a slide parked at the entry end
    sits to the right of and below the reading position, at least 200 px
    away, one parked at the exit end to the left of and above it, at least
    220 px away, at every viewport width. *)
Theorem compass_line_points_left_and_up :
  forall width : R,
    LINE_DX < 0 /\ LINE_DY < 0 /\ - LINE_DY < - LINE_DX
    /\ LINE_DX * LINE_DX + LINE_DY * LINE_DY = 1
    /\ 200 <= entry (getLineDist width) /\ 220 <= exit (getLineDist width)
    /\ 0 < entryTx width /\ 0 < entryTy width
    /\ exitTx width < 0 /\ exitTy width < 0
    /\ entryTx width * entryTx width + entryTy width * entryTy width
       = entry (getLineDist width) * entry (getLineDist width)
    /\ exitTx width * exitTx width + exitTy width * exitTy width
       = exit (getLineDist width) * exit (getLineDist width).
Proof.
  intros width.
  pose proof cos_PI9_bounds as [Hlt Hcos].
  pose proof sin_PI9_lower as Hsin.
  pose proof (sin2_cos2 (PI / 9)) as Hunit. unfold Rsqr in Hunit.
  assert (200 <= entry (getLineDist width)) as He
    by (cbn [getLineDist entry]; unfold Rmax; destruct (Rle_dec _ _); lra).
  assert (220 <= exit (getLineDist width)) as Hx
    by (cbn [getLineDist exit]; unfold Rmax; destruct (Rle_dec _ _); lra).
  unfold entryTx, entryTy, exitTx, exitTy.
  rewrite LINE_DX_value, LINE_DY_value.
  set (c := cos (PI / 9)) in *. set (s := sin (PI / 9)) in *.
  set (en := entry (getLineDist width)) in *.
  set (ex := exit (getLineDist width)) in *.
  assert (- c * - c + - s * - s = 1) as Hu by (rewrite <- Hunit; ring).
  split; [lra|]. split; [lra|]. split; [lra|]. split; [exact Hu|].
  split; [exact He|]. split; [exact Hx|].
  split; [nra|]. split; [nra|]. split; [nra|]. split; [nra|].
  split.
  - replace (- - c * en * (- - c * en) + - - s * en * (- - s * en))
      with ((- c * - c + - s * - s) * (en * en)) by ring.
    rewrite Hu. ring.
  - replace (- c * ex * (- c * ex) + - s * ex * (- s * ex))
      with ((- c * - c + - s * - s) * (ex * ex)) by ring.
    rewrite Hu. ring.
Qed.
